(** * ai-apps-config-mcp: the config registry and the config reader

    A shallow embedding of [src/app-config-mapping.ts] (class
    [AppConfigMapping]), of the reader module (class [ConfigReader]) and
    of the request handlers of [src/index.ts] (class [MacOSConfigServer]),
    followed by the properties the specification states about them and by
    further properties of the three classes.

    Modelling conventions.
    - A JavaScript string is a [string] of 8-bit characters; the built-ins
      that depend on the character set ([toLowerCase], [trim], the default
      order of [sort]) are given on the ASCII range, where they agree with
      the runtime's. A theorem that depends on one of them beyond what
      holds for every string says so by a hypothesis [ascii_only].
    - An [async] function is its sequential result: every [await] of the
      two classes sits in straight-line code.
    - A thrown value is explicit: a computation ends in a [Completion],
      normal or abrupt, and [try]/[catch] is [try_catch].
    - The table [APP_CONFIGS] is a finite map over its own keys, and the
      [ConfigLocation] objects live in an object store addressed by
      references, so that sharing between the table and the results of a
      resolution is visible. Two things are outside this model. Indexing
      the table with "constructor" or "__proto__", the lower-case names
      under which every object inherits a property of [Object.prototype],
      finds that inherited object in the source, where the model finds
      nothing, and so does "configs" once [updateAppConfigs] has been
      given "__proto__": a theorem about a key that the table may not
      have takes the hypothesis [own_lookup], which leaves these three
      names out. And the array of an entry is modelled
      by its contents: an array that a caller of [updateAppConfigs] shares
      between two entries is one list per entry here, so the theorems
      about a write speak of the entry written to, or of the states
      [grown] from the built-in table without [updateAppConfigs], in
      which no array is shared.
    - The file system, the home directory and the three parsers are the
      environment: they are parameters of the functions that use them,
      and a theorem about two calls between which the files may change
      takes two file systems. [JSON.stringify] is a parameter too, a
      function of the value: a value read from a yaml file can hold a
      cycle, on which the runtime's throws, so a theorem about the JSON
      text of what has been read leaves the format yaml out.
    - A request is handled from its start to its end with no other
      request in between, and the arguments of a tool call have the types
      the handler casts them to. *)

From Stdlib Require Import Floats Ascii String.
From stdpp Require Import gmap strings list pretty sorting.

Local Open Scope string_scope.
Local Open Scope list_scope.

(** ** JavaScript built-ins used by the two classes *)

Module JS.

(** The line feed, written ['\n'] in the source. *)
Definition LF : ascii := "010"%char.
Definition nl : string := String LF "".

(** The double quote, and a text written with apostrophes where it has
    double quotes. *)
Definition DQ : ascii := "034"%char.
Definition dq : string := String DQ "".

Fixpoint text (s : string) : string :=
  match s with
  | EmptyString => EmptyString
  | String c s' => String (if Ascii.eqb c "'" then DQ else c) (text s')
  end.

(** [String.prototype.toLowerCase], ASCII letters. *)
Definition lower_ascii (c : ascii) : ascii :=
  let n := nat_of_ascii c in
  if (65 <=? n)%nat && (n <=? 90)%nat then ascii_of_nat (n + 32) else c.

Fixpoint toLowerCase (s : string) : string :=
  match s with
  | EmptyString => EmptyString
  | String c s' => String (lower_ascii c) (toLowerCase s')
  end.

(** [String.prototype.startsWith]. *)
Fixpoint startsWith (s p : string) {struct p} : bool :=
  match p, s with
  | EmptyString, _ => true
  | String _ _, EmptyString => false
  | String a p', String b s' => if Ascii.eqb a b then startsWith s' p' else false
  end.

(** [String.prototype.includes]: some suffix of [s] starts with [t]. *)
Fixpoint includes (s t : string) : bool :=
  startsWith s t ||
  match s with
  | EmptyString => false
  | String _ s' => includes s' t
  end.

(** [s.split('\n')]: never empty, [""] splits into one empty line. *)
Fixpoint split_lines (s : string) : list string :=
  match s with
  | EmptyString => [EmptyString]
  | String c s' =>
      if Ascii.eqb c LF then EmptyString :: split_lines s'
      else match split_lines s' with
           | l :: ls => String c l :: ls
           | [] => [String c EmptyString]
           end
  end.

(** [Array.prototype.join]. *)
Definition join (sep : string) (l : list string) : string := String.concat sep l.

(** [String.prototype.trim]: white space is TAB, LF, VT, FF, CR and SPACE. *)
Definition is_space (c : ascii) : bool :=
  let n := nat_of_ascii c in
  ((9 <=? n)%nat && (n <=? 13)%nat) || (n =? 32)%nat.

Fixpoint trimStart (s : string) : string :=
  match s with
  | EmptyString => EmptyString
  | String c s' => if is_space c then trimStart s' else s
  end.

Fixpoint trimEnd (s : string) : string :=
  match s with
  | EmptyString => EmptyString
  | String c s' =>
      match trimEnd s' with
      | EmptyString => if is_space c then EmptyString else String c EmptyString
      | t => String c t
      end
  end.

Definition trim (s : string) : string := trimEnd (trimStart s).

(** [Array.prototype.sort] with the default order, which on strings is
    the lexicographic order of the code units ([String.le]). *)
Definition sort (l : list string) : list string := merge_sort String.le l.

(** A number converted to a string, for the natural numbers the reader
    prints (line numbers and line counts). *)
Definition nat_to_string (n : nat) : string := pretty n.

(** The replacement text of [String.prototype.replace] when the pattern
    has no capture group: [$$] is a dollar sign, [$&] the match, [$`]
    the text before the match and [$'] the text after it; every other
    character stands for itself. *)
Fixpoint getSubstitution (matched before after repl : string) : string :=
  match repl with
  | EmptyString => EmptyString
  | String c r =>
      if Ascii.eqb c "$" then
        match r with
        | String d r' =>
            if Ascii.eqb d "$" then String "$" (getSubstitution matched before after r')
            else if Ascii.eqb d "&" then matched +:+ getSubstitution matched before after r'
            else if Ascii.eqb d "`" then before +:+ getSubstitution matched before after r'
            else if Ascii.eqb d "'" then after +:+ getSubstitution matched before after r'
            else String c (getSubstitution matched before after r)
        | EmptyString => String c EmptyString
        end
      else String c (getSubstitution matched before after r)
  end.

(** Values a parser can produce ([parsed?: any]). *)
#[warnings="-register-all"]
Inductive value :=
| Undefined
| Null
| Bool (b : bool)
| Number (x : float)
| Str (s : string)
| Array (l : list value)
| Object (props : list (string * value)).

(** Truthiness, as tested by [if (v)] and [v && ...]. *)
Definition truthy (v : value) : bool :=
  match v with
  | Undefined | Null => false
  | Bool b => b
  | Number x => negb (PrimFloat.is_zero x || PrimFloat.is_nan x)
  | Str s => negb (String.eqb s "")
  | Array _ | Object _ => true
  end.

(** Truthiness of an optional string property ([x.error] where
    [error?: string]): absent and [""] are falsy. *)
Definition truthy_opt_string (o : option string) : bool :=
  match o with
  | Some s => negb (String.eqb s "")
  | None => false
  end.

(** What a [throw] carries: an [Error] with its message, or anything
    else. *)
Inductive thrown :=
| Error (message : string)
| NonError.

(** [e instanceof Error ? e.message : dflt]. *)
Definition message_or (dflt : string) (e : thrown) : string :=
  match e with
  | Error m => m
  | NonError => dflt
  end.

(** The outcome of running a piece of code. *)
Inductive Completion (A : Type) :=
| Normal (a : A)
| Throw (e : thrown).
Arguments Normal {A} a.
Arguments Throw {A} e.

Definition bind {A B} (c : Completion A) (k : A -> Completion B) : Completion B :=
  match c with
  | Normal a => k a
  | Throw e => Throw e
  end.

Definition try_catch {A} (c : Completion A) (h : thrown -> Completion A) : Completion A :=
  match c with
  | Normal a => Normal a
  | Throw e => h e
  end.

End JS.

(** ** The file system ([fs/promises]) *)

Module Fs.

(** Error codes of the system calls behind [access], [stat], [readFile]
    and [readdir]. *)
Inductive Errno := ENOENT | EACCES | EPERM | ENOTDIR | EISDIR | ELOOP | ENAMETOOLONG | EMFILE | EIO.

Definition errno_code (e : Errno) : string :=
  match e with
  | ENOENT => "ENOENT" | EACCES => "EACCES" | EPERM => "EPERM"
  | ENOTDIR => "ENOTDIR" | EISDIR => "EISDIR" | ELOOP => "ELOOP"
  | ENAMETOOLONG => "ENAMETOOLONG" | EMFILE => "EMFILE" | EIO => "EIO"
  end.

Definition errno_text (e : Errno) : string :=
  match e with
  | ENOENT => "no such file or directory"
  | EACCES => "permission denied"
  | EPERM => "operation not permitted"
  | ENOTDIR => "not a directory"
  | EISDIR => "illegal operation on a directory"
  | ELOOP => "too many symbolic links encountered"
  | ENAMETOOLONG => "name too long"
  | EMFILE => "too many open files"
  | EIO => "i/o error"
  end.

(** The [Error] a rejected [fs] promise carries:
    [CODE: text, syscall 'path']. *)
Definition error_of (syscall path : string) (e : Errno) : JS.thrown :=
  JS.Error (errno_code e +:+ ": " +:+ errno_text e +:+ ", " +:+ syscall +:+ " '" +:+ path +:+ "'").

(** What [stat] reports about the kind of a path (links followed). *)
Inductive Kind := RegularFile | Directory | Other.

Record Stats := { kind : Kind }.

Definition isFile (s : Stats) : bool :=
  match kind s with RegularFile => true | _ => false end.

Definition isDirectory (s : Stats) : bool :=
  match kind s with Directory => true | _ => false end.

(** The answers of the file system, per path. The four calls are
    independent oracles: nothing is assumed on how they agree. *)
Record FileSystem := {
  sys_access : string -> option Errno;
  sys_stat : string -> Errno + Stats;
  sys_readFile : string -> Errno + string;
  sys_readdir : string -> Errno + list string
}.

Definition access (fs : FileSystem) (p : string) : JS.Completion unit :=
  match sys_access fs p with
  | None => JS.Normal tt
  | Some e => JS.Throw (error_of "access" p e)
  end.

Definition stat (fs : FileSystem) (p : string) : JS.Completion Stats :=
  match sys_stat fs p with
  | inr s => JS.Normal s
  | inl e => JS.Throw (error_of "stat" p e)
  end.

Definition readFile (fs : FileSystem) (p : string) : JS.Completion string :=
  match sys_readFile fs p with
  | inr s => JS.Normal s
  | inl e => JS.Throw (error_of "open" p e)
  end.

Definition readdir (fs : FileSystem) (p : string) : JS.Completion (list string) :=
  match sys_readdir fs p with
  | inr l => JS.Normal l
  | inl e => JS.Throw (error_of "scandir" p e)
  end.

(** A file system given by a finite tree: what each path holds. A
    [Forbidden] path lies under a directory that cannot be searched, an
    [Unreadable] one exists and can be examined but not opened. *)
Inductive Node :=
| File (content : string)
| Dir (entries : list string)
| Special
| Unreadable (k : Kind)
| Forbidden.

Definition of_tree (t : gmap string Node) : FileSystem := {|
  sys_access p :=
    match t !! p with
    | Some Forbidden => Some EACCES
    | Some _ => None
    | None => Some ENOENT
    end;
  sys_stat p :=
    match t !! p with
    | Some (File _) => inr {| kind := RegularFile |}
    | Some (Dir _) => inr {| kind := Directory |}
    | Some Special => inr {| kind := Other |}
    | Some (Unreadable k) => inr {| kind := k |}
    | Some Forbidden => inl EACCES
    | None => inl ENOENT
    end;
  sys_readFile p :=
    match t !! p with
    | Some (File c) => inr c
    | Some (Dir _) => inl EISDIR
    | Some Special => inl EIO
    | Some (Unreadable _) | Some Forbidden => inl EACCES
    | None => inl ENOENT
    end;
  sys_readdir p :=
    match t !! p with
    | Some (Dir l) => inr l
    | Some (File _) | Some Special => inl ENOTDIR
    | Some (Unreadable _) | Some Forbidden => inl EACCES
    | None => inl ENOENT
    end
|}.

End Fs.

(** ** The data model ([app-config-mapping.ts], lines 5-16) *)

Inductive LocationType := TFile | TDirectory.

Inductive Format := FJson | FPlist | FYaml | FText | FDirectory.

(** The string a [Format] is in the source. *)
Definition format_string (f : Format) : string :=
  match f with
  | FJson => "json" | FPlist => "plist" | FYaml => "yaml"
  | FText => "text" | FDirectory => "directory"
  end.

Module ConfigLocation.
Record t := mk {
  path : string;
  type : LocationType;
  description : string;
  format : Format
}.
End ConfigLocation.

(** A reference to a [ConfigLocation] object. *)
Definition ref := nat.

Record AppConfig := {
  displayName : string;
  bundleId : option string;
  configs : list ref
}.

(** ** The registry ([class AppConfigMapping]) *)

Module AppConfigMapping.

(** The state the class works on: the [ConfigLocation] objects that
    exist, and the static table [APP_CONFIGS] with the order of its keys
    ([Object.keys] lists them in insertion order). *)
Record State := {
  objects : gmap ref ConfigLocation.t;
  key_order : list string;
  APP_CONFIGS : gmap string AppConfig
}.

(** Code that reads and writes the state and may throw. *)
Definition M (A : Type) : Type := State -> JS.Completion A * State.

#[global] Instance M_ret : MRet M := fun A a st => (JS.Normal a, st).

#[global] Instance M_bind : MBind M := fun A B k m st =>
  match m st with
  | (JS.Normal a, st') => k a st'
  | (JS.Throw e, st') => (JS.Throw e, st')
  end.

Definition try_catch {A} (m : M A) (h : JS.thrown -> M A) : M A := fun st =>
  match m st with
  | (JS.Normal a, st') => (JS.Normal a, st')
  | (JS.Throw e, st') => h e st'
  end.

(** A call into the environment: the state is not involved. *)
Definition lift {A} (c : JS.Completion A) : M A := fun st => (c, st).

(** Reading the fields of the object behind a reference. *)
Definition deref (r : ref) : M ConfigLocation.t := fun st =>
  match objects st !! r with
  | Some c => (JS.Normal c, st)
  | None => (JS.Throw (JS.Error "Cannot read properties of undefined"), st)
  end.

(** An object literal: a new object at an address not in use. *)
Definition alloc (c : ConfigLocation.t) : M ref := fun st =>
  let r := fresh (dom (objects st)) in
  (JS.Normal r,
   {| objects := <[r := c]> (objects st);
      key_order := key_order st;
      APP_CONFIGS := APP_CONFIGS st |}).

Section Registry.

Context (fs : Fs.FileSystem) (homedir : string).

(** [path.replace(/^~/, homedir())] (lines 78-80). *)
Definition expandPath (path : string) : string :=
  match path with
  | String c rest =>
      if Ascii.eqb c "~" then JS.getSubstitution "~" "" rest homedir +:+ rest
      else path
  | EmptyString => path
  end.

(** [Object.keys(this.APP_CONFIGS)] (lines 82-84). *)
Definition getAvailableApps : M (list string) := fun st =>
  (JS.Normal (key_order st), st).

(** [this.APP_CONFIGS[appKey.toLowerCase()]] (lines 86-88); [None] is
    [undefined]. *)
Definition getAppConfig (appKey : string) : M (option AppConfig) := fun st =>
  (JS.Normal (APP_CONFIGS st !! JS.toLowerCase appKey), st).

(** The test of line 106-107. *)
Definition type_matches (t : LocationType) (stats : Fs.Stats) : bool :=
  match t with
  | TFile => Fs.isFile stats
  | TDirectory => Fs.isDirectory stats
  end.

(** The [for ... of] loop of lines 98-117, with the array [validConfigs]
    it pushes to. *)
Fixpoint for_each_config (cfgs : list ref) (validConfigs : list ref) : M (list ref) :=
  match cfgs with
  | [] => mret validConfigs
  | config :: rest =>
      c ← deref config;
      let expandedPath := expandPath (ConfigLocation.path c) in
      validConfigs' ←
        try_catch
          (_ ← lift (Fs.access fs expandedPath);
           stats ← lift (Fs.stat fs expandedPath);
           if type_matches (ConfigLocation.type c) stats then
             r ← alloc (ConfigLocation.mk expandedPath (ConfigLocation.type c)
                          (ConfigLocation.description c) (ConfigLocation.format c));
             mret (validConfigs ++ [r])
           else mret validConfigs)
          (fun _ => mret validConfigs);
      for_each_config rest validConfigs'
  end.

(** Lines 90-120. *)
Definition findConfigsForApp (appKey : string) : M (list ref) :=
  appConfig ← getAppConfig appKey;
  match appConfig with
  | None => mret []
  | Some appConfig => for_each_config (configs appConfig) []
  end.

(** Lines 122-130: the result object, as its entries in key order. *)
Fixpoint for_each_app (keys : list string) (result : list (string * list ref))
  : M (list (string * list ref)) :=
  match keys with
  | [] => mret result
  | appKey :: rest =>
      found ← findConfigsForApp appKey;
      for_each_app rest (result ++ [(appKey, found)])
  end.

Definition getAllAvailableConfigs : M (list (string * list ref)) :=
  keys ← getAvailableApps;
  for_each_app keys [].

(** Lines 132-137. *)
Definition addConfigLocation (appKey : string) (configLocation : ref) : M unit := fun st =>
  match APP_CONFIGS st !! JS.toLowerCase appKey with
  | Some app =>
      (JS.Normal tt,
       {| objects := objects st;
          key_order := key_order st;
          APP_CONFIGS :=
            <[JS.toLowerCase appKey :=
                {| displayName := displayName app;
                   bundleId := bundleId app;
                   configs := configs app ++ [configLocation] |}]> (APP_CONFIGS st) |})
  | None => (JS.Normal tt, st)
  end.

(** Lines 139-144. *)
Definition updateAppConfigs (appKey : string) (cfgs : list ref) : M unit := fun st =>
  match APP_CONFIGS st !! JS.toLowerCase appKey with
  | Some app =>
      (JS.Normal tt,
       {| objects := objects st;
          key_order := key_order st;
          APP_CONFIGS :=
            <[JS.toLowerCase appKey :=
                {| displayName := displayName app;
                   bundleId := bundleId app;
                   configs := cfgs |}]> (APP_CONFIGS st) |})
  | None => (JS.Normal tt, st)
  end.

(** The public operations of the class, and the state each one leaves. *)
Inductive operation :=
| GetAvailableApps
| GetAppConfig (appKey : string)
| FindConfigsForApp (appKey : string)
| GetAllAvailableConfigs
| AddConfigLocation (appKey : string) (configLocation : ref)
| UpdateAppConfigs (appKey : string) (cfgs : list ref).

Definition run (o : operation) (st : State) : State :=
  match o with
  | GetAvailableApps => (getAvailableApps st).2
  | GetAppConfig k => (getAppConfig k st).2
  | FindConfigsForApp k => (findConfigsForApp k st).2
  | GetAllAvailableConfigs => (getAllAvailableConfigs st).2
  | AddConfigLocation k r => (addConfigLocation k r st).2
  | UpdateAppConfigs k l => (updateAppConfigs k l st).2
  end.

End Registry.

(** The literal of lines 19-76: five applications with one location
    each, the location objects at addresses 0 to 4. *)
Definition initial_objects : gmap ref ConfigLocation.t :=
  list_to_map [
    (0, ConfigLocation.mk "~/.gemini/settings.json" TFile
          "Gemini settings configuration" FJson);
    (1, ConfigLocation.mk "~/Library/Application Support/Claude/claude_desktop_config.json" TFile
          "Claude Desktop configuration" FJson);
    (2, ConfigLocation.mk "~/.claude/" TDirectory
          "Claude Code configuration directory" FDirectory);
    (3, ConfigLocation.mk "~/.vscode/mcp.json" TFile
          "VS Code MCP configuration" FJson);
    (4, ConfigLocation.mk "~/.cursor/mcp.json" TFile
          "Cursor MCP configuration" FJson)
  ].

Definition initial_table : list (string * AppConfig) := [
  ("gemini", {| displayName := "Google Gemini"; bundleId := None; configs := [0] |});
  ("claude desktop", {| displayName := "Claude Desktop"; bundleId := None; configs := [1] |});
  ("claude code", {| displayName := "Claude Code"; bundleId := None; configs := [2] |});
  ("vscode", {| displayName := "Visual Studio Code";
                bundleId := Some "com.microsoft.VSCode"; configs := [3] |});
  ("cursor", {| displayName := "Cursor"; bundleId := None; configs := [4] |})
].

Definition initial : State := {|
  objects := initial_objects;
  key_order := initial_table.*1;
  APP_CONFIGS := list_to_map initial_table
|}.

(** The objects behind a list of references. *)
Definition deref_all (st : State) (l : list ref) : option (list ConfigLocation.t) :=
  mapM (fun r => objects st !! r) l.

End AppConfigMapping.

(** ** The reader ([class ConfigReader]) *)

Module ConfigContent.
Record t := mk {
  path : string;
  content : string;
  parsed : option JS.value;
  format : string;
  error : option string
}.
End ConfigContent.

Module ConfigReader.

Section Reader.

(** The environment of the reader: the file system and the parsers of the
    three structured formats, each returning a value or throwing;
    [JSON_stringify v] is [JSON.stringify(v, null, 2)]. *)
Context (fs : Fs.FileSystem).
Context (JSON_parse plist_parse yaml_load : string -> JS.Completion JS.value).
Context (JSON_stringify : JS.value -> string).

(** The [switch] of lines 42-55 on a [result] without [parsed]. *)
Definition parse_into (result : ConfigContent.t) (fmt : Format) (content : string)
  : JS.Completion ConfigContent.t :=
  let set_parsed v :=
    ConfigContent.mk (ConfigContent.path result) (ConfigContent.content result)
      (Some v) (ConfigContent.format result) (ConfigContent.error result) in
  match fmt with
  | FJson => JS.bind (JSON_parse content) (fun v => JS.Normal (set_parsed v))
  | FPlist => JS.bind (plist_parse content) (fun v => JS.Normal (set_parsed v))
  | FYaml => JS.bind (yaml_load content) (fun v => JS.Normal (set_parsed v))
  | FText | FDirectory => JS.Normal result
  end.

(** Lines 33-61. *)
Definition readFile (configLocation : ConfigLocation.t) : JS.Completion ConfigContent.t :=
  JS.bind (Fs.readFile fs (ConfigLocation.path configLocation)) (fun content =>
  let result :=
    ConfigContent.mk (ConfigLocation.path configLocation) content None
      (format_string (ConfigLocation.format configLocation)) None in
  JS.try_catch
    (parse_into result (ConfigLocation.format configLocation) content)
    (fun parseError =>
       JS.Normal
         (ConfigContent.mk (ConfigContent.path result) (ConfigContent.content result)
            (ConfigContent.parsed result) (ConfigContent.format result)
            (Some ("Parse error: " +:+ JS.message_or "Unknown parsing error" parseError))))).

(** [entries.filter(entry => !entry.startsWith('.')).sort()]. *)
Definition fileList_of (entries : list string) : list string :=
  JS.sort (List.filter (fun entry => negb (JS.startsWith entry ".")) entries).

(** Lines 63-82. *)
Definition readDirectory (configLocation : ConfigLocation.t) : JS.Completion ConfigContent.t :=
  JS.try_catch
    (JS.bind (Fs.readdir fs (ConfigLocation.path configLocation)) (fun entries =>
     let fileList := fileList_of entries in
     JS.Normal
       (ConfigContent.mk (ConfigLocation.path configLocation)
          ("Directory contents:" +:+ JS.nl +:+
             JS.join JS.nl (List.map (fun file => "  " +:+ file) fileList))
          (Some (JS.Array (List.map JS.Str fileList)))
          "directory"
          None)))
    (fun error =>
       JS.Normal
         (ConfigContent.mk (ConfigLocation.path configLocation) "" None "directory"
            (Some (JS.message_or "Unknown error reading directory" error)))).

(** Lines 16-31. *)
Definition readConfig (configLocation : ConfigLocation.t) : JS.Completion ConfigContent.t :=
  JS.try_catch
    (match ConfigLocation.type configLocation with
     | TDirectory => readDirectory configLocation
     | TFile => readFile configLocation
     end)
    (fun error =>
       JS.Normal
         (ConfigContent.mk (ConfigLocation.path configLocation) "" None
            (format_string (ConfigLocation.format configLocation))
            (Some (JS.message_or "Unknown error" error)))).

(** The callback of [lines.forEach] (lines 95-99) run over the lines from
    [index] on, with the array [matchingLines] it pushes to. *)
Fixpoint forEach_line (searchTerm : string) (lines : list string) (index : nat)
    (matchingLines : list string) : list string :=
  match lines with
  | [] => matchingLines
  | line :: rest =>
      forEach_line searchTerm rest (S index)
        (if JS.includes (JS.toLowerCase line) (JS.toLowerCase searchTerm)
         then matchingLines ++ ["Line " +:+ JS.nat_to_string (index + 1) +:+ ": " +:+ JS.trim line]
         else matchingLines)
  end.

(** Lines 84-105. *)
Definition searchInConfig (configLocation : ConfigLocation.t) (searchTerm : string)
  : JS.Completion (list string) :=
  JS.try_catch
    (JS.bind (readConfig configLocation) (fun configContent =>
     if JS.truthy_opt_string (ConfigContent.error configContent) then JS.Normal []
     else
       let lines := JS.split_lines (ConfigContent.content configContent) in
       JS.Normal (forEach_line searchTerm lines 0 [])))
    (fun error => JS.Normal []).

(** [configContent.parsed && ...]: an absent [parsed] is [undefined]. *)
Definition parsed_truthy (configContent : ConfigContent.t) : bool :=
  match ConfigContent.parsed configContent with
  | Some v => JS.truthy v
  | None => false
  end.

(** The page emoji that opens the header, U+1F4C4 in UTF-8. *)
Definition page_icon : string := "📄".

(** Lines 107-131. *)
Definition formatConfigForDisplay (configContent : ConfigContent.t) : string :=
  if JS.truthy_opt_string (ConfigContent.error configContent) then
    "Error reading " +:+ ConfigContent.path configContent +:+ ": " +:+
      default "" (ConfigContent.error configContent)
  else
    let output := page_icon +:+ " " +:+ ConfigContent.path configContent +:+ JS.nl in
    let output := output +:+ "Format: " +:+ ConfigContent.format configContent +:+ JS.nl +:+ JS.nl in
    if String.eqb (ConfigContent.format configContent) "directory" then
      output +:+ ConfigContent.content configContent
    else if parsed_truthy configContent
            && (String.eqb (ConfigContent.format configContent) "json"
                || String.eqb (ConfigContent.format configContent) "plist") then
      output +:+ JSON_stringify (default JS.Undefined (ConfigContent.parsed configContent))
    else
      let lines := JS.split_lines (ConfigContent.content configContent) in
      if (50 <? length lines)%nat then
        let output := output +:+ JS.join JS.nl (take 50 lines) in
        output +:+ JS.nl +:+ JS.nl +:+ "... (showing first 50 lines of " +:+
          JS.nat_to_string (length lines) +:+ " total lines)"
      else
        output +:+ ConfigContent.content configContent.

End Reader.

End ConfigReader.

(** ** The server ([class MacOSConfigServer], [src/index.ts])

    The request handlers of lines 35-381. The arguments of a tool call
    have the types the handler casts them to ([args as { app: string }]
    and the like), which are those of the tool's input schema. A tool
    response [{ content: [{ type: 'text', text }] }] is its [text]. The
    fields of the [ConfigLocation] objects that a resolution returns are
    read once, after the resolution: nothing writes to such an object. *)

Module Args.
Record t := mk {
  app : string;
  config_path : option string;
  search_term : string;
  path : string;
  type : LocationType;
  description : string;
  format : Format
}.
End Args.

Module Resource.
Record t := mk {
  uri : string;
  mimeType : string;
  name : string;
  description : string
}.
End Resource.

Module ResourceContents.
Record t := mk {
  uri : string;
  mimeType : string;
  text : string
}.
End ResourceContents.

(** The object pushed to [result] by [list_apps] (lines 204-210). *)
Module AppSummary.
Record t := mk {
  key : string;
  displayName : string;
  bundleId : option string;
  configCount : nat;
  hasConfigs : bool
}.
End AppSummary.

(** The object pushed to [results] by [search_config] (lines 316-320). *)
Module SearchResult.
Record t := mk {
  path : string;
  description : string;
  matches : list string
}.
End SearchResult.

Module Server.

Import AppConfigMapping.

(** [String.prototype.repeat]. *)
Fixpoint repeat_string (s : string) (count : nat) : string :=
  match count with
  | O => EmptyString
  | S n => s +:+ repeat_string s n
  end.

(** The characters that [.] does not match in a regular expression: the
    line terminators LF, CR, U+2028 and U+2029, the last two being the
    bytes E2 80 A8 and E2 80 A9 in UTF-8. *)
Fixpoint has_line_terminator (s : string) : bool :=
  match s with
  | EmptyString => false
  | String c s' =>
      Ascii.eqb c "010" || Ascii.eqb c "013" ||
      JS.startsWith s (String "226" (String "128" (String "168" EmptyString))) ||
      JS.startsWith s (String "226" (String "128" (String "169" EmptyString))) ||
      has_line_terminator s'
  end.

(** What is left of [s] after the prefix [p], if [s] starts with it. *)
Fixpoint strip_prefix (p s : string) : option string :=
  match p with
  | EmptyString => Some s
  | String a p' =>
      match s with
      | String b s' => if Ascii.eqb a b then strip_prefix p' s' else None
      | EmptyString => None
      end
  end.

(** [uri.match(/^config:\/\/(.+)$/)], as the group [match[1]] when the
    expression matches (line 56). *)
Definition match_config_uri (uri : string) : option string :=
  match strip_prefix "config://" uri with
  | Some rest =>
      if String.eqb rest "" || has_line_terminator rest then None else Some rest
  | None => None
  end.

(** [config.type] in a template literal. *)
Definition type_string (t : LocationType) : string :=
  match t with
  | TFile => "file"
  | TDirectory => "directory"
  end.

(** [appConfig?.displayName || appKey]. *)
Definition displayName_or (appConfig : option AppConfig) (appKey : string) : string :=
  match appConfig with
  | Some appConfig =>
      if JS.truthy (JS.Str (displayName appConfig)) then displayName appConfig else appKey
  | None => appKey
  end.

(** [throw new Error(message)]. *)
Definition throw {A} (message : string) : M A :=
  lift (JS.Throw (JS.Error message)).

(** The fields of the objects behind an array of references. *)
Fixpoint deref_each (l : list ref) : M (list ConfigLocation.t) :=
  match l with
  | [] => mret []
  | r :: rest =>
      c ← deref r;
      cs ← deref_each rest;
      mret (c :: cs)
  end.

(** [await Promise.all(...)] on computations that have been started in
    the order of the array: the results in that order when all of them
    return; when some throw, what one of them throws (which one is a
    matter of timing; here the first in the order of the array). *)
Fixpoint Promise_all {A} (l : list (JS.Completion A)) : JS.Completion (list A) :=
  match l with
  | [] => JS.Normal []
  | c :: rest => JS.bind c (fun a => JS.bind (Promise_all rest) (fun r => JS.Normal (a :: r)))
  end.

(** The names of the tools that the [ListTools] handler declares
    (lines 95-190). *)
Definition tools : list string :=
  ["list_apps"; "find_config"; "read_config"; "search_config"; "add_config_location"].

Section Handlers.

Context (fs : Fs.FileSystem) (homedir : string).
Context (JSON_parse plist_parse yaml_load : string -> JS.Completion JS.value).
Context (JSON_stringify : JS.value -> string).

Local Abbreviation findConfigsForApp := (findConfigsForApp fs homedir).
Local Abbreviation readConfig :=
  (ConfigReader.readConfig fs JSON_parse plist_parse yaml_load).
Local Abbreviation searchInConfig :=
  (ConfigReader.searchInConfig fs JSON_parse plist_parse yaml_load).
Local Abbreviation formatConfigForDisplay :=
  (ConfigReader.formatConfigForDisplay JSON_stringify).

(** *** [ListResources] (lines 35-52) *)

(** The loop over [Object.entries(allConfigs)], with the array
    [resources] it pushes to. *)
Fixpoint for_each_entry (entries : list (string * list ref)) (resources : list Resource.t)
  : M (list Resource.t) :=
  match entries with
  | [] => mret resources
  | entry :: rest =>
      let appKey := entry.1 in
      let configs := entry.2 in
      appConfig ← getAppConfig appKey;
      for_each_entry rest
        (match appConfig with
         | Some appConfig =>
             if (0 <? length configs)%nat then
               resources ++
                 [Resource.mk ("config://" +:+ appKey) "application/json"
                    (displayName appConfig +:+ " Configuration")
                    ("Configuration files for " +:+ displayName appConfig)]
             else resources
         | None => resources
         end)
  end.

Definition listResources : M (list Resource.t) :=
  allConfigs ← getAllAvailableConfigs fs homedir;
  for_each_entry allConfigs [].

(** *** [ReadResource] (lines 54-93) *)

(** The object literal of lines 75-81; an absent property is
    [undefined]. *)
Definition content_object (content : ConfigContent.t) : JS.value :=
  JS.Object [
    ("path", JS.Str (ConfigContent.path content));
    ("format", JS.Str (ConfigContent.format content));
    ("content", JS.Str (ConfigContent.content content));
    ("parsed", default JS.Undefined (ConfigContent.parsed content));
    ("error", from_option JS.Str JS.Undefined (ConfigContent.error content))
  ].

Definition readResource (uri : string) : M (list ResourceContents.t) :=
  match match_config_uri uri with
  | None => throw ("Invalid resource URI: " +:+ uri)
  | Some appKey =>
      configs ← findConfigsForApp appKey;
      if (length configs =? 0)%nat then
        throw ("No configurations found for app: " +:+ appKey)
      else
        locations ← deref_each configs;
        configContents ← lift (Promise_all (List.map readConfig locations));
        appConfig ← getAppConfig appKey;
        let result :=
          JS.Object [
            ("app", JS.Str (displayName_or appConfig appKey));
            ("configs", JS.Array (List.map content_object configContents))
          ] in
        mret [ResourceContents.mk uri "application/json" (JSON_stringify result)]
  end.

(** *** [CallTool] (lines 192-381) *)

(** [list_apps]: the loop of lines 200-211 and the line of the text for
    one application (line 218). *)
Fixpoint for_each_appKey (apps : list string) (result : list AppSummary.t)
  : M (list AppSummary.t) :=
  match apps with
  | [] => mret result
  | appKey :: rest =>
      appConfig ← getAppConfig appKey;
      configs ← findConfigsForApp appKey;
      for_each_appKey rest
        (result ++
           [AppSummary.mk appKey (displayName_or appConfig appKey)
              (appConfig ≫= bundleId) (length configs) (0 <? length configs)%nat])
  end.

Definition app_line (app : AppSummary.t) : string :=
  "• " +:+ AppSummary.displayName app +:+ " (" +:+ AppSummary.key app +:+ ") - " +:+
  JS.nat_to_string (AppSummary.configCount app) +:+ " configs " +:+
  (if AppSummary.hasConfigs app then "✅" else "❌").

Definition list_apps : M string :=
  apps ← getAvailableApps;
  result ← for_each_appKey apps [];
  mret ("Available applications:" +:+ JS.nl +:+ JS.nl +:+
        JS.join JS.nl (List.map app_line result)).

(** [find_config]: the callback of [configs.forEach] (lines 243-247) run
    from [index] on, with the string [result] it appends to. *)
Fixpoint forEach_config (configs : list ConfigLocation.t) (index : nat) (result : string)
  : string :=
  match configs with
  | [] => result
  | config :: rest =>
      let result :=
        result +:+ JS.nat_to_string (index + 1) +:+ ". " +:+
          ConfigLocation.description config +:+ JS.nl in
      let result := result +:+ "   Path: " +:+ ConfigLocation.path config +:+ JS.nl in
      let result :=
        result +:+ "   Type: " +:+ type_string (ConfigLocation.type config) +:+ " (" +:+
          format_string (ConfigLocation.format config) +:+ ")" +:+ JS.nl +:+ JS.nl in
      forEach_config rest (S index) result
  end.

Definition find_config (args : Args.t) : M string :=
  let app := Args.app args in
  configs ← findConfigsForApp app;
  if (length configs =? 0)%nat then
    apps ← getAvailableApps;
    mret ("No configurations found for " +:+ JS.dq +:+ app +:+ JS.dq +:+
          ". Available apps: " +:+ JS.join ", " apps)
  else
    appConfig ← getAppConfig app;
    locations ← deref_each configs;
    mret (forEach_config locations 0
            ("Configuration files for " +:+ displayName_or appConfig app +:+ ":" +:+
             JS.nl +:+ JS.nl)).

(** [read_config]: the separator of line 290 and lines 284-290. *)
Definition separator : string :=
  JS.nl +:+ JS.nl +:+ repeat_string "=" 80 +:+ JS.nl +:+ JS.nl.

Definition read_and_display (targetConfigs : list ConfigLocation.t) : M string :=
  results ← lift (Promise_all (List.map readConfig targetConfigs));
  mret (JS.join separator (List.map formatConfigForDisplay results)).

Definition read_config (args : Args.t) : M string :=
  let app := Args.app args in
  configs ← findConfigsForApp app;
  if (length configs =? 0)%nat then
    mret ("No configurations found for " +:+ JS.dq +:+ app +:+ JS.dq)
  else
    locations ← deref_each configs;
    if JS.truthy_opt_string (Args.config_path args) then
      let config_path := default "" (Args.config_path args) in
      let targetConfigs :=
        List.filter (fun c => JS.includes (ConfigLocation.path c) config_path) locations in
      if (length targetConfigs =? 0)%nat then
        mret ("No configuration found matching path " +:+ JS.dq +:+ config_path +:+ JS.dq +:+
              " for app " +:+ JS.dq +:+ app +:+ JS.dq)
      else read_and_display targetConfigs
    else read_and_display locations.

(** [search_config]: the loop of lines 313-322, and the two [forEach] of
    lines 336-343. *)
Fixpoint for_each_search (configs : list ConfigLocation.t) (search_term : string)
    (results : list SearchResult.t) : JS.Completion (list SearchResult.t) :=
  match configs with
  | [] => JS.Normal results
  | config :: rest =>
      JS.bind (searchInConfig config search_term) (fun matches =>
      for_each_search rest search_term
        (if (0 <? length matches)%nat then
           results ++
             [SearchResult.mk (ConfigLocation.path config)
                (ConfigLocation.description config) matches]
         else results))
  end.

Fixpoint forEach_match (matches : list string) (output : string) : string :=
  match matches with
  | [] => output
  | match_ :: rest => forEach_match rest (output +:+ "  " +:+ match_ +:+ JS.nl)
  end.

Fixpoint forEach_result (results : list SearchResult.t) (output : string) : string :=
  match results with
  | [] => output
  | result :: rest =>
      let output :=
        output +:+ ConfigReader.page_icon +:+ " " +:+ SearchResult.path result +:+ JS.nl in
      let output := output +:+ SearchResult.description result +:+ JS.nl in
      let output := forEach_match (SearchResult.matches result) output in
      let output := output +:+ JS.nl in
      forEach_result rest output
  end.

Definition search_config (args : Args.t) : M string :=
  let app := Args.app args in
  let search_term := Args.search_term args in
  configs ← findConfigsForApp app;
  if (length configs =? 0)%nat then
    mret ("No configurations found for " +:+ JS.dq +:+ app +:+ JS.dq)
  else
    locations ← deref_each configs;
    results ← lift (for_each_search locations search_term []);
    if (length results =? 0)%nat then
      mret ("No matches found for " +:+ JS.dq +:+ search_term +:+ JS.dq +:+ " in " +:+
            app +:+ " configurations")
    else
      mret (forEach_result results
              ("Search results for " +:+ JS.dq +:+ search_term +:+ JS.dq +:+ " in " +:+
               app +:+ " configurations:" +:+ JS.nl +:+ JS.nl)).

(** [add_config_location] (lines 350-376). *)
Definition add_config_location (args : Args.t) : M string :=
  configLocation ←
    alloc (ConfigLocation.mk (Args.path args) (Args.type args)
             (Args.description args) (Args.format args));
  _ ← addConfigLocation (Args.app args) configLocation;
  mret ("Added configuration location for " +:+ Args.app args +:+ ":" +:+ JS.nl +:+
        Args.description args +:+ JS.nl +:+ "Path: " +:+ Args.path args).

(** The [switch] of line 195. *)
Definition callTool (name : string) (args : Args.t) : M string :=
  if String.eqb name "list_apps" then list_apps
  else if String.eqb name "find_config" then find_config args
  else if String.eqb name "read_config" then read_config args
  else if String.eqb name "search_config" then search_config args
  else if String.eqb name "add_config_location" then add_config_location args
  else throw ("Unknown tool: " +:+ name).

End Handlers.

End Server.

(** ** A JSON parser and printer

    The runtime's [JSON.parse] and [JSON.stringify(v, null, 2)] are
    parameters of the reader. This module gives one instance of them, a
    recursive-descent parser and an indenting printer, used wherever the
    development runs the reader on a concrete text. Numerals are the
    integers below 2^63; a numeral with a fraction or an exponent and a
    [\u] escape are not recognised, and the printer writes a number in full
    rather than in the shortest form. *)

Module Json.

Definition is_ws (c : ascii) : bool :=
  let n := nat_of_ascii c in
  (n =? 32)%nat || (n =? 9)%nat || (n =? 10)%nat || (n =? 13)%nat.

Fixpoint skip_ws (s : string) : string :=
  match s with
  | String c s' => if is_ws c then skip_ws s' else s
  | EmptyString => s
  end.

(** [strip p s] is the rest of [s] after the prefix [p]. *)
Fixpoint strip (p s : string) : option string :=
  match p, s with
  | EmptyString, _ => Some s
  | String a p', String b s' => if Ascii.eqb a b then strip p' s' else None
  | String _ _, EmptyString => None
  end.

Definition digit_of (c : ascii) : option Z :=
  let n := nat_of_ascii c in
  if (48 <=? n)%nat && (n <=? 57)%nat then Some (Z.of_nat (n - 48)) else None.

(** The digits at the head of [s], their value on top of [acc], how many
    there were, and the rest. *)
Fixpoint digits (s : string) (acc : Z) (count : nat) : Z * nat * string :=
  match s with
  | String c s' =>
      match digit_of c with
      | Some d => digits s' (10 * acc + d)%Z (S count)
      | None => (acc, count, s)
      end
  | EmptyString => (acc, count, s)
  end.

Definition starts_numeral_tail (s : string) : bool :=
  match s with
  | String c _ => Ascii.eqb c "." || Ascii.eqb c "e" || Ascii.eqb c "E"
  | EmptyString => false
  end.

Definition float_of_Z (z : Z) : float := PrimFloat.of_uint63 (Uint63.of_Z z).

(** An integer numeral without its sign: no leading zero, below 2^63. *)
Definition unsigned_numeral (s : string) : option (float * string) :=
  let '(z, count, rest) := digits s 0 0 in
  if (count =? 0)%nat then None
  else if JS.startsWith s "0" && (1 <? count)%nat then None
  else if starts_numeral_tail rest then None
  else if (z <? 2 ^ 63)%Z then Some (float_of_Z z, rest) else None.

Definition numeral (s : string) : option (float * string) :=
  match strip "-" s with
  | Some s' =>
      match unsigned_numeral s' with
      | Some (x, rest) => Some (PrimFloat.opp x, rest)
      | None => None
      end
  | None => unsigned_numeral s
  end.

Definition unescape (c : ascii) : option ascii :=
  if Ascii.eqb c JS.DQ then Some c
  else if Ascii.eqb c "\" then Some c
  else if Ascii.eqb c "/" then Some c
  else if Ascii.eqb c "b" then Some "008"%char
  else if Ascii.eqb c "f" then Some "012"%char
  else if Ascii.eqb c "n" then Some "010"%char
  else if Ascii.eqb c "r" then Some "013"%char
  else if Ascii.eqb c "t" then Some "009"%char
  else None.

(** The characters of a string literal after its opening quote, up to the
    closing one. *)
Fixpoint string_body (s : string) : option (string * string) :=
  match s with
  | EmptyString => None
  | String c s' =>
      if Ascii.eqb c JS.DQ then Some (EmptyString, s')
      else if Ascii.eqb c "\" then
        match s' with
        | String e s'' =>
            match unescape e, string_body s'' with
            | Some c', Some (body, rest) => Some (String c' body, rest)
            | _, _ => None
            end
        | EmptyString => None
        end
      else if (nat_of_ascii c <? 32)%nat then None
      else
        match string_body s' with
        | Some (body, rest) => Some (String c body, rest)
        | None => None
        end
  end.

Section Sequences.

Context (element : string -> option (JS.value * string)).

(** The elements of an array after the first, up to the bracket. *)
Fixpoint more_elements (n : nat) (s : string) : option (list JS.value * string) :=
  match n with
  | O => None
  | S n' =>
      let s := skip_ws s in
      match strip "]" s, strip "," s with
      | Some rest, _ => Some ([], rest)
      | None, Some s1 =>
          match element s1 with
          | Some (v, s2) =>
              match more_elements n' s2 with
              | Some (vs, rest) => Some (v :: vs, rest)
              | None => None
              end
          | None => None
          end
      | None, None => None
      end
  end.

Definition member (s : string) : option (string * JS.value * string) :=
  match strip JS.dq (skip_ws s) with
  | Some s1 =>
      match string_body s1 with
      | Some (key, s2) =>
          match strip ":" (skip_ws s2) with
          | Some s3 =>
              match element s3 with
              | Some (v, rest) => Some (key, v, rest)
              | None => None
              end
          | None => None
          end
      | None => None
      end
  | None => None
  end.

(** The members of an object after the first, up to the brace. *)
Fixpoint more_members (n : nat) (s : string) : option (list (string * JS.value) * string) :=
  match n with
  | O => None
  | S n' =>
      let s := skip_ws s in
      match strip "}" s, strip "," s with
      | Some rest, _ => Some ([], rest)
      | None, Some s1 =>
          match member s1 with
          | Some (k, v, s2) =>
              match more_members n' s2 with
              | Some (kvs, rest) => Some ((k, v) :: kvs, rest)
              | None => None
              end
          | None => None
          end
      | None, None => None
      end
  end.

End Sequences.

(** A later member with the same key replaces an earlier one, in the
    earlier one's place. *)
Fixpoint set_member (k : string) (v : JS.value) (props : list (string * JS.value))
  : list (string * JS.value) :=
  match props with
  | [] => [(k, v)]
  | (k', v') :: rest =>
      if String.eqb k k' then (k', v) :: rest else (k', v') :: set_member k v rest
  end.

Definition object_of (members : list (string * JS.value)) : JS.value :=
  JS.Object (fold_left (fun props kv => set_member kv.1 kv.2 props) members []).

(** One JSON value at the head of [s]; [fuel] bounds the nesting. *)
Fixpoint value (fuel : nat) (s : string) : option (JS.value * string) :=
  match fuel with
  | O => None
  | S fuel' =>
      let s := skip_ws s in
      let n := String.length s in
      match strip "null" s, strip "true" s, strip "false" s with
      | Some rest, _, _ => Some (JS.Null, rest)
      | _, Some rest, _ => Some (JS.Bool true, rest)
      | _, _, Some rest => Some (JS.Bool false, rest)
      | None, None, None =>
        match strip JS.dq s, strip "[" s, strip "{" s with
        | Some s1, _, _ =>
            match string_body s1 with
            | Some (body, rest) => Some (JS.Str body, rest)
            | None => None
            end
        | _, Some s1, _ =>
            match strip "]" (skip_ws s1) with
            | Some rest => Some (JS.Array [], rest)
            | None =>
                match value fuel' s1 with
                | Some (v, s2) =>
                    match more_elements (value fuel') n s2 with
                    | Some (vs, rest) => Some (JS.Array (v :: vs), rest)
                    | None => None
                    end
                | None => None
                end
            end
        | _, _, Some s1 =>
            match strip "}" (skip_ws s1) with
            | Some rest => Some (JS.Object [], rest)
            | None =>
                match member (value fuel') s1 with
                | Some (k, v, s2) =>
                    match more_members (value fuel') n s2 with
                    | Some (kvs, rest) => Some (object_of ((k, v) :: kvs), rest)
                    | None => None
                    end
                | None => None
                end
            end
        | None, None, None =>
            match numeral s with
            | Some (x, rest) => Some (JS.Number x, rest)
            | None => None
            end
        end
      end
  end.

(** [JSON.parse]: one value, then nothing but white space; anything else
    throws a [SyntaxError]. *)
Definition parse (text : string) : JS.Completion JS.value :=
  match value (S (String.length text)) text with
  | Some (v, rest) =>
      match skip_ws rest with
      | EmptyString => JS.Normal v
      | _ => JS.Throw (JS.Error "Unexpected non-whitespace character after JSON")
      end
  | None => JS.Throw (JS.Error "Unexpected token in JSON")
  end.

(** *** The printer *)

Definition hex_digit (n : nat) : ascii :=
  if (n <? 10)%nat then ascii_of_nat (48 + n) else ascii_of_nat (87 + n).

Definition escape_char (c : ascii) : string :=
  let n := nat_of_ascii c in
  if Ascii.eqb c JS.DQ then "\" +:+ JS.dq
  else if Ascii.eqb c "\" then "\\"
  else if (n =? 8)%nat then "\b"
  else if (n =? 12)%nat then "\f"
  else if (n =? 10)%nat then "\n"
  else if (n =? 13)%nat then "\r"
  else if (n =? 9)%nat then "\t"
  else if (n <? 32)%nat then
    "\u00" +:+ String (hex_digit (n / 16)) (String (hex_digit (n mod 16)) EmptyString)
  else String c EmptyString.

Fixpoint escape (s : string) : string :=
  match s with
  | EmptyString => EmptyString
  | String c s' => escape_char c +:+ escape s'
  end.

Definition quote (s : string) : string := JS.dq +:+ escape s +:+ JS.dq.

Fixpoint strip_trailing_zeros (s : string) : string :=
  match s with
  | EmptyString => EmptyString
  | String c s' =>
      match strip_trailing_zeros s' with
      | EmptyString => if Ascii.eqb c "0" then EmptyString else String c EmptyString
      | t => String c t
      end
  end.

Fixpoint zeros (n : nat) : string :=
  match n with
  | O => EmptyString
  | S n' => String "0" (zeros n')
  end.

(** The decimal expansion of [m * 2^e]. *)
Definition print_finite (m : positive) (e : Z) : string :=
  if (0 <=? e)%Z then pretty (Z.pos m * 2 ^ e)%Z
  else
    let k := Z.to_nat (- e) in
    let ds := pretty (Z.pos m * 5 ^ Z.of_nat k)%Z in
    let ds := zeros (S k - String.length ds) +:+ ds in
    let int_part := String.substring 0 (String.length ds - k) ds in
    let frac_part := strip_trailing_zeros (String.substring (String.length ds - k) k ds) in
    match frac_part with
    | EmptyString => int_part
    | _ => int_part +:+ "." +:+ frac_part
    end.

Definition print_number (x : float) : string :=
  match Prim2SF x with
  | S754_zero _ => "0"
  | S754_infinity _ | S754_nan => "null"
  | S754_finite sign m e => (if sign then "-" else "") +:+ print_finite m e
  end.

(** The text of [v] at the indentation [indent]; [None] where
    [JSON.stringify] gives [undefined]. *)
Fixpoint print (indent : string) (v : JS.value) : option string :=
  let inner := indent +:+ "  " in
  match v with
  | JS.Undefined => None
  | JS.Null => Some "null"
  | JS.Bool b => Some (if b then "true" else "false")
  | JS.Number x => Some (print_number x)
  | JS.Str s => Some (quote s)
  | JS.Array l =>
      match List.map (fun v' => default "null" (print inner v')) l with
      | [] => Some "[]"
      | items =>
          Some ("[" +:+ JS.nl +:+ inner +:+ JS.join ("," +:+ JS.nl +:+ inner) items
                +:+ JS.nl +:+ indent +:+ "]")
      end
  | JS.Object props =>
      let members :=
        List.map (fun kv : string * JS.value =>
                    match kv with
                    | (k, v') =>
                        match print inner v' with
                        | Some t => Some (quote k +:+ ": " +:+ t)
                        | None => None
                        end
                    end) props in
      match omap id members with
      | [] => Some "{}"
      | items =>
          Some ("{" +:+ JS.nl +:+ inner +:+ JS.join ("," +:+ JS.nl +:+ inner) items
                +:+ JS.nl +:+ indent +:+ "}")
      end
  end.

(** [JSON.stringify(v, null, 2)] where it returns a string. *)
Definition stringify (v : JS.value) : string := default "" (print "" v).

End Json.

(** * Properties *)

(** ** Letter case *)

(** Two characters that are the same letter: equal, or the capital and
    the small form of one of the 26 letters. *)
Inductive same_letter : ascii -> ascii -> Prop :=
| same_letter_refl c : same_letter c c
| same_letter_upper_lower n :
    (n < 26)%nat -> same_letter (ascii_of_nat (65 + n)) (ascii_of_nat (97 + n))
| same_letter_lower_upper n :
    (n < 26)%nat -> same_letter (ascii_of_nat (97 + n)) (ascii_of_nat (65 + n)).

(** Two strings that differ only in letter case. *)
Inductive differ_only_in_case : string -> string -> Prop :=
| differ_empty : differ_only_in_case EmptyString EmptyString
| differ_cons a b s t :
    same_letter a b -> differ_only_in_case s t ->
    differ_only_in_case (String a s) (String b t).

(** [line] contains [term] case-insensitively: some stretch of [line]
    differs from [term] only in letter case. *)
Definition contains_ignoring_case (line term : string) : Prop :=
  exists pre mid post,
    line = pre +:+ mid +:+ post /\ differ_only_in_case mid term.

(** A string of characters of the ASCII range only. On such strings the
    models of [toLowerCase], of [trim] and of the default order of [sort]
    are the runtime's. *)
Fixpoint is_ascii (s : string) : bool :=
  match s with
  | EmptyString => true
  | String c s' => (nat_of_ascii c <? 128)%nat && is_ascii s'
  end.

Definition ascii_only (s : string) : Prop := is_ascii s = true.

(** The names in lower case under which the table can find a property
    inherited from [Object.prototype]. The first two are there from the
    start; the other names of [Object.prototype] ([toString],
    [hasOwnProperty] and so on) hold a capital letter, which no result of
    [toLowerCase] does. The third is the one name that the source can add
    to [Object.prototype]: [updateAppConfigs] with the key "__proto__"
    assigns to its [configs]. *)
Definition inherited_names : list string := ["constructor"; "__proto__"; "configs"].

(** A key on which indexing the table is a lookup among its own keys, in
    the source as in the model: it is in the ASCII range and does not, in
    lower case, name an inherited property. *)
Definition own_lookup (appKey : string) : Prop :=
  ascii_only appKey /\ JS.toLowerCase appKey ∉ inherited_names.

(** [own_lookup] of a key that is given. *)
Ltac own_lookup_of_literal :=
  split;
  [ reflexivity
  | unfold inherited_names; rewrite !not_elem_of_cons;
    repeat split;
    try (let E := fresh in intros E; vm_compute in E; discriminate);
    apply not_elem_of_nil ].

Section LetterCase.

Lemma lower_ascii_upper n :
  (n < 26)%nat -> JS.lower_ascii (ascii_of_nat (65 + n)) = ascii_of_nat (97 + n).
Proof.
  intros Hn. unfold JS.lower_ascii.
  rewrite nat_ascii_embedding by lia.
  replace (65 <=? 65 + n)%nat with true by (symmetry; apply Nat.leb_le; lia).
  replace (65 + n <=? 90)%nat with true by (symmetry; apply Nat.leb_le; lia).
  simpl. f_equal. lia.
Qed.

Lemma lower_ascii_lower n :
  (n < 26)%nat -> JS.lower_ascii (ascii_of_nat (97 + n)) = ascii_of_nat (97 + n).
Proof.
  intros Hn. unfold JS.lower_ascii.
  rewrite nat_ascii_embedding by lia.
  replace (97 + n <=? 90)%nat with false by (symmetry; apply Nat.leb_gt; lia).
  now rewrite andb_false_r.
Qed.

Lemma same_letter_lower a b : same_letter a b -> JS.lower_ascii a = JS.lower_ascii b.
Proof.
  destruct 1 as [c | n Hn | n Hn]; [reflexivity | |];
    now rewrite lower_ascii_upper, lower_ascii_lower.
Qed.

Lemma lower_same_letter a b : JS.lower_ascii a = JS.lower_ascii b -> same_letter a b.
Proof.
  unfold JS.lower_ascii.
  pose proof (nat_ascii_bounded a) as Ba. pose proof (nat_ascii_bounded b) as Bb.
  destruct ((65 <=? nat_of_ascii a)%nat && (nat_of_ascii a <=? 90)%nat) eqn:Ua;
  destruct ((65 <=? nat_of_ascii b)%nat && (nat_of_ascii b <=? 90)%nat) eqn:Ub;
    intros E.
  - apply andb_prop in Ua as [Ua1 Ua2]. apply andb_prop in Ub as [Ub1 Ub2].
    apply Nat.leb_le in Ua1, Ua2, Ub1, Ub2.
    apply (f_equal nat_of_ascii) in E. rewrite !nat_ascii_embedding in E by lia.
    assert (nat_of_ascii a = nat_of_ascii b) as E' by lia.
    apply (f_equal ascii_of_nat) in E'. rewrite !ascii_nat_embedding in E'.
    subst. constructor.
  - apply andb_prop in Ua as [Ua1 Ua2]. apply Nat.leb_le in Ua1, Ua2.
    subst b. rewrite <- (ascii_nat_embedding a) at 1.
    replace (nat_of_ascii a) with (65 + (nat_of_ascii a - 65))%nat at 1 by lia.
    replace (nat_of_ascii a + 32)%nat with (97 + (nat_of_ascii a - 65))%nat by lia.
    apply same_letter_upper_lower. lia.
  - apply andb_prop in Ub as [Ub1 Ub2]. apply Nat.leb_le in Ub1, Ub2.
    subst a. rewrite <- (ascii_nat_embedding b) at 2.
    replace (nat_of_ascii b) with (65 + (nat_of_ascii b - 65))%nat at 2 by lia.
    replace (nat_of_ascii b + 32)%nat with (97 + (nat_of_ascii b - 65))%nat by lia.
    apply same_letter_lower_upper. lia.
  - subst. constructor.
Qed.

(** Lower-casing identifies exactly the strings that differ only in
    letter case. *)
Lemma toLowerCase_eq_iff s t :
  JS.toLowerCase s = JS.toLowerCase t <-> differ_only_in_case s t.
Proof.
  split.
  - revert t. induction s as [|a s IH]; intros [|b t] E; simpl in E; try discriminate.
    + constructor.
    + injection E as E1 E2. constructor; [now apply lower_same_letter | now apply IH].
  - induction 1 as [|a b s t Hab _ IH]; simpl; [reflexivity|].
    now rewrite (same_letter_lower _ _ Hab), IH.
Qed.

Lemma lower_ascii_idem a : JS.lower_ascii (JS.lower_ascii a) = JS.lower_ascii a.
Proof.
  pose proof (nat_ascii_bounded a) as Ba.
  unfold JS.lower_ascii.
  destruct ((65 <=? nat_of_ascii a)%nat && (nat_of_ascii a <=? 90)%nat) eqn:Ua.
  - apply andb_prop in Ua as [U1 U2]. apply Nat.leb_le in U1, U2.
    rewrite nat_ascii_embedding by lia.
    replace (nat_of_ascii a + 32 <=? 90)%nat with false by (symmetry; apply Nat.leb_gt; lia).
    now rewrite andb_false_r.
  - now rewrite Ua.
Qed.

Lemma toLowerCase_idem s : JS.toLowerCase (JS.toLowerCase s) = JS.toLowerCase s.
Proof. induction s as [|a s IH]; simpl; [reflexivity | now rewrite lower_ascii_idem, IH]. Qed.

Lemma toLowerCase_app s t :
  JS.toLowerCase (s +:+ t) = JS.toLowerCase s +:+ JS.toLowerCase t.
Proof. induction s as [|a s IH]; simpl; [reflexivity | now rewrite IH]. Qed.

(** A cut of the lower-cased string is a cut of the string. *)
Lemma toLowerCase_split s u v :
  JS.toLowerCase s = u +:+ v ->
  exists s1 s2, s = s1 +:+ s2 /\ JS.toLowerCase s1 = u /\ JS.toLowerCase s2 = v.
Proof.
  revert s. induction u as [|c u IH]; intros s E.
  - exists EmptyString, s. now repeat split.
  - destruct s as [|a s]; simpl in E; [discriminate|].
    injection E as E1 E2. destruct (IH _ E2) as (s1 & s2 & -> & H1 & H2).
    exists (String a s1), s2. simpl. now rewrite E1, H1, H2.
Qed.

End LetterCase.

(** ** Prefixes and substrings *)

Section Substrings.

Lemma startsWith_iff s p : JS.startsWith s p = true <-> exists rest, s = p +:+ rest.
Proof.
  revert s. induction p as [|a p IH]; intros s; simpl.
  - split; [intros _; now exists s | reflexivity].
  - destruct s as [|b s].
    + split; [discriminate | intros [r E]; discriminate].
    + destruct (Ascii.eqb_spec a b) as [->|Hne].
      * rewrite IH. split; intros [r E]; exists r; [now rewrite E | now injection E].
      * split; [discriminate | intros [r E]; injection E as E1 E2; congruence].
Qed.

Lemma includes_iff s t :
  JS.includes s t = true <-> exists pre post, s = pre +:+ t +:+ post.
Proof.
  induction s as [|a s IH]; simpl.
  - rewrite orb_false_r, startsWith_iff. split.
    + intros [r E]. now exists EmptyString, r.
    + intros (pre & post & E). destruct pre; [now exists post | discriminate].
  - rewrite orb_true_iff, startsWith_iff, IH. split.
    + intros [[r E] | (pre & post & E)].
      * now exists EmptyString, r.
      * exists (String a pre), post. simpl. now rewrite E.
    + intros (pre & post & E). destruct pre as [|b pre].
      * left. now exists post.
      * right. injection E as E1 E2. now exists pre, post.
Qed.

(** The test of line 96 decides containment up to letter case. *)
Lemma includes_toLowerCase_iff line term :
  JS.includes (JS.toLowerCase line) (JS.toLowerCase term) = true
  <-> contains_ignoring_case line term.
Proof.
  rewrite includes_iff. split.
  - intros (u & v & E).
    destruct (toLowerCase_split _ _ _ E) as (pre & rest & -> & Hu & Hrest).
    destruct (toLowerCase_split _ _ _ Hrest) as (mid & post & -> & Hmid & Hpost).
    exists pre, mid, post. split; [reflexivity | now apply toLowerCase_eq_iff].
  - intros (pre & mid & post & -> & Hd).
    exists (JS.toLowerCase pre), (JS.toLowerCase post).
    rewrite !toLowerCase_app. now apply toLowerCase_eq_iff in Hd as ->.
Qed.

#[global] Instance contains_ignoring_case_dec line term :
  Decision (contains_ignoring_case line term).
Proof.
  destruct (JS.includes (JS.toLowerCase line) (JS.toLowerCase term)) eqn:E.
  - left. now apply includes_toLowerCase_iff.
  - right. intros H. apply includes_toLowerCase_iff in H. congruence.
Defined.

End Substrings.

(** ** Resolution of an application's locations *)

Import AppConfigMapping.

(** The kind of path a location of type [t] declares. *)
Definition declared_kind (t : LocationType) : Fs.Kind :=
  match t with
  | TFile => Fs.RegularFile
  | TDirectory => Fs.Directory
  end.

(** [p] exists on the file system [fs] as a [t]: it can be reached, it
    can be examined, and it is of the declared kind. A path that is not
    found or may not be accessed does not exist as anything. *)
Definition exists_as (fs : Fs.FileSystem) (t : LocationType) (p : string) : Prop :=
  Fs.sys_access fs p = None /\
  exists stats, Fs.sys_stat fs p = inr stats /\ Fs.kind stats = declared_kind t.

(** A location with its path expanded. *)
Definition resolved (homedir : string) (c : ConfigLocation.t) : ConfigLocation.t :=
  ConfigLocation.mk (expandPath homedir (ConfigLocation.path c))
    (ConfigLocation.type c) (ConfigLocation.description c) (ConfigLocation.format c).

(** A declared location that is there: its expanded path exists as the
    declared type. *)
Definition present (fs : Fs.FileSystem) (homedir : string) (c : ConfigLocation.t) : Prop :=
  exists_as fs (ConfigLocation.type c) (expandPath homedir (ConfigLocation.path c)).

(** An absolute path starts with a slash. *)
Definition absolute (p : string) : Prop := exists rest, p = "/" +:+ rest.

(** A string without a dollar sign, the one character that is special in
    the replacement text of [replace]. *)
Fixpoint dollar_free (s : string) : Prop :=
  match s with
  | EmptyString => True
  | String c s' => c <> "$"%char /\ dollar_free s'
  end.

(** Every reference held by the table is to an object. *)
Definition well_formed (st : State) : Prop :=
  map_Forall (fun _ app => Forall (fun r => is_Some (objects st !! r)) (configs app))
    (APP_CONFIGS st).

(** Every key of the table is in lower case. *)
Definition keys_lowercase (st : State) : Prop :=
  map_Forall (fun k _ => JS.toLowerCase k = k) (APP_CONFIGS st).

#[global] Instance Kind_eq_dec : EqDecision Fs.Kind.
Proof. solve_decision. Defined.

#[global] Instance exists_as_dec fs t p : Decision (exists_as fs t p).
Proof.
  unfold exists_as.
  destruct (Fs.sys_access fs p) as [e|].
  - right. intros [H _]. discriminate.
  - destruct (Fs.sys_stat fs p) as [e|stats].
    + right. intros [_ (s & H & _)]. discriminate.
    + destruct (decide (Fs.kind stats = declared_kind t)) as [Hk|Hk].
      * left. split; [reflexivity|]. now exists stats.
      * right. intros [_ (s & H & Hs)]. injection H as <-. contradiction.
Defined.

#[global] Instance present_dec fs homedir c : Decision (present fs homedir c).
Proof. unfold present. apply _. Defined.

Section Resolution.

Context (fs : Fs.FileSystem) (homedir : string).

Lemma getSubstitution_dollar_free matched before after repl :
  dollar_free repl -> JS.getSubstitution matched before after repl = repl.
Proof.
  induction repl as [|c r IH]; [reflexivity|]. intros [Hc Hr]. simpl.
  apply Ascii.eqb_neq in Hc. now rewrite Hc, (IH Hr).
Qed.

(** The placeholder at the head of a path becomes the home directory;
    a path without it stays as it is. *)
Lemma expandPath_placeholder rest :
  dollar_free homedir -> expandPath homedir ("~" +:+ rest) = homedir +:+ rest.
Proof.
  intros Hd. change ("~" +:+ rest) with (String "~" rest).
  unfold expandPath. rewrite Ascii.eqb_refl.
  now rewrite getSubstitution_dollar_free.
Qed.

Lemma expandPath_other path :
  JS.startsWith path "~" = false -> expandPath homedir path = path.
Proof.
  destruct path as [|c rest]; [reflexivity|].
  unfold expandPath. cbn [JS.startsWith].
  rewrite Ascii.eqb_sym. now destruct (Ascii.eqb c "~").
Qed.

Lemma expandPath_absolute path :
  absolute homedir -> dollar_free homedir ->
  (exists rest, path = "~" +:+ rest) \/ absolute path ->
  absolute (expandPath homedir path).
Proof.
  intros [h Hh] Hd [[rest ->] | [rest ->]].
  - rewrite expandPath_placeholder by assumption. rewrite Hh. now exists (h +:+ rest).
  - rewrite expandPath_other by reflexivity. now exists rest.
Qed.

Lemma type_matches_kind t stats :
  type_matches t stats = true <-> Fs.kind stats = declared_kind t.
Proof.
  destruct t, stats as [[]]; unfold type_matches, Fs.isFile, Fs.isDirectory; simpl;
    split; congruence.
Qed.

(** What one turn of the loop does to [validConfigs] and to the state:
    the body between [try] and [catch] of lines 101-116. *)
Definition loop_body (c : ConfigLocation.t) (validConfigs : list ref) : M (list ref) :=
  try_catch
    (_ ← lift (Fs.access fs (expandPath homedir (ConfigLocation.path c)));
     stats ← lift (Fs.stat fs (expandPath homedir (ConfigLocation.path c)));
     if type_matches (ConfigLocation.type c) stats then
       r ← alloc (resolved homedir c); mret (validConfigs ++ [r])
     else mret validConfigs)
    (fun _ => mret validConfigs).

Lemma loop_body_present c valid st :
  present fs homedir c ->
  loop_body c valid st =
    (JS.Normal (valid ++ [fresh (dom (objects st))]),
     {| objects := <[fresh (dom (objects st)) := resolved homedir c]> (objects st);
        key_order := key_order st;
        APP_CONFIGS := APP_CONFIGS st |}).
Proof.
  intros [Ha (stats & Hs & Hk)].
  unfold loop_body, try_catch, mbind, M_bind, lift, Fs.access, Fs.stat.
  rewrite Ha, Hs. apply type_matches_kind in Hk. rewrite Hk. reflexivity.
Qed.

Lemma loop_body_absent c valid st :
  ~ present fs homedir c -> loop_body c valid st = (JS.Normal valid, st).
Proof.
  intros Hn.
  unfold loop_body, try_catch, mbind, M_bind, lift, Fs.access, Fs.stat.
  destruct (Fs.sys_access fs _) as [e|] eqn:Ha; [reflexivity|].
  destruct (Fs.sys_stat fs _) as [e|stats] eqn:Hs; [reflexivity|].
  destruct (type_matches _ stats) eqn:Hk; [|reflexivity].
  exfalso. apply Hn. split; [exact Ha|]. exists stats. split; [exact Hs|].
  now apply type_matches_kind.
Qed.

Lemma for_each_config_cons config rest valid st c :
  objects st !! config = Some c ->
  for_each_config fs homedir (config :: rest) valid st =
    match loop_body c valid st with
    | (JS.Normal valid', st') => for_each_config fs homedir rest valid' st'
    | (JS.Throw e, st') => (JS.Throw e, st')
    end.
Proof.
  intros Hc. simpl. unfold mbind at 1, M_bind at 1, deref. rewrite Hc.
  reflexivity.
Qed.

Lemma for_each_config_dangling config rest valid st :
  objects st !! config = None ->
  for_each_config fs homedir (config :: rest) valid st =
    (JS.Throw (JS.Error "Cannot read properties of undefined"), st).
Proof.
  intros Hc. simpl. unfold mbind at 1, M_bind at 1, deref. rewrite Hc.
  reflexivity.
Qed.

(** The loop, when every reference it visits is to an object: it ends
    normally, pushes one new object per location that is present, in
    order, and leaves everything that was in the state as it was. *)
Lemma for_each_config_spec cfgs : forall valid st declared,
  deref_all st cfgs = Some declared ->
  exists found st',
    for_each_config fs homedir cfgs valid st = (JS.Normal (valid ++ found), st') /\
    deref_all st' found = Some (resolved homedir <$> filter (present fs homedir) declared) /\
    objects st ⊆ objects st' /\
    Forall (fun r => objects st !! r = None) found /\
    key_order st' = key_order st /\
    APP_CONFIGS st' = APP_CONFIGS st.
Proof.
  unfold deref_all.
  induction cfgs as [|config rest IH]; intros valid st declared Hd.
  - injection Hd as <-. exists [], st. rewrite app_nil_r. repeat split; auto.
  - rewrite mapM_Some in Hd. apply Forall2_cons_inv_l in Hd as (c & declared' & Hc & Hrest & ->).
    rewrite (for_each_config_cons _ _ _ _ _ Hc).
    destruct (decide (present fs homedir c)) as [Hp|Hn].
    + rewrite (loop_body_present _ _ _ Hp).
      set (r := fresh (dom (objects st))).
      assert (objects st !! r = None) as Hr
        by (apply not_elem_of_dom, is_fresh).
      set (st1 := {| objects := <[r := resolved homedir c]> (objects st);
                     key_order := key_order st; APP_CONFIGS := APP_CONFIGS st |}).
      assert (objects st ⊆ objects st1) as Hsub by (now apply insert_subseteq).
      destruct (IH (valid ++ [r]) st1 declared') as (found & st' & Hrun & Hder & Hsub' & Hnew & Hk & Ht).
      { apply mapM_Some. eapply Forall2_impl; [exact Hrest|].
        intros x y Hxy. simpl in Hxy. eapply lookup_weaken; [exact Hxy | exact Hsub]. }
      exists (r :: found), st'. rewrite Hrun, <- app_assoc.
      change ([r] ++ found) with (r :: found).
      repeat split; auto.
      * rewrite filter_cons_True by assumption. rewrite fmap_cons.
        apply mapM_Some. constructor.
        -- eapply lookup_weaken; [|exact Hsub']. apply lookup_insert_eq.
        -- now apply mapM_Some.
      * etrans; eauto.
      * constructor; [exact Hr|].
        eapply Forall_impl; [exact Hnew|]. intros x Hx.
        destruct (objects st !! x) eqn:E; [|reflexivity].
        eapply lookup_weaken in E; [|exact Hsub]. congruence.
    + rewrite (loop_body_absent _ _ _ Hn).
      destruct (IH valid st declared') as (found & st' & Hrun & Hder & Hsub' & Hnew & Hk & Ht).
      { now apply mapM_Some. }
      exists found, st'. rewrite Hrun. repeat split; auto.
      now rewrite filter_cons_False by assumption.
Qed.

(** Whatever the references are, the loop changes no object that exists
    and does not touch the table. *)
Lemma for_each_config_frame cfgs : forall valid st,
  objects st ⊆ objects (for_each_config fs homedir cfgs valid st).2 /\
  key_order (for_each_config fs homedir cfgs valid st).2 = key_order st /\
  APP_CONFIGS (for_each_config fs homedir cfgs valid st).2 = APP_CONFIGS st.
Proof.
  induction cfgs as [|config rest IH]; intros valid st; [now simpl|].
  destruct (objects st !! config) as [c|] eqn:Hc.
  - rewrite (for_each_config_cons _ _ _ _ _ Hc).
    destruct (decide (present fs homedir c)) as [Hp|Hn].
    + rewrite (loop_body_present _ _ _ Hp).
      match goal with |- context [for_each_config _ _ rest ?v ?s] =>
        destruct (IH v s) as (H1 & H2 & H3) end.
      simpl in *. repeat split; auto.
      etrans; [|exact H1]. apply insert_subseteq, not_elem_of_dom, is_fresh.
    + rewrite (loop_body_absent _ _ _ Hn). apply IH.
  - rewrite (for_each_config_dangling _ _ _ _ Hc). now simpl.
Qed.

End Resolution.

(** ** The registry *)

Section RegistryFacts.

Context (fs : Fs.FileSystem) (homedir : string).

Lemma findConfigsForApp_unfold appKey st :
  findConfigsForApp fs homedir appKey st =
    match APP_CONFIGS st !! JS.toLowerCase appKey with
    | Some app => for_each_config fs homedir (configs app) [] st
    | None => (JS.Normal [], st)
    end.
Proof.
  unfold findConfigsForApp, mbind, M_bind, getAppConfig.
  now destruct (APP_CONFIGS st !! JS.toLowerCase appKey).
Qed.

Lemma well_formed_deref st k app :
  well_formed st -> APP_CONFIGS st !! k = Some app ->
  exists declared, deref_all st (configs app) = Some declared.
Proof.
  intros Hwf Hk. specialize (Hwf k app Hk). simpl in Hwf.
  unfold deref_all. induction (configs app) as [|r l IH].
  - now exists [].
  - apply Forall_cons in Hwf as [[c Hc] Hl]. destruct (IH Hl) as [d Hd].
    exists (c :: d). apply mapM_Some. constructor; [exact Hc | now apply mapM_Some].
Qed.

(** A path whose check fails, at [access] or at [stat], is not present. *)
Lemma check_fails_not_present c :
  (is_Some (Fs.sys_access fs (expandPath homedir (ConfigLocation.path c))) \/
   exists e, Fs.sys_stat fs (expandPath homedir (ConfigLocation.path c)) = inl e) ->
  ~ present fs homedir c.
Proof.
  intros [[e He] | [e He]] [Ha (stats & Hs & _)]; congruence.
Qed.

(** C1, as the code has it. For every application key on which the
    table is looked up among its own keys, [findConfigsForApp] ends
    normally. For such a key that [getAppConfig] does not find it returns
    the empty array. For a key it finds, the objects it returns are, in
    declaration order, the declared locations whose expanded path exists
    and is of the declared type, each with its path expanded and its other
    fields as declared; a location whose check fails with a file-system
    error is left out, and the others are not affected. The expanded path
    is the declared one with the placeholder at its head replaced by the
    home directory (free of dollar signs): the home directory followed by
    what follows the placeholder, an absolute path when the declared path
    starts with the placeholder or is absolute itself (the home directory
    being absolute), and the declared path as it is when it does not
    start with the placeholder. *)
Theorem findConfigsForApp_returns_present_locations st appKey :
  well_formed st ->
  own_lookup appKey ->
  (exists found st', findConfigsForApp fs homedir appKey st = (JS.Normal found, st')) /\
  (getAppConfig appKey st = (JS.Normal None, st) ->
     findConfigsForApp fs homedir appKey st = (JS.Normal [], st)) /\
  (forall app, getAppConfig appKey st = (JS.Normal (Some app), st) ->
     exists declared found st',
       deref_all st (configs app) = Some declared /\
       findConfigsForApp fs homedir appKey st = (JS.Normal found, st') /\
       deref_all st' found =
         Some (resolved homedir <$> filter (present fs homedir) declared)) /\
  (forall c,
     is_Some (Fs.sys_access fs (expandPath homedir (ConfigLocation.path c))) \/
     (exists e, Fs.sys_stat fs (expandPath homedir (ConfigLocation.path c)) = inl e) ->
     forall before after,
       filter (present fs homedir) (before ++ c :: after) =
       filter (present fs homedir) before ++ filter (present fs homedir) after) /\
  (forall c,
     (present fs homedir c <->
      exists_as fs (ConfigLocation.type c) (ConfigLocation.path (resolved homedir c))) /\
     ConfigLocation.type (resolved homedir c) = ConfigLocation.type c /\
     ConfigLocation.description (resolved homedir c) = ConfigLocation.description c /\
     ConfigLocation.format (resolved homedir c) = ConfigLocation.format c /\
     (dollar_free homedir ->
      forall rest, ConfigLocation.path c = "~" +:+ rest ->
      ConfigLocation.path (resolved homedir c) = homedir +:+ rest) /\
     (absolute homedir -> dollar_free homedir ->
      (exists rest, ConfigLocation.path c = "~" +:+ rest) \/ absolute (ConfigLocation.path c) ->
      absolute (ConfigLocation.path (resolved homedir c))) /\
     (JS.startsWith (ConfigLocation.path c) "~" = false ->
      ConfigLocation.path (resolved homedir c) = ConfigLocation.path c)).
Proof.
  intros Hwf _.
  assert (forall c,
     (present fs homedir c <->
      exists_as fs (ConfigLocation.type c) (ConfigLocation.path (resolved homedir c))) /\
     ConfigLocation.type (resolved homedir c) = ConfigLocation.type c /\
     ConfigLocation.description (resolved homedir c) = ConfigLocation.description c /\
     ConfigLocation.format (resolved homedir c) = ConfigLocation.format c /\
     (dollar_free homedir ->
      forall rest, ConfigLocation.path c = "~" +:+ rest ->
      ConfigLocation.path (resolved homedir c) = homedir +:+ rest) /\
     (absolute homedir -> dollar_free homedir ->
      (exists rest, ConfigLocation.path c = "~" +:+ rest) \/ absolute (ConfigLocation.path c) ->
      absolute (ConfigLocation.path (resolved homedir c))) /\
     (JS.startsWith (ConfigLocation.path c) "~" = false ->
      ConfigLocation.path (resolved homedir c) = ConfigLocation.path c)) as Hpath.
  { intros c. split; [reflexivity|]. do 3 (split; [reflexivity|]). split; [|split].
    - intros Hd rest E. cbn [resolved ConfigLocation.path]. rewrite E.
      now apply expandPath_placeholder.
    - apply expandPath_absolute.
    - apply expandPath_other. }
  assert (forall c,
     is_Some (Fs.sys_access fs (expandPath homedir (ConfigLocation.path c))) \/
     (exists e, Fs.sys_stat fs (expandPath homedir (ConfigLocation.path c)) = inl e) ->
     forall before after,
       filter (present fs homedir) (before ++ c :: after) =
       filter (present fs homedir) before ++ filter (present fs homedir) after) as Hskip.
  { intros c Hc before after. rewrite filter_app, filter_cons_False; [reflexivity|].
    now apply check_fails_not_present. }
  rewrite findConfigsForApp_unfold. unfold getAppConfig.
  destruct (APP_CONFIGS st !! JS.toLowerCase appKey) as [app|] eqn:Hk.
  - destruct (well_formed_deref _ _ _ Hwf Hk) as [declared Hd].
    destruct (for_each_config_spec fs homedir _ [] _ _ Hd)
      as (found & st' & Hrun & Hder & _).
    simpl in Hrun. split; [|split; [|split; [|split]]].
    + now exists found, st'.
    + intros E. discriminate.
    + intros app' E. injection E as <-. now exists declared, found, st'.
    + exact Hskip.
    + exact Hpath.
  - split; [|split; [|split; [|split]]].
    + now exists [], st.
    + reflexivity.
    + intros app E. discriminate.
    + exact Hskip.
    + exact Hpath.
Qed.

(** [getAppConfig] up to letter case. It leaves the state alone; two
    keys that differ only in letter case get the same answer; a key of
    [own_lookup] that differs from every key of the table by more than
    letter case gets [undefined]; and, the keys of the table being in
    lower case, a key that differs from one of them only in letter case
    gets that entry. What it returns for a key that names an inherited
    property is not in the model: the source returns the inherited
    object there, not [undefined]. *)
Lemma getAppConfig_case_insensitive st :
  (forall k, exists r, getAppConfig k st = (JS.Normal r, st)) /\
  (forall k1 k2, differ_only_in_case k1 k2 -> getAppConfig k1 st = getAppConfig k2 st) /\
  (forall k,
     own_lookup k ->
     (forall k', is_Some (APP_CONFIGS st !! k') -> ~ differ_only_in_case k k') ->
     getAppConfig k st = (JS.Normal None, st)) /\
  (keys_lowercase st ->
   forall k k' app,
     APP_CONFIGS st !! k' = Some app -> differ_only_in_case k k' ->
     getAppConfig k st = (JS.Normal (Some app), st)).
Proof.
  unfold getAppConfig. repeat split.
  - intros k. now eexists.
  - intros k1 k2 Hd. apply toLowerCase_eq_iff in Hd. now rewrite Hd.
  - intros k _ Hno.
    destruct (APP_CONFIGS st !! JS.toLowerCase k) as [app|] eqn:E; [|reflexivity].
    exfalso. apply (Hno (JS.toLowerCase k)); [now rewrite E|].
    apply toLowerCase_eq_iff. symmetry. apply toLowerCase_idem.
  - intros Hlow k k' app Hk' Hd.
    apply toLowerCase_eq_iff in Hd. rewrite Hd, (Hlow k' app Hk'). now rewrite Hk'.
Qed.

End RegistryFacts.

(** The built-in table is well formed, and its keys are in lower case. *)
Lemma initial_well_formed : well_formed initial.
Proof. unfold well_formed. apply (bool_decide_unpack _). vm_compute. exact I. Qed.

Lemma initial_keys_lowercase : keys_lowercase initial.
Proof. unfold keys_lowercase. apply (bool_decide_unpack _). vm_compute. exact I. Qed.

(** ** What the operations change *)

(** The locations of the entry under [k], if there is one. *)
Definition locations_of (st : State) (k : string) : option (list ref) :=
  configs <$> APP_CONFIGS st !! k.

Section Frame.

Context (fs : Fs.FileSystem) (homedir : string).

Lemma findConfigsForApp_frame appKey st :
  objects st ⊆ objects (findConfigsForApp fs homedir appKey st).2 /\
  key_order (findConfigsForApp fs homedir appKey st).2 = key_order st /\
  APP_CONFIGS (findConfigsForApp fs homedir appKey st).2 = APP_CONFIGS st.
Proof.
  rewrite findConfigsForApp_unfold.
  destruct (APP_CONFIGS st !! JS.toLowerCase appKey); [apply for_each_config_frame | now simpl].
Qed.

Lemma for_each_app_cons k keys result st :
  for_each_app fs homedir (k :: keys) result st =
    match findConfigsForApp fs homedir k st with
    | (JS.Normal found, st1) => for_each_app fs homedir keys (result ++ [(k, found)]) st1
    | (JS.Throw e, st1) => (JS.Throw e, st1)
    end.
Proof. reflexivity. Qed.

Lemma for_each_app_frame keys : forall result st,
  objects st ⊆ objects (for_each_app fs homedir keys result st).2 /\
  key_order (for_each_app fs homedir keys result st).2 = key_order st /\
  APP_CONFIGS (for_each_app fs homedir keys result st).2 = APP_CONFIGS st.
Proof.
  induction keys as [|k keys IH]; intros result st; [now simpl|].
  rewrite for_each_app_cons.
  destruct (findConfigsForApp_frame k st) as (H1 & H2 & H3).
  destruct (findConfigsForApp fs homedir k st) as [[found|e] st1]; simpl in *.
  - destruct (IH (result ++ [(k, found)]) st1) as (I1 & I2 & I3).
    repeat split; [etrans; eauto | congruence | congruence].
  - now repeat split.
Qed.

(** Only [addConfigLocation] and [updateAppConfigs] write to the table,
    and no operation writes to an object. *)
Lemma run_frame op st :
  objects st ⊆ objects (run fs homedir op st) /\
  key_order (run fs homedir op st) = key_order st /\
  match op with
  | AddConfigLocation _ _ | UpdateAppConfigs _ _ => True
  | _ => APP_CONFIGS (run fs homedir op st) = APP_CONFIGS st
  end.
Proof.
  destruct op as [| k | k | | k r | k l]; simpl.
  - now repeat split.
  - now repeat split.
  - apply findConfigsForApp_frame.
  - unfold getAllAvailableConfigs, mbind, M_bind, getAvailableApps.
    apply for_each_app_frame.
  - unfold addConfigLocation. now destruct (APP_CONFIGS st !! JS.toLowerCase k).
  - unfold updateAppConfigs. now destruct (APP_CONFIGS st !! JS.toLowerCase k).
Qed.

(** Writing a new list into an entry that exists: what changes and what
    does not. *)
Lemma write_entry st k app cfgs :
  APP_CONFIGS st !! k = Some app ->
  let st' :=
    {| objects := objects st; key_order := key_order st;
       APP_CONFIGS :=
         <[k := {| displayName := displayName app; bundleId := bundleId app;
                   configs := cfgs |}]> (APP_CONFIGS st) |} in
  dom (APP_CONFIGS st') = dom (APP_CONFIGS st) /\
  (forall k', displayName <$> APP_CONFIGS st' !! k' = displayName <$> APP_CONFIGS st !! k') /\
  (forall k', bundleId <$> APP_CONFIGS st' !! k' = bundleId <$> APP_CONFIGS st !! k') /\
  (forall k', locations_of st' k' =
              if decide (k' = k) then Some cfgs else locations_of st k').
Proof.
  intros E st'. subst st'. unfold locations_of. cbn [APP_CONFIGS].
  split.
  { rewrite dom_insert_L. apply subseteq_union_1_L, singleton_subseteq_l.
    now apply elem_of_dom_2 in E. }
  repeat split; intros k'; rewrite lookup_insert;
    destruct (decide (k = k')) as [Heq|Hne]; destruct (decide (k' = k)) as [Heq'|Hne'];
    subst; try congruence; now rewrite ?E.
Qed.

(** The states that additions and resolutions lead to from the built-in
    table: those the request handlers bring about, which never call
    [updateAppConfigs]. In such a state every entry has an array of its
    own. *)
Inductive grown : State -> Prop :=
| grown_initial : grown initial
| grown_alloc c st : grown st -> grown (alloc c st).2
| grown_resolve appKey st : grown st -> grown (run fs homedir (FindConfigsForApp appKey) st)
| grown_resolve_all st : grown st -> grown (run fs homedir GetAllAvailableConfigs st)
| grown_add appKey r st : grown st -> grown (run fs homedir (AddConfigLocation appKey r) st).

(** C3, as the code has it. The table has two writers. No operation
    changes the set of keys, their order, the name or the bundle of an
    entry. For a key on which the table is looked up among its own keys:
    [addConfigLocation] puts one reference at the end of the entry's
    list, and in a state where every entry has an array of its own the
    lists of the other entries stay; [updateAppConfigs] puts a whole new
    list in place of the old one and the lists of the other entries stay;
    and both do nothing when the key has no entry. No other operation
    changes the table. *)
Theorem table_written_by_append_and_replace op st :
  dom (APP_CONFIGS (run fs homedir op st)) = dom (APP_CONFIGS st) /\
  key_order (run fs homedir op st) = key_order st /\
  (forall k, displayName <$> APP_CONFIGS (run fs homedir op st) !! k
             = displayName <$> APP_CONFIGS st !! k) /\
  (forall k, bundleId <$> APP_CONFIGS (run fs homedir op st) !! k
             = bundleId <$> APP_CONFIGS st !! k) /\
  match op with
  | AddConfigLocation appKey configLocation =>
      own_lookup appKey ->
      locations_of (run fs homedir op st) (JS.toLowerCase appKey) =
        (fun l => l ++ [configLocation]) <$> locations_of st (JS.toLowerCase appKey) /\
      (grown st ->
       forall k, k <> JS.toLowerCase appKey ->
                 locations_of (run fs homedir op st) k = locations_of st k) /\
      (getAppConfig appKey st = (JS.Normal None, st) -> run fs homedir op st = st)
  | UpdateAppConfigs appKey cfgs =>
      own_lookup appKey ->
      (forall k, locations_of (run fs homedir op st) k =
                 if decide (k = JS.toLowerCase appKey)
                 then (fun _ => cfgs) <$> locations_of st k
                 else locations_of st k) /\
      (getAppConfig appKey st = (JS.Normal None, st) -> run fs homedir op st = st)
  | _ => APP_CONFIGS (run fs homedir op st) = APP_CONFIGS st
  end.
Proof.
  destruct (run_frame op st) as (_ & Hkeys & Htable).
  destruct op as [| k | k | | k r | k l];
    try (rewrite Htable; now repeat split).
  - cbn [run]. unfold addConfigLocation, getAppConfig.
    destruct (APP_CONFIGS st !! JS.toLowerCase k) as [app|] eqn:E; cbn [snd].
    + destruct (write_entry st _ _ (configs app ++ [r]) E) as (Hd & Hn & Hb & Hl).
      split; [exact Hd|]. split; [reflexivity|]. split; [exact Hn|]. split; [exact Hb|].
      intros _. split; [|split; [|discriminate]].
      * rewrite Hl, decide_True by reflexivity. unfold locations_of. now rewrite E.
      * intros _ k' Hk'. rewrite Hl. now rewrite decide_False.
    + do 4 (split; [reflexivity|]). intros _. split; [|split; [|reflexivity]].
      * unfold locations_of. now rewrite E.
      * reflexivity.
  - cbn [run]. unfold updateAppConfigs, getAppConfig.
    destruct (APP_CONFIGS st !! JS.toLowerCase k) as [app|] eqn:E; cbn [snd].
    + destruct (write_entry st _ _ l E) as (Hd & Hn & Hb & Hl).
      split; [exact Hd|]. split; [reflexivity|]. split; [exact Hn|]. split; [exact Hb|].
      intros _. split; [|discriminate].
      intros k'. rewrite Hl. unfold locations_of.
      case_decide; [subst k'; now rewrite E | reflexivity].
    + do 4 (split; [reflexivity|]). intros _. split; [|reflexivity].
      intros k'. unfold locations_of.
      case_decide; [subst k'; now rewrite E | reflexivity].
Qed.

(** C4, as the code has it. Resolution does not write to the stored
    location: it makes a new object, at a reference not in use, that
    carries the expanded path and the other fields of the stored one. And
    no operation of the class writes to an object that exists, stored or
    resolved: all its fields stay as they are. *)
Theorem resolution_copies_and_objects_are_immutable st :
  (forall op r c, objects st !! r = Some c ->
                  objects (run fs homedir op st) !! r = Some c) /\
  (well_formed st ->
   forall appKey app, getAppConfig appKey st = (JS.Normal (Some app), st) ->
     exists declared found st',
       findConfigsForApp fs homedir appKey st = (JS.Normal found, st') /\
       deref_all st (configs app) = Some declared /\
       deref_all st' (configs app) = Some declared /\
       Forall (fun r => objects st !! r = None) found /\
       deref_all st' found =
         Some (resolved homedir <$> filter (present fs homedir) declared)).
Proof.
  split.
  - intros op r c Hc. destruct (run_frame op st) as (Hsub & _).
    eapply lookup_weaken; eauto.
  - intros Hwf appKey app Hk. unfold getAppConfig in Hk.
    injection Hk as Hk.
    destruct (well_formed_deref _ _ _ Hwf Hk) as [declared Hd].
    destruct (for_each_config_spec fs homedir _ [] _ _ Hd)
      as (found & st' & Hrun & Hder & Hsub & Hnew & _).
    exists declared, found, st'. rewrite findConfigsForApp_unfold, Hk.
    repeat split; auto.
    unfold deref_all in *. apply mapM_Some. apply mapM_Some in Hd.
    eapply Forall2_impl; [exact Hd|]. intros x y Hxy. simpl in Hxy.
    eapply lookup_weaken; eauto.
Qed.

(** *** The states the class can be in *)

(** The references an operation is given are to objects. *)
Definition refs_exist (op : operation) (st : State) : Prop :=
  match op with
  | AddConfigLocation _ r => is_Some (objects st !! r)
  | UpdateAppConfigs _ l => Forall (fun r => is_Some (objects st !! r)) l
  | _ => True
  end.

(** From the built-in table, by operations of the class and by object
    literals of its callers. *)
Inductive reachable : State -> Prop :=
| reachable_initial : reachable initial
| reachable_run op st : reachable st -> refs_exist op st -> reachable (run fs homedir op st)
| reachable_alloc c st : reachable st -> reachable (alloc c st).2.

Lemma well_formed_weaken st st' :
  objects st ⊆ objects st' -> APP_CONFIGS st' = APP_CONFIGS st ->
  well_formed st -> well_formed st'.
Proof.
  intros Hsub Ht Hwf k app Hk. rewrite Ht in Hk. specialize (Hwf k app Hk). simpl in *.
  eapply Forall_impl; [exact Hwf|]. intros r [c Hc]. exists c.
  eapply lookup_weaken; eauto.
Qed.

Lemma well_formed_write st k app cfgs :
  well_formed st -> Forall (fun r => is_Some (objects st !! r)) cfgs ->
  well_formed
    {| objects := objects st; key_order := key_order st;
       APP_CONFIGS :=
         <[k := {| displayName := displayName app; bundleId := bundleId app;
                   configs := cfgs |}]> (APP_CONFIGS st) |}.
Proof.
  intros Hwf Hl k' app' Hk'. cbn [APP_CONFIGS objects] in *.
  rewrite lookup_insert in Hk'. destruct (decide (k = k')) as [_|_].
  - injection Hk' as <-. exact Hl.
  - exact (Hwf k' app' Hk').
Qed.

Lemma run_well_formed op st :
  well_formed st -> refs_exist op st -> well_formed (run fs homedir op st).
Proof.
  intros Hwf Hrefs. destruct (run_frame op st) as (Hsub & _ & Htable).
  destruct op as [| k | k | | k r | k l];
    try (now apply (well_formed_weaken st)).
  - cbn [run]. unfold addConfigLocation.
    destruct (APP_CONFIGS st !! JS.toLowerCase k) as [app|] eqn:E; [|exact Hwf].
    apply well_formed_write; [exact Hwf|]. apply Forall_app. split.
    + exact (Hwf _ _ E).
    + now repeat constructor.
  - cbn [run]. unfold updateAppConfigs.
    destruct (APP_CONFIGS st !! JS.toLowerCase k) as [app|] eqn:E; [|exact Hwf].
    now apply well_formed_write.
Qed.

Lemma run_dom op st :
  dom (APP_CONFIGS (run fs homedir op st)) = dom (APP_CONFIGS st).
Proof.
  destruct (run_frame op st) as (_ & _ & Htable).
  destruct op as [| k | k | | k r | k l]; try (now rewrite Htable).
  - cbn [run]. unfold addConfigLocation.
    destruct (APP_CONFIGS st !! JS.toLowerCase k) as [app|] eqn:E; [|reflexivity].
    now destruct (write_entry st _ _ (configs app ++ [r]) E) as (Hd & _).
  - cbn [run]. unfold updateAppConfigs.
    destruct (APP_CONFIGS st !! JS.toLowerCase k) as [app|] eqn:E; [|reflexivity].
    now destruct (write_entry st _ _ l E) as (Hd & _).
Qed.

(** In every state the class can be in, the table holds references to
    objects only, under the five built-in keys, which are in lower case. *)
Lemma reachable_invariant st :
  reachable st ->
  well_formed st /\ keys_lowercase st /\
  dom (APP_CONFIGS st) = dom (APP_CONFIGS initial).
Proof.
  assert (forall s, dom (APP_CONFIGS s) = dom (APP_CONFIGS initial) -> keys_lowercase s)
    as Hlower.
  { intros s Hd k x Hk. simpl.
    assert (k ∈ dom (APP_CONFIGS initial)) as Hin
      by (rewrite <- Hd; now apply elem_of_dom_2 in Hk).
    apply elem_of_dom in Hin as [app Happ].
    exact (initial_keys_lowercase k app Happ). }
  induction 1 as [|op st Hr (Hwf & _ & Hd) Hrefs | c st Hr (Hwf & _ & Hd)].
  - split; [exact initial_well_formed | split; [apply Hlower|]; reflexivity].
  - assert (dom (APP_CONFIGS (run fs homedir op st)) = dom (APP_CONFIGS initial)) as Hd'
      by (now rewrite run_dom).
    split; [now apply run_well_formed | split; [now apply Hlower | exact Hd']].
  - split; [|split; [now apply Hlower | exact Hd]].
    apply (well_formed_weaken st); [|reflexivity|exact Hwf].
    apply insert_subseteq, not_elem_of_dom, is_fresh.
Qed.

End Frame.

(** ** The registry on a concrete home directory *)

(** A home directory in which Cursor's file and Claude Code's directory
    are there, VS Code's path is a directory where a file is declared, and
    Gemini's lies under a directory that may not be searched. *)
Definition home : string := "/home/u".

Definition home_tree : gmap string Fs.Node :=
  list_to_map [
    ("/home/u/.cursor/mcp.json", Fs.File (JS.text "{'mcpServers': {}}"));
    ("/home/u/.claude/", Fs.Dir ["settings.json"; ".credentials.json"; "projects"]);
    ("/home/u/.vscode/mcp.json", Fs.Dir []);
    ("/home/u/.gemini/settings.json", Fs.Forbidden)
  ].

Definition home_fs : Fs.FileSystem := Fs.of_tree home_tree.

Section OnTheBuiltInTable.

Example resolve_cursor :
  findConfigsForApp home_fs home "Cursor" initial =
    (JS.Normal [5],
     {| objects :=
          <[5 := ConfigLocation.mk "/home/u/.cursor/mcp.json" TFile
                   "Cursor MCP configuration" FJson]> initial_objects;
        key_order := key_order initial;
        APP_CONFIGS := APP_CONFIGS initial |}).
Proof. vm_compute. reflexivity. Qed.

Example resolve_wrong_kind : (findConfigsForApp home_fs home "vscode" initial).1 = JS.Normal [].
Proof. vm_compute. reflexivity. Qed.

Example resolve_forbidden : (findConfigsForApp home_fs home "gemini" initial).1 = JS.Normal [].
Proof. vm_compute. reflexivity. Qed.

Example resolve_missing :
  (findConfigsForApp home_fs home "claude desktop" initial).1 = JS.Normal [].
Proof. vm_compute. reflexivity. Qed.

Example resolve_unknown : (findConfigsForApp home_fs home "emacs" initial).1 = JS.Normal [].
Proof. vm_compute. reflexivity. Qed.

Lemma findConfigsForApp_returns_present_locations_witness :
  (exists found st',
     findConfigsForApp home_fs home "Cursor" initial = (JS.Normal found, st') /\
     deref_all st' found =
       Some [ConfigLocation.mk "/home/u/.cursor/mcp.json" TFile
               "Cursor MCP configuration" FJson]) /\
  findConfigsForApp home_fs home "emacs" initial = (JS.Normal [], initial) /\
  ConfigLocation.path
    (resolved home (ConfigLocation.mk "~/.cursor/mcp.json" TFile "" FJson))
    = "/home/u/.cursor/mcp.json" /\
  absolute (expandPath home "~/.cursor/mcp.json").
Proof.
  assert (well_formed initial) as Hwf
    by (unfold well_formed; apply (bool_decide_unpack _); vm_compute; exact I).
  assert (own_lookup "Cursor") as Hcursor by own_lookup_of_literal.
  assert (own_lookup "emacs") as Hemacs by own_lookup_of_literal.
  destruct (findConfigsForApp_returns_present_locations home_fs home initial "Cursor"
              Hwf Hcursor)
    as (_ & _ & Hknown & _).
  destruct (findConfigsForApp_returns_present_locations home_fs home initial "emacs"
              Hwf Hemacs)
    as (_ & Hunknown & _ & _ & Hpath).
  destruct (Hpath (ConfigLocation.mk "~/.cursor/mcp.json" TFile "" FJson))
    as (_ & _ & _ & _ & Hhome & Habsolute & _).
  assert (dollar_free home) as Hfree by (cbn; repeat split; discriminate).
  split; [|split; [|split]].
  - destruct (Hknown {| displayName := "Cursor"; bundleId := None; configs := [4] |})
      as (declared & found & st' & Hd & Hrun & Hfound); [vm_compute; reflexivity|].
    exists found, st'. split; [exact Hrun|].
    injection Hd as <-. exact Hfound.
  - apply Hunknown. vm_compute. reflexivity.
  - exact (Hhome Hfree "/.cursor/mcp.json" eq_refl).
  - apply Habsolute; [now exists "home/u" | exact Hfree |].
    left. now exists "/.cursor/mcp.json".
Defined.

(** A location with a relative path, the state after the caller has made
    the object and [addConfigLocation] has put it in Cursor's list, and a
    file system in which the path is there. *)
Definition relative_location : ConfigLocation.t :=
  ConfigLocation.mk "configs/mcp.json" TFile "Cursor, project configuration" FJson.

Definition with_relative_location : State :=
  run home_fs home (AddConfigLocation "Cursor" 5) (alloc relative_location initial).2.

Definition project_fs : Fs.FileSystem :=
  Fs.of_tree (list_to_map [("configs/mcp.json", Fs.File "{}")]).

(** C1 as stated fails on the word absolute: a location added with a
    relative path, as [add_config_location] allows, is returned with that
    relative path when it is there. *)
Lemma relative_path_returned_as_declared :
  locations_of with_relative_location "cursor" = Some [4; 5] /\
  exists found st',
    findConfigsForApp project_fs home "cursor" with_relative_location
      = (JS.Normal found, st') /\
    deref_all st' found = Some [relative_location] /\
    JS.startsWith (ConfigLocation.path relative_location) "/" = false.
Proof.
  split; [vm_compute; reflexivity|].
  eexists _, _. split; [vm_compute; reflexivity|].
  split; vm_compute; reflexivity.
Qed.

Lemma getAppConfig_case_insensitive_witness :
  getAppConfig "VSCode" initial = getAppConfig "vscode" initial /\
  getAppConfig "VsCode" initial =
    (JS.Normal (Some {| displayName := "Visual Studio Code";
                        bundleId := Some "com.microsoft.VSCode";
                        configs := [3] |}), initial).
Proof.
  destruct (getAppConfig_case_insensitive initial) as (_ & Hsame & _ & Hfound).
  split.
  - apply Hsame. apply toLowerCase_eq_iff. reflexivity.
  - assert (keys_lowercase initial) as Hlow
      by (unfold keys_lowercase; apply (bool_decide_unpack _); vm_compute; exact I).
    apply (Hfound Hlow "VsCode" "vscode").
    + vm_compute. reflexivity.
    + apply toLowerCase_eq_iff. reflexivity.
Defined.

(** C3 as stated fails: [updateAppConfigs] is an operation of the class,
    and it replaces the list of an entry; here it removes the one location
    Cursor has. *)
Lemma updateAppConfigs_replaces_locations :
  locations_of initial "cursor" = Some [4] /\
  locations_of (run home_fs home (UpdateAppConfigs "Cursor" []) initial) "cursor" = Some [] /\
  [4] ≠ ([] : list ref).
Proof. split; [|split]; [vm_compute; reflexivity | vm_compute; reflexivity | discriminate]. Qed.

Lemma table_written_by_append_and_replace_witness :
  run home_fs home (AddConfigLocation "emacs" 4) initial = initial /\
  locations_of (run home_fs home (AddConfigLocation "Cursor" 3) initial) "cursor"
    = Some [4; 3] /\
  locations_of (run home_fs home (AddConfigLocation "Cursor" 3) initial) "vscode"
    = Some [3] /\
  locations_of (run home_fs home (UpdateAppConfigs "VSCode" [0; 1]) initial) "vscode"
    = Some [0; 1].
Proof.
  assert (own_lookup "emacs") as Hemacs by own_lookup_of_literal.
  assert (own_lookup "Cursor") as Hcursor by own_lookup_of_literal.
  assert (own_lookup "VSCode") as Hvscode by own_lookup_of_literal.
  split; [|split; [|split]].
  - destruct (table_written_by_append_and_replace home_fs home
                (AddConfigLocation "emacs" 4) initial) as (_ & _ & _ & _ & Hadd).
    destruct (Hadd Hemacs) as (_ & _ & Hnoop).
    apply Hnoop. vm_compute. reflexivity.
  - destruct (table_written_by_append_and_replace home_fs home
                (AddConfigLocation "Cursor" 3) initial) as (_ & _ & _ & _ & Hadd).
    destruct (Hadd Hcursor) as (Happ & _).
    change (JS.toLowerCase "Cursor") with "cursor" in Happ.
    rewrite Happ. vm_compute. reflexivity.
  - destruct (table_written_by_append_and_replace home_fs home
                (AddConfigLocation "Cursor" 3) initial) as (_ & _ & _ & _ & Hadd).
    destruct (Hadd Hcursor) as (_ & Hothers & _).
    rewrite (Hothers (grown_initial home_fs home) "vscode") by discriminate.
    vm_compute. reflexivity.
  - destruct (table_written_by_append_and_replace home_fs home
                (UpdateAppConfigs "VSCode" [0; 1]) initial) as (_ & _ & _ & _ & Hupdate).
    destruct (Hupdate Hvscode) as (Hall & _).
    rewrite (Hall "vscode"). vm_compute. reflexivity.
Defined.

(** C4 as stated fails: after Cursor's location has been resolved, the
    stored object still holds the template, which is not the absolute
    path; the absolute path is in a new object. *)
Lemma resolution_leaves_stored_path :
  exists found st',
    findConfigsForApp home_fs home "cursor" initial = (JS.Normal found, st') /\
    locations_of st' "cursor" = Some [4] /\
    ConfigLocation.path <$> objects st' !! 4 = Some "~/.cursor/mcp.json" /\
    expandPath home "~/.cursor/mcp.json" = "/home/u/.cursor/mcp.json" /\
    "~/.cursor/mcp.json" ≠ "/home/u/.cursor/mcp.json" /\
    found = [5] /\
    ConfigLocation.path <$> objects st' !! 5 = Some "/home/u/.cursor/mcp.json".
Proof.
  eexists _, _. split; [vm_compute; reflexivity|].
  repeat split; try (vm_compute; reflexivity). discriminate.
Qed.

Lemma resolution_copies_and_objects_are_immutable_witness :
  objects (run home_fs home (FindConfigsForApp "cursor") initial) !! 4 =
    Some (ConfigLocation.mk "~/.cursor/mcp.json" TFile "Cursor MCP configuration" FJson) /\
  exists declared found st',
    findConfigsForApp home_fs home "cursor" initial = (JS.Normal found, st') /\
    deref_all initial [4] = Some declared /\
    deref_all st' [4] = Some declared /\
    Forall (fun r => objects initial !! r = None) found /\
    deref_all st' found = Some (resolved home <$> filter (present home_fs home) declared).
Proof.
  destruct (resolution_copies_and_objects_are_immutable home_fs home initial) as [Hkeep Hcopy].
  split.
  - apply Hkeep. vm_compute. reflexivity.
  - assert (well_formed initial) as Hwf
      by (unfold well_formed; apply (bool_decide_unpack _); vm_compute; exact I).
    apply (Hcopy Hwf "cursor"
             {| displayName := "Cursor"; bundleId := None; configs := [4] |}).
    vm_compute. reflexivity.
Defined.

End OnTheBuiltInTable.

(** ** The reader *)

Import ConfigReader.

(** The parser the reader applies to a file of the given format, if any. *)
Definition parser_for (JSON_parse plist_parse yaml_load : string -> JS.Completion JS.value)
    (fmt : Format) : option (string -> JS.Completion JS.value) :=
  match fmt with
  | FJson => Some JSON_parse
  | FPlist => Some plist_parse
  | FYaml => Some yaml_load
  | FText | FDirectory => None
  end.

(** An entry whose name starts with a dot. *)
Definition hidden (entry : string) : Prop := exists rest, entry = "." +:+ rest.

#[global] Instance hidden_dec entry : Decision (hidden entry).
Proof.
  destruct (JS.startsWith entry ".") eqn:E.
  - left. now apply startsWith_iff.
  - right. intros H. apply startsWith_iff in H. congruence.
Defined.

(** The body of a directory listing: a title, then one indented line per
    entry. *)
Definition listing (entries : list string) : string :=
  "Directory contents:" +:+ JS.nl +:+ JS.join JS.nl ((fun file => "  " +:+ file) <$> entries).

Section ReaderFacts.

Context (fs : Fs.FileSystem).
Context (JSON_parse plist_parse yaml_load : string -> JS.Completion JS.value).

Local Abbreviation readConfig := (readConfig fs JSON_parse plist_parse yaml_load).
Local Abbreviation readFile := (readFile fs JSON_parse plist_parse yaml_load).
Local Abbreviation parser_for := (parser_for JSON_parse plist_parse yaml_load).

Lemma error_of_message syscall p e :
  exists m, Fs.error_of syscall p e = JS.Error m /\ m <> "".
Proof.
  unfold Fs.error_of. eexists. split; [reflexivity|]. now destruct e.
Qed.

(** [readFile] once the file has been read: the content is kept, and the
    outcome of the parser goes to [parsed] or to [error]. *)
Lemma readFile_read loc content :
  Fs.sys_readFile fs (ConfigLocation.path loc) = inr content ->
  readFile loc =
    JS.Normal
      (match parser_for (ConfigLocation.format loc) with
       | None =>
           ConfigContent.mk (ConfigLocation.path loc) content None
             (format_string (ConfigLocation.format loc)) None
       | Some parse =>
           match parse content with
           | JS.Normal v =>
               ConfigContent.mk (ConfigLocation.path loc) content (Some v)
                 (format_string (ConfigLocation.format loc)) None
           | JS.Throw e =>
               ConfigContent.mk (ConfigLocation.path loc) content None
                 (format_string (ConfigLocation.format loc))
                 (Some ("Parse error: " +:+ JS.message_or "Unknown parsing error" e))
           end
       end).
Proof.
  intros Hr. unfold ConfigReader.readFile, Fs.readFile. rewrite Hr. simpl.
  destruct (ConfigLocation.format loc); simpl; try reflexivity.
  - now destruct (JSON_parse content).
  - now destruct (plist_parse content).
  - now destruct (yaml_load content).
Qed.

Lemma readFile_unreadable loc e :
  Fs.sys_readFile fs (ConfigLocation.path loc) = inl e ->
  readFile loc = JS.Throw (Fs.error_of "open" (ConfigLocation.path loc) e).
Proof. intros Hr. unfold ConfigReader.readFile, Fs.readFile. now rewrite Hr. Qed.

Lemma readConfig_file loc :
  ConfigLocation.type loc = TFile ->
  readConfig loc =
    JS.try_catch (readFile loc)
      (fun error =>
         JS.Normal
           (ConfigContent.mk (ConfigLocation.path loc) "" None
              (format_string (ConfigLocation.format loc))
              (Some (JS.message_or "Unknown error" error)))).
Proof. intros Ht. unfold ConfigReader.readConfig. now rewrite Ht. Qed.

Lemma readConfig_directory loc :
  ConfigLocation.type loc = TDirectory ->
  readConfig loc =
    match Fs.sys_readdir fs (ConfigLocation.path loc) with
    | inr entries =>
        JS.Normal
          (ConfigContent.mk (ConfigLocation.path loc) (listing (fileList_of entries))
             (Some (JS.Array (JS.Str <$> fileList_of entries))) "directory" None)
    | inl e =>
        JS.Normal
          (ConfigContent.mk (ConfigLocation.path loc) "" None "directory"
             (Some (JS.message_or "Unknown error reading directory"
                      (Fs.error_of "scandir" (ConfigLocation.path loc) e))))
    end.
Proof.
  intros Ht. unfold ConfigReader.readConfig, readDirectory, Fs.readdir. rewrite Ht.
  now destruct (Fs.sys_readdir fs (ConfigLocation.path loc)).
Qed.

(** [readConfig] always returns, and an [error] it sets is not empty. *)
Lemma readConfig_total loc :
  exists cc, readConfig loc = JS.Normal cc /\
    forall m, ConfigContent.error cc = Some m -> m <> "".
Proof.
  destruct (ConfigLocation.type loc) eqn:Ht.
  - rewrite (readConfig_file _ Ht).
    destruct (Fs.sys_readFile fs (ConfigLocation.path loc)) as [e|content] eqn:Hr.
    + rewrite (readFile_unreadable _ _ Hr).
      destruct (error_of_message "open" (ConfigLocation.path loc) e) as (m & -> & Hm).
      eexists. split; [reflexivity|]. simpl. intros m' E. now injection E as <-.
    + rewrite (readFile_read _ _ Hr). eexists. split; [reflexivity|].
      destruct (parser_for _) as [parse|]; [destruct (parse content)|];
        simpl; intros m' E; try discriminate.
      now injection E as <-.
  - rewrite (readConfig_directory _ Ht).
    destruct (Fs.sys_readdir fs (ConfigLocation.path loc)) as [e|entries].
    + destruct (error_of_message "scandir" (ConfigLocation.path loc) e) as (m & -> & Hm).
      eexists. split; [reflexivity|]. simpl. intros m' E. now injection E as <-.
    + eexists. split; [reflexivity|]. simpl. discriminate.
Qed.

(** C2. For a location of type file: when the parser of its format
    throws on the content, [readConfig] returns the content as read with
    an [error] that is not empty and no [parsed]; when the read fails,
    it returns an empty content with the message of the failure as
    [error]; and in every case it returns, it does not throw. *)
Theorem readConfig_reports_failures_inline loc :
  ConfigLocation.type loc = TFile ->
  (forall content parse e,
     Fs.sys_readFile fs (ConfigLocation.path loc) = inr content ->
     parser_for (ConfigLocation.format loc) = Some parse ->
     parse content = JS.Throw e ->
     exists message,
       readConfig loc =
         JS.Normal (ConfigContent.mk (ConfigLocation.path loc) content None
                      (format_string (ConfigLocation.format loc)) (Some message)) /\
       message = "Parse error: " +:+ JS.message_or "Unknown parsing error" e /\
       message <> "") /\
  (forall errno,
     Fs.sys_readFile fs (ConfigLocation.path loc) = inl errno ->
     exists message,
       Fs.readFile fs (ConfigLocation.path loc) = JS.Throw (JS.Error message) /\
       readConfig loc =
         JS.Normal (ConfigContent.mk (ConfigLocation.path loc) "" None
                      (format_string (ConfigLocation.format loc)) (Some message))) /\
  (exists cc, readConfig loc = JS.Normal cc).
Proof.
  intros Ht. repeat split.
  - intros content parse e Hr Hp He. eexists. rewrite (readConfig_file _ Ht).
    rewrite (readFile_read _ _ Hr), Hp, He. simpl.
    split; [reflexivity|]. split; [reflexivity | discriminate].
  - intros errno Hr. rewrite (readConfig_file _ Ht), (readFile_unreadable _ _ Hr).
    unfold Fs.readFile. rewrite Hr.
    destruct (error_of_message "open" (ConfigLocation.path loc) errno) as (m & -> & _).
    now exists m.
  - destruct (readConfig_total loc) as (cc & Hcc & _). now exists cc.
Qed.

(** A file of format json on which [JSON.parse] returns a value:
    [readConfig] returns the content with that value as [parsed] and
    without [error]. *)
Lemma readConfig_json_well_formed loc content v :
  ConfigLocation.type loc = TFile ->
  ConfigLocation.format loc = FJson ->
  Fs.sys_readFile fs (ConfigLocation.path loc) = inr content ->
  JSON_parse content = JS.Normal v ->
  readConfig loc =
    JS.Normal (ConfigContent.mk (ConfigLocation.path loc) content (Some v) "json" None).
Proof.
  intros Ht Hf Hr Hv.
  rewrite (readConfig_file _ Ht), (readFile_read _ _ Hr), Hf. simpl.
  now rewrite Hv.
Qed.


End ReaderFacts.

(** ** Lines *)

(** A string without a line feed. *)
Fixpoint one_line (s : string) : Prop :=
  match s with
  | EmptyString => True
  | String c s' => c <> JS.LF /\ one_line s'
  end.

Section Lines.

Lemma app_String x (a b : string) : String x a +:+ b = String x (a +:+ b).
Proof. reflexivity. Qed.

Lemma app_assoc_string (a b c : string) : (a +:+ b) +:+ c = a +:+ (b +:+ c).
Proof. induction a as [|x a IH]; [reflexivity|]. now rewrite !app_String, IH. Qed.

Lemma one_line_app a b : one_line (a +:+ b) <-> one_line a /\ one_line b.
Proof.
  induction a as [|x a IH]; [cbn; tauto|]. rewrite app_String. cbn. rewrite IH. tauto.
Qed.

Lemma split_lines_not_nil s : JS.split_lines s <> [].
Proof.
  destruct s as [|c s]; simpl; [discriminate|].
  destruct (Ascii.eqb c JS.LF); [discriminate|].
  now destruct (JS.split_lines s).
Qed.

Lemma join_cons_cons sep x y l :
  JS.join sep (x :: y :: l) = x +:+ sep +:+ JS.join sep (y :: l).
Proof. reflexivity. Qed.

(** Joining the lines of a text with line feeds gives the text back. *)
Lemma join_split_lines s : JS.join JS.nl (JS.split_lines s) = s.
Proof.
  induction s as [|c s IH]; [reflexivity|]. simpl.
  pose proof (split_lines_not_nil s) as Hne.
  destruct (JS.split_lines s) as [|l ls]; [contradiction|].
  destruct (Ascii.eqb_spec c JS.LF) as [->|Hc].
  - rewrite join_cons_cons, IH. reflexivity.
  - rewrite <- IH. destruct ls; reflexivity.
Qed.

Lemma split_lines_one_line s : one_line s -> JS.split_lines s = [s].
Proof.
  induction s as [|c s IH]; [reflexivity|]. intros [Hc Hs]. simpl.
  apply Ascii.eqb_neq in Hc. now rewrite Hc, (IH Hs).
Qed.

Lemma split_lines_app_nl x rest :
  one_line x -> JS.split_lines (x +:+ JS.nl +:+ rest) = x :: JS.split_lines rest.
Proof.
  induction x as [|c x IH]; intros Hx.
  - reflexivity.
  - destruct Hx as [Hc Hx]. rewrite app_String. cbn [JS.split_lines].
    apply Ascii.eqb_neq in Hc. now rewrite Hc, (IH Hx).
Qed.

(** The lines of a text made by joining lines are those lines. *)
Lemma split_lines_join l :
  l <> [] -> Forall one_line l -> JS.split_lines (JS.join JS.nl l) = l.
Proof.
  induction l as [|x l IH]; [contradiction|]. intros _ Hl.
  apply Forall_cons in Hl as [Hx Hl]. destruct l as [|y l].
  - now apply split_lines_one_line.
  - rewrite join_cons_cons, split_lines_app_nl by assumption.
    now rewrite IH.
Qed.

Lemma split_lines_Forall_one_line s : Forall one_line (JS.split_lines s).
Proof.
  induction s as [|c s IH]; simpl; [now repeat constructor|].
  destruct (Ascii.eqb_spec c JS.LF) as [->|Hc].
  - now constructor.
  - destruct (JS.split_lines s) as [|l ls]; [now repeat constructor|].
    apply Forall_cons in IH as [Hl Hls]. now repeat constructor.
Qed.

(** The first [n] lines of a text, joined, are a text of those lines. *)
Lemma split_lines_join_take n s :
  (0 < n)%nat ->
  JS.split_lines (JS.join JS.nl (take n (JS.split_lines s))) = take n (JS.split_lines s).
Proof.
  intros Hn. apply split_lines_join.
  - pose proof (split_lines_not_nil s). destruct n; [lia|].
    now destruct (JS.split_lines s).
  - apply Forall_take, split_lines_Forall_one_line.
Qed.

End Lines.

(** ** White space at the ends of a line *)

(** White space only. *)
Fixpoint all_space (s : string) : Prop :=
  match s with
  | EmptyString => True
  | String c s' => JS.is_space c = true /\ all_space s'
  end.

(** The first character of [s], if any, is not white space. *)
Definition starts_clean (s : string) : Prop :=
  match s with
  | EmptyString => True
  | String c _ => JS.is_space c = false
  end.

(** The last character of [s], if any, is not white space. *)
Fixpoint ends_clean (s : string) : Prop :=
  match s with
  | EmptyString => True
  | String c EmptyString => JS.is_space c = false
  | String _ s' => ends_clean s'
  end.

Section Trim.

Lemma trimStart_spec s :
  exists pre, s = pre +:+ JS.trimStart s /\ all_space pre /\ starts_clean (JS.trimStart s).
Proof.
  induction s as [|c s (pre & E & Hpre & Hclean)].
  - now exists "".
  - cbn [JS.trimStart]. destruct (JS.is_space c) eqn:Hc.
    + exists (String c pre). rewrite app_String, <- E. now repeat split.
    + now exists "".
Qed.

Lemma trimEnd_spec s :
  exists post, s = JS.trimEnd s +:+ post /\ all_space post /\ ends_clean (JS.trimEnd s) /\
               (starts_clean s -> starts_clean (JS.trimEnd s)).
Proof.
  induction s as [|c s (post & E & Hpost & Hclean & _)].
  - now exists "".
  - cbn [JS.trimEnd]. destruct (JS.trimEnd s) as [|d t] eqn:Ht.
    + destruct (JS.is_space c) eqn:Hc.
      * exists (String c post). change ("" +:+ post) with post in E.
        subst post. now repeat split.
      * exists post. change ("" +:+ post) with post in E. subst post.
        now repeat split.
    + exists post. rewrite app_String, <- E. repeat split; auto.
Qed.

(** [trim] takes white space, and nothing else, off both ends. *)
Lemma trim_spec s :
  exists pre post,
    s = pre +:+ JS.trim s +:+ post /\ all_space pre /\ all_space post /\
    starts_clean (JS.trim s) /\ ends_clean (JS.trim s).
Proof.
  destruct (trimStart_spec s) as (pre & E1 & Hpre & Hstart).
  destruct (trimEnd_spec (JS.trimStart s)) as (post & E2 & Hpost & Hend & Hkeep).
  exists pre, post. unfold JS.trim. rewrite <- E2. now repeat split; auto.
Qed.

End Trim.

(** The same, said without the code of [trim]. The white space of the
    ASCII range: tab, line feed, vertical tab, form feed, carriage
    return and space. *)
Definition white_space : list ascii :=
  ["009"; "010"; "011"; "012"; "013"; " "]%char.

Definition blank_string (s : string) : Prop :=
  Forall (fun c => c ∈ white_space) (list_ascii_of_string s).

(** [t] is [line] without the white space at its two ends. *)
Definition trimmed (line t : string) : Prop :=
  exists pre post,
    line = pre +:+ t +:+ post /\
    blank_string pre /\ blank_string post /\
    (forall c rest, t = String c rest -> c ∉ white_space) /\
    (forall init c, t = init +:+ String c "" -> c ∉ white_space).

Section Trimmed.

Lemma is_space_white_space c : JS.is_space c = true <-> c ∈ white_space.
Proof.
  unfold white_space. rewrite !elem_of_cons, elem_of_nil.
  destruct c as [[] [] [] [] [] [] [] []]; cbn; split;
    try discriminate; try tauto;
    intros H; repeat (destruct H as [H|H]; try discriminate H); contradiction.
Qed.

Lemma all_space_blank_string s : all_space s -> blank_string s.
Proof.
  unfold blank_string. induction s as [|c s IH]; cbn; [constructor|].
  intros [Hc Hs]. constructor; [now apply is_space_white_space | now apply IH].
Qed.

Lemma ends_clean_last s : ends_clean s ->
  forall init c, s = init +:+ String c "" -> c ∉ white_space.
Proof.
  induction s as [|d s IH]; intros Hclean init c E.
  - destruct init; discriminate.
  - destruct init as [|d' init].
    + change ("" +:+ String c "") with (String c "") in E. injection E as -> ->.
      cbn in Hclean. rewrite <- is_space_white_space. congruence.
    + rewrite app_String in E. injection E as -> ->.
      apply (IH (ltac:(destruct init; exact Hclean)) init c eq_refl).
Qed.

(** [trim] gives the trimmed line. *)
Lemma trim_trimmed line : trimmed line (JS.trim line).
Proof.
  destruct (trim_spec line) as (pre & post & E & Hpre & Hpost & Hstart & Hend).
  exists pre, post. split; [exact E|].
  split; [now apply all_space_blank_string|].
  split; [now apply all_space_blank_string|]. split.
  - intros c rest Ht. rewrite Ht in Hstart. cbn in Hstart.
    rewrite <- is_space_white_space. congruence.
  - now apply ends_clean_last.
Qed.

End Trimmed.

(** ** Searching and displaying *)

(** What a matching line is reported as. *)
Definition report (numbered_line : nat * string) : string :=
  "Line " +:+ JS.nat_to_string numbered_line.1 +:+ ": " +:+ JS.trim numbered_line.2.

(** The lines with their numbers, from [first] on. *)
Definition numbered_from (first : nat) (lines : list string) : list (nat * string) :=
  zip (seq first (length lines)) lines.

(** The reports of the lines that contain [term] up to letter case, in
    the order of the lines, the first line being line 1. *)
Definition matching_lines (term : string) (lines : list string) : list string :=
  report <$> filter (fun p => contains_ignoring_case p.2 term) (numbered_from 1 lines).

(** The two lines and the blank line that open a display. *)
Definition header (cc : ConfigContent.t) : string :=
  (page_icon +:+ " " +:+ ConfigContent.path cc +:+ JS.nl) +:+
  "Format: " +:+ ConfigContent.format cc +:+ JS.nl +:+ JS.nl.

(** The notice that closes a cut display. *)
Definition notice (total : nat) : string :=
  JS.nl +:+ JS.nl +:+ "... (showing first 50 lines of " +:+
  JS.nat_to_string total +:+ " total lines)".

(** A text as it is displayed raw: whole when it has at most 50 lines,
    else its first 50 lines and the notice. *)
Definition raw_text (content : string) : string :=
  let lines := JS.split_lines content in
  if decide (length lines <= 50)%nat then content
  else JS.join JS.nl (take 50 lines) +:+ notice (length lines).

Section SearchAndDisplay.

Context (fs : Fs.FileSystem).
Context (JSON_parse plist_parse yaml_load : string -> JS.Completion JS.value).
Context (JSON_stringify : JS.value -> string).

Local Abbreviation readConfig := (readConfig fs JSON_parse plist_parse yaml_load).
Local Abbreviation searchInConfig := (searchInConfig fs JSON_parse plist_parse yaml_load).
Local Abbreviation formatConfigForDisplay := (formatConfigForDisplay JSON_stringify).
Local Abbreviation parser_for := (parser_for JSON_parse plist_parse yaml_load).

Lemma forEach_line_spec term lines : forall index matchingLines,
  forEach_line term lines index matchingLines =
    matchingLines ++
    (report <$> filter (fun p => contains_ignoring_case p.2 term)
                  (numbered_from (index + 1) lines)).
Proof.
  induction lines as [|line rest IH]; intros index acc.
  - simpl. now rewrite app_nil_r.
  - cbn [forEach_line]. rewrite IH. unfold numbered_from. cbn [length seq zip zip_with].
    destruct (JS.includes (JS.toLowerCase line) (JS.toLowerCase term)) eqn:E.
    + rewrite filter_cons_True by (now apply includes_toLowerCase_iff).
      rewrite <- app_assoc. reflexivity.
    + rewrite filter_cons_False; [reflexivity|].
      intros H. apply includes_toLowerCase_iff in H. simpl in H. congruence.
Qed.


(** A report is in the result exactly when it is that of a line that
    contains the term, under the number of that line counted from 1. *)
Lemma matching_lines_elem term lines r :
  r ∈ matching_lines term lines <->
  exists i line,
    lines !! i = Some line /\ contains_ignoring_case line term /\
    r = report (S i, line).
Proof.
  unfold matching_lines, numbered_from. rewrite list_elem_of_fmap. split.
  - intros ([n line] & -> & Hin). apply list_elem_of_filter in Hin as [Hc Hin].
    apply list_elem_of_lookup in Hin as [i Hi].
    apply lookup_zip_with_Some in Hi as (n' & line' & E & Hn & Hl).
    injection E as En El. subst n' line'. apply lookup_seq in Hn as [-> _].
    exists i, line. now repeat split.
  - intros (i & line & Hl & Hc & ->). exists (S i, line). split; [reflexivity|].
    apply list_elem_of_filter. split; [exact Hc|].
    apply list_elem_of_lookup. exists i. apply lookup_zip_with_Some.
    exists (S i), line. repeat split; [|exact Hl].
    apply lookup_seq. split; [reflexivity|]. now apply lookup_lt_Some in Hl.
Qed.


Lemma header_before cc (body : string) :
  ((page_icon +:+ " " +:+ ConfigContent.path cc +:+ JS.nl) +:+
   "Format: " +:+ ConfigContent.format cc +:+ JS.nl +:+ JS.nl) +:+ body
  = header cc +:+ body.
Proof. reflexivity. Qed.

(** The branch of lines 119-127. *)
Lemma raw_branch cc :
  (let lines := JS.split_lines (ConfigContent.content cc) in
   if (50 <? length lines)%nat then
     (header cc +:+ JS.join JS.nl (take 50 lines)) +:+ JS.nl +:+ JS.nl +:+
       "... (showing first 50 lines of " +:+ JS.nat_to_string (length lines) +:+ " total lines)"
   else header cc +:+ ConfigContent.content cc)
  = header cc +:+ raw_text (ConfigContent.content cc).
Proof.
  unfold raw_text. cbv zeta.
  destruct (Nat.ltb_spec 50 (length (JS.split_lines (ConfigContent.content cc))));
    case_decide; try lia; [|reflexivity].
  now rewrite app_assoc_string.
Qed.

(** Where there is no error to show and neither the listing nor the dump
    applies, the display is the raw text under the header. *)
Lemma formatConfigForDisplay_raw cc :
  JS.truthy_opt_string (ConfigContent.error cc) = false ->
  ConfigContent.format cc <> "directory" ->
  ~ (ConfigContent.format cc = "json" \/ ConfigContent.format cc = "plist") \/
  parsed_truthy cc = false ->
  formatConfigForDisplay cc = header cc +:+ raw_text (ConfigContent.content cc).
Proof.
  intros Hfalsy Hnd Hraw.
  unfold ConfigReader.formatConfigForDisplay. rewrite Hfalsy, !header_before.
  apply String.eqb_neq in Hnd. rewrite Hnd, <- raw_branch.
  destruct Hraw as [Hnf | ->]; [|reflexivity].
  destruct (String.eqb_spec (ConfigContent.format cc) "json") as [Hj|_];
    [exfalso; auto|].
  destruct (String.eqb_spec (ConfigContent.format cc) "plist") as [Hp|_];
    [exfalso; auto|].
  now rewrite andb_false_r.
Qed.

(** C8, as the code has it. With an [error] that is not empty, the
    display is the message "Error reading path: error", one line when the
    path and the error are. Otherwise it is the header followed by: the
    content, for the format directory; the dump of [parsed], for json and
    plist when [parsed] is truthy; and in every other case the raw text,
    whole when it has at most 50 lines, else cut to its first 50 lines
    with the notice that gives the total. *)
Theorem formatConfigForDisplay_cases cc :
  (forall e, ConfigContent.error cc = Some e -> e <> "" ->
     formatConfigForDisplay cc = "Error reading " +:+ ConfigContent.path cc +:+ ": " +:+ e /\
     (one_line (ConfigContent.path cc) -> one_line e ->
      one_line (formatConfigForDisplay cc))) /\
  (ConfigContent.error cc = None \/ ConfigContent.error cc = Some "" ->
   (ConfigContent.format cc = "directory" ->
      formatConfigForDisplay cc = header cc +:+ ConfigContent.content cc) /\
   (forall v,
      ConfigContent.format cc = "json" \/ ConfigContent.format cc = "plist" ->
      ConfigContent.parsed cc = Some v -> JS.truthy v = true ->
      formatConfigForDisplay cc = header cc +:+ JSON_stringify v) /\
   (ConfigContent.format cc <> "directory" ->
    ~ (ConfigContent.format cc = "json" \/ ConfigContent.format cc = "plist") \/
    parsed_truthy cc = false ->
      formatConfigForDisplay cc = header cc +:+ raw_text (ConfigContent.content cc)) /\
   (let lines := JS.split_lines (ConfigContent.content cc) in
    ((length lines <= 50)%nat -> raw_text (ConfigContent.content cc) = ConfigContent.content cc) /\
    ((50 < length lines)%nat ->
       raw_text (ConfigContent.content cc) =
         JS.join JS.nl (take 50 lines) +:+ notice (length lines) /\
       JS.split_lines (JS.join JS.nl (take 50 lines)) = take 50 lines /\
       length (take 50 lines) = 50%nat))).
Proof.
  split.
  - intros e He Hne. unfold ConfigReader.formatConfigForDisplay. rewrite He. simpl.
    apply String.eqb_neq in Hne. rewrite Hne. simpl. split; [reflexivity|].
    intros Hp Hl. rewrite !one_line_app. cbn. repeat split; auto; discriminate.
  - intros Herr.
    assert (JS.truthy_opt_string (ConfigContent.error cc) = false) as Hfalsy
      by (destruct Herr as [-> | ->]; reflexivity).
    split; [|split; [|split; [|split; [|split; [|split]]]]].
    + intros Hd. unfold ConfigReader.formatConfigForDisplay.
      now rewrite Hfalsy, !header_before, Hd.
    + intros v Hf Hv Ht. unfold ConfigReader.formatConfigForDisplay, parsed_truthy.
      rewrite Hfalsy, !header_before, Hv, Ht.
      destruct Hf as [-> | ->]; reflexivity.
    + now apply formatConfigForDisplay_raw.
    + intros Hle. unfold raw_text. cbv zeta. now case_decide.
    + unfold raw_text. cbv zeta. case_decide; [lia | reflexivity].
    + apply split_lines_join_take. lia.
    + rewrite length_take. lia.
Qed.

(** C10. A file of format json or plist whose content parses, without an
    error, to a value that is falsy, as [null], [false] and [0] are, is
    displayed as the header followed by its raw text (cut after 50 lines
    if longer), not by a dump of the value. *)
Theorem falsy_parsed_value_displayed_raw loc content parse v :
  ConfigLocation.type loc = TFile ->
  ConfigLocation.format loc = FJson \/ ConfigLocation.format loc = FPlist ->
  Fs.sys_readFile fs (ConfigLocation.path loc) = inr content ->
  parser_for (ConfigLocation.format loc) = Some parse ->
  parse content = JS.Normal v ->
  JS.truthy v = false ->
  (exists cc,
     readConfig loc = JS.Normal cc /\
     ConfigContent.error cc = None /\
     ConfigContent.parsed cc = Some v /\
     formatConfigForDisplay cc = header cc +:+ raw_text content) /\
  JS.truthy JS.Null = false /\
  JS.truthy (JS.Bool false) = false /\
  JS.truthy (JS.Number 0) = false.
Proof.
  intros Ht Hf Hr Hp Hv Hfalsy. split; [|now repeat split].
  eexists. rewrite (readConfig_file _ _ _ _ _ Ht), (readFile_read _ _ _ _ _ _ Hr), Hp, Hv.
  split; [reflexivity|]. split; [reflexivity|]. split; [reflexivity|].
  apply formatConfigForDisplay_raw.
  - reflexivity.
  - simpl. destruct Hf as [-> | ->]; discriminate.
  - right. unfold parsed_truthy. simpl. exact Hfalsy.
Qed.

End SearchAndDisplay.

(** ** The JSON printer and the JSON parser agree *)

(** A character the printer writes in a way the parser reads back: not a
    control character other than the five with a short escape. *)
Definition safe_char (c : ascii) : bool :=
  let n := nat_of_ascii c in
  (32 <=? n)%nat || (n =? 8)%nat || (n =? 9)%nat || (n =? 10)%nat
  || (n =? 12)%nat || (n =? 13)%nat.

Fixpoint safe_string (s : string) : Prop :=
  match s with
  | EmptyString => True
  | String c s' => safe_char c = true /\ safe_string s'
  end.

(** White space only. *)
Fixpoint blank (s : string) : Prop :=
  match s with
  | EmptyString => True
  | String c s' => Json.is_ws c = true /\ blank s'
  end.

(** What may follow a numeral: not a digit, and not the start of a
    fraction or of an exponent. *)
Definition ends_numeral (rest : string) : Prop :=
  match rest with
  | EmptyString => True
  | String c _ =>
      Json.digit_of c = None /\ c <> "."%char /\ c <> "e"%char /\ c <> "E"%char
  end.

(** The values the parser and the printer are compared on: no
    [undefined], numbers whose numeral reads back as the number, strings
    and keys of safe characters, and no key twice in an object. *)
Fixpoint plain (v : JS.value) : Prop :=
  match v with
  | JS.Undefined => False
  | JS.Null | JS.Bool _ => True
  | JS.Number x => Json.numeral (Json.print_number x) = Some (x, EmptyString)
  | JS.Str s => safe_string s
  | JS.Array l =>
      (fix all (l : list JS.value) : Prop :=
         match l with
         | [] => True
         | v' :: l' => plain v' /\ all l'
         end) l
  | JS.Object props =>
      (fix all (ps : list (string * JS.value)) : Prop :=
         match ps with
         | [] => True
         | (k, v') :: ps' => (safe_string k /\ plain v') /\ all ps'
         end) props
      /\ NoDup props.*1
  end.

Section ValueInduction.

Context (P : JS.value -> Prop).
Context (HUndefined : P JS.Undefined) (HNull : P JS.Null).
Context (HBool : forall b, P (JS.Bool b)) (HNumber : forall x, P (JS.Number x)).
Context (HStr : forall s, P (JS.Str s)).
Context (HArray : forall l, Forall P l -> P (JS.Array l)).
Context (HObject : forall props, Forall (fun kv => P kv.2) props -> P (JS.Object props)).

(** Induction on a value with the elements of an array and the members
    of an object as smaller values. *)
Fixpoint value_nested_ind (v : JS.value) : P v :=
  match v with
  | JS.Undefined => HUndefined
  | JS.Null => HNull
  | JS.Bool b => HBool b
  | JS.Number x => HNumber x
  | JS.Str s => HStr s
  | JS.Array l =>
      HArray l
        ((fix go (l : list JS.value) : Forall P l :=
            match l with
            | [] => List.Forall_nil P
            | v' :: l' => List.Forall_cons P v' l' (value_nested_ind v') (go l')
            end) l)
  | JS.Object props =>
      HObject props
        ((fix go (ps : list (string * JS.value)) : Forall (fun kv => P kv.2) ps :=
            match ps with
            | [] => List.Forall_nil _
            | kv :: ps' =>
                List.Forall_cons (fun kv => P kv.2) kv ps'
                  (match kv return P kv.2 with (_, v') => value_nested_ind v' end)
                  (go ps')
            end) props)
  end.

End ValueInduction.

(** The text of the items after the first: each behind a separator. *)
Fixpoint after_first (sep : string) (items : list string) : string :=
  match items with
  | [] => EmptyString
  | t :: ts => sep +:+ t +:+ after_first sep ts
  end.

Section RoundTrip.

Lemma plain_Array l : plain (JS.Array l) <-> Forall plain l.
Proof.
  induction l as [|v l IH]; [split; constructor|].
  rewrite Forall_cons, <- IH. reflexivity.
Qed.

Lemma plain_Object props :
  plain (JS.Object props) <->
  Forall (fun kv => safe_string kv.1 /\ plain kv.2) props /\ NoDup props.*1.
Proof.
  assert ((fix all (ps : list (string * JS.value)) : Prop :=
             match ps with
             | [] => True
             | (k, v') :: ps' => (safe_string k /\ plain v') /\ all ps'
             end) props
          <-> Forall (fun kv => safe_string kv.1 /\ plain kv.2) props) as H.
  { induction props as [|[k v] ps IH]; [split; constructor|].
    rewrite Forall_cons, <- IH. reflexivity. }
  cbn [plain]. now rewrite H.
Qed.

Lemma length_app (a b : string) :
  String.length (a +:+ b) = (String.length a + String.length b)%nat.
Proof. induction a as [|c a IH]; [reflexivity|]. rewrite app_String. cbn. now rewrite IH. Qed.

Lemma blank_app a b : blank a -> blank b -> blank (a +:+ b).
Proof.
  induction a as [|c a IH]; [now intros|]. intros [Hc Ha] Hb.
  rewrite app_String. split; [exact Hc | now apply IH].
Qed.

Lemma skip_ws_blank b s : blank b -> Json.skip_ws (b +:+ s) = Json.skip_ws s.
Proof.
  induction b as [|c b IH]; [reflexivity|]. intros [Hc Hb].
  rewrite app_String. cbn [Json.skip_ws]. now rewrite Hc, IH.
Qed.

Lemma value_blank fuel b s :
  blank b -> Json.value fuel (b +:+ s) = Json.value fuel s.
Proof.
  intros Hb. destruct fuel as [|fuel]; [reflexivity|].
  cbn [Json.value]. now rewrite skip_ws_blank.
Qed.

Lemma string_body_escape_char c tail :
  safe_char c = true ->
  Json.string_body (Json.escape_char c +:+ tail) =
    match Json.string_body tail with
    | Some (body, rest) => Some (String c body, rest)
    | None => None
    end.
Proof.
  destruct c as [[] [] [] [] [] [] [] []]; intros Hc; try discriminate Hc; reflexivity.
Qed.

(** A string literal reads back as the string. *)
Lemma string_body_escape s rest :
  safe_string s ->
  Json.string_body (Json.escape s +:+ JS.dq +:+ rest) = Some (s, rest).
Proof.
  induction s as [|c s IH]; intros Hs; [reflexivity|].
  destruct Hs as [Hc Hs]. cbn [Json.escape]. rewrite app_assoc_string.
  now rewrite (string_body_escape_char _ _ Hc), (IH Hs).
Qed.

(** *** Numerals *)

Lemma digits_app rest t : ends_numeral rest -> forall acc n z k,
  Json.digits t acc n = (z, k, EmptyString) ->
  Json.digits (t +:+ rest) acc n = (z, k, rest).
Proof.
  intros Hrest. induction t as [|c t IH]; intros acc n z k H.
  - cbn in H. injection H as <- <-. change ("" +:+ rest) with rest.
    destruct rest as [|c rest]; [reflexivity|]. cbn [Json.digits].
    destruct Hrest as [-> _]. reflexivity.
  - rewrite app_String. cbn [Json.digits] in *.
    destruct (Json.digit_of c); [now apply IH | discriminate].
Qed.

Lemma digits_count t : forall acc n z k r,
  Json.digits t acc n = (z, k, r) -> (n <= k)%nat /\ (t = EmptyString -> k = n).
Proof.
  induction t as [|c t IH]; intros acc n z k r H; cbn in H.
  - injection H as <- <- <-. split; [lia | reflexivity].
  - destruct (Json.digit_of c).
    + apply IH in H as [H _]. split; [lia | discriminate].
    + injection H as <- <- <-. split; [lia | discriminate].
Qed.

Lemma starts_numeral_tail_ends rest : ends_numeral rest -> Json.starts_numeral_tail rest = false.
Proof.
  destruct rest as [|c rest]; [reflexivity|]. intros (_ & H1 & H2 & H3). cbn.
  apply Ascii.eqb_neq in H1, H2, H3. now rewrite H1, H2, H3.
Qed.

Lemma unsigned_numeral_app t rest x :
  ends_numeral rest ->
  Json.unsigned_numeral t = Some (x, EmptyString) ->
  Json.unsigned_numeral (t +:+ rest) = Some (x, rest).
Proof.
  intros Hrest. unfold Json.unsigned_numeral.
  destruct (Json.digits t 0 0) as [[z k] r] eqn:E.
  destruct (Nat.eqb_spec k 0) as [->|Hk]; [discriminate|].
  destruct (digits_count _ _ _ _ _ _ E) as [_ Hempty].
  destruct t as [|c t]; [now specialize (Hempty eq_refl)|].
  rewrite app_String. change (JS.startsWith (String c (t +:+ rest)) "0")
    with (JS.startsWith (String c t) "0").
  destruct (JS.startsWith (String c t) "0" && (1 <? k)%nat) eqn:Hzero; [discriminate|].
  destruct (Json.starts_numeral_tail r); [discriminate|].
  destruct (z <? 2 ^ 63)%Z eqn:Hz; [|discriminate].
  intros H. injection H as <- ->.
  rewrite <- app_String, (digits_app rest _ Hrest _ _ _ _ E).
  destruct (Nat.eqb_spec k 0) as [?|_]; [contradiction|].
  now rewrite Hzero, (starts_numeral_tail_ends _ Hrest), Hz.
Qed.

Lemma strip_String c p s :
  Json.strip (String c p) s =
    match s with
    | String b s' => if Ascii.eqb c b then Json.strip p s' else None
    | EmptyString => None
    end.
Proof. now destruct s. Qed.

Lemma numeral_app t rest x :
  ends_numeral rest ->
  Json.numeral t = Some (x, EmptyString) ->
  Json.numeral (t +:+ rest) = Some (x, rest).
Proof.
  intros Hrest. unfold Json.numeral. destruct t as [|c t].
  - cbn. discriminate.
  - rewrite app_String, !strip_String. destruct (Ascii.eqb "-" c).
    + cbn [Json.strip].
      destruct (Json.unsigned_numeral t) as [[y r]|] eqn:E; [|discriminate].
      intros H. injection H as <- ->.
      now rewrite (unsigned_numeral_app _ _ _ Hrest E).
    + rewrite <- app_String. apply unsigned_numeral_app. exact Hrest.
Qed.

(** A numeral starts with a minus sign or with a digit. *)
Definition numeral_head (c : ascii) : bool :=
  Ascii.eqb c "-" || match Json.digit_of c with Some _ => true | None => false end.

Lemma numeral_starts t x r :
  Json.numeral t = Some (x, r) -> exists c t', t = String c t' /\ numeral_head c = true.
Proof.
  unfold Json.numeral, numeral_head. destruct t as [|c t].
  - cbn. discriminate.
  - intros H. exists c, t. split; [reflexivity|].
    rewrite strip_String in H. rewrite Ascii.eqb_sym.
    destruct (Ascii.eqb "-" c); [reflexivity|]. cbn.
    unfold Json.unsigned_numeral in H. cbn [Json.digits] in H.
    destruct (Json.digit_of c); [reflexivity|]. cbn in H. discriminate.
Qed.

(** On a minus sign or a digit the parser reads a numeral. *)
Lemma value_numeral fuel c s :
  numeral_head c = true ->
  Json.value (S fuel) (String c s) =
    match Json.numeral (String c s) with
    | Some (x, rest) => Some (JS.Number x, rest)
    | None => None
    end.
Proof.
  destruct c as [[] [] [] [] [] [] [] []]; intros Hc; try discriminate Hc; reflexivity.
Qed.

(** The first character of a value: not white space, and neither a
    closing bracket nor a closing brace. *)
Definition value_head (c : ascii) : bool :=
  negb (Json.is_ws c) && negb (Ascii.eqb c "]") && negb (Ascii.eqb c "}").

Definition starts_value (t : string) : Prop :=
  match t with
  | String c _ => value_head c = true
  | EmptyString => False
  end.

Lemma numeral_head_value_head c : numeral_head c = true -> value_head c = true.
Proof.
  destruct c as [[] [] [] [] [] [] [] []]; intros Hc; try discriminate Hc; reflexivity.
Qed.

Lemma starts_value_facts t rest :
  starts_value t ->
  Json.skip_ws (t +:+ rest) = t +:+ rest /\
  Json.strip "]" (t +:+ rest) = None /\
  Json.strip "}" (t +:+ rest) = None /\
  (0 < String.length t)%nat.
Proof.
  destruct t as [|c t]; [contradiction|]. intros Hc. rewrite app_String.
  unfold starts_value, value_head in Hc.
  apply andb_prop in Hc as [Hc H3]. apply andb_prop in Hc as [H1 H2].
  apply negb_true_iff in H1, H2, H3.
  cbn [Json.skip_ws Json.strip]. rewrite H1.
  rewrite (Ascii.eqb_sym "]" c), (Ascii.eqb_sym "}" c), H2, H3.
  repeat split. cbn. lia.
Qed.

(** *** Sequences *)

Lemma app_empty_r (a : string) : a +:+ "" = a.
Proof. induction a as [|x a IH]; [reflexivity|]. now rewrite app_String, IH. Qed.

Lemma join_after_first sep x xs : JS.join sep (x :: xs) = x +:+ after_first sep xs.
Proof.
  revert x. induction xs as [|y xs IH]; intros x.
  - cbn. now rewrite app_empty_r.
  - rewrite join_cons_cons, IH. reflexivity.
Qed.

Lemma length_after_first c sep items :
  (length items <= String.length (after_first (String c sep) items))%nat.
Proof.
  induction items as [|t ts IH]; [cbn; lia|].
  cbn [after_first length]. rewrite app_String. cbn [String.length].
  rewrite !length_app. lia.
Qed.

Lemma Forall_exists_Forall2 {A B} (Q : A -> B -> Prop) l :
  Forall (fun a => exists b, Q a b) l -> exists k, Forall2 Q l k.
Proof.
  induction 1 as [|a l [b Hb] _ [k Hk]]; [now exists [] | exists (b :: k); now constructor].
Qed.

(** What the main lemma says of a value [v] printed as [t] at the
    indentation [inner], for a parser of fuel [f]. *)
Definition reads_back (inner : string) (f : nat) (v : JS.value) (t : string) : Prop :=
  Json.print inner v = Some t /\ starts_value t /\
  ((String.length t < f)%nat ->
   forall rest, ends_numeral rest -> Json.value f (t +:+ rest) = Some (v, rest)).

Lemma ends_numeral_after_first inner ts tail :
  ends_numeral (after_first ("," +:+ JS.nl +:+ inner) ts +:+ JS.nl +:+ tail).
Proof. destruct ts; cbn; repeat split; discriminate. Qed.

Lemma app_one c (s : string) : String c "" +:+ s = String c s.
Proof. reflexivity. Qed.

Lemma more_elements_comma element n s :
  Json.more_elements element (S n) (String "," s) =
    match element s with
    | Some (v, s2) =>
        match Json.more_elements element n s2 with
        | Some (vs, rest) => Some (v :: vs, rest)
        | None => None
        end
    | None => None
    end.
Proof. reflexivity. Qed.

Lemma more_elements_close element n b rest :
  blank b -> Json.more_elements element (S n) (b +:+ String "]" rest) = Some ([], rest).
Proof. intros Hb. cbn [Json.more_elements]. now rewrite skip_ws_blank. Qed.

Lemma more_elements_print inner indent f rest vs ts :
  blank inner -> blank indent ->
  Forall2 (reads_back inner f) vs ts ->
  Forall (fun t => (String.length t < f)%nat) ts ->
  forall n, (length vs < n)%nat ->
  Json.more_elements (Json.value f) n
    (after_first ("," +:+ JS.nl +:+ inner) ts +:+ JS.nl +:+ indent +:+ "]" +:+ rest)
  = Some (vs, rest).
Proof.
  intros Hinner Hindent. induction 1 as [|v t vs ts (_ & _ & Hv) _ IH];
    intros Hlen [|n] Hn; try (cbn in Hn; lia).
  - cbn [after_first]. change ("" +:+ ?x) with x.
    rewrite <- app_assoc_string, app_one.
    apply more_elements_close, blank_app; [now split | assumption].
  - apply Forall_cons in Hlen as [Ht Hts].
    cbn [after_first]. rewrite !app_assoc_string, app_one, more_elements_comma.
    rewrite <- (app_assoc_string JS.nl inner), value_blank
      by (apply blank_app; [now split | assumption]).
    rewrite (Hv Ht) by apply ends_numeral_after_first.
    rewrite IH; [reflexivity | assumption | cbn in Hn; lia].
Qed.

(** *** Members *)

Lemma member_key element b k tail :
  blank b -> safe_string k ->
  Json.member element (b +:+ Json.quote k +:+ String ":" tail) =
    match element tail with
    | Some (v, rest) => Some (k, v, rest)
    | None => None
    end.
Proof.
  intros Hb Hk. unfold Json.member. rewrite skip_ws_blank by assumption.
  unfold Json.quote. rewrite !app_assoc_string.
  change (JS.dq +:+ ?x) with (String JS.DQ x) at 1.
  cbn [Json.skip_ws]. change (Json.is_ws JS.DQ) with false. cbv iota.
  change (Json.strip JS.dq (String JS.DQ ?x)) with (Some x).
  cbv iota beta. rewrite (string_body_escape _ _ Hk). reflexivity.
Qed.

Lemma more_members_comma element n s :
  Json.more_members element (S n) (String "," s) =
    match Json.member element s with
    | Some (k, v, s2) =>
        match Json.more_members element n s2 with
        | Some (kvs, rest) => Some ((k, v) :: kvs, rest)
        | None => None
        end
    | None => None
    end.
Proof. reflexivity. Qed.

Lemma more_members_close element n b rest :
  blank b -> Json.more_members element (S n) (b +:+ String "}" rest) = Some ([], rest).
Proof. intros Hb. cbn [Json.more_members]. now rewrite skip_ws_blank. Qed.

(** The text of a member. *)
Definition member_text (k t : string) : string := Json.quote k +:+ ": " +:+ t.

(** What the main lemma says of a member. *)
Definition member_reads_back (inner : string) (f : nat) (kv : string * JS.value)
    (m : string) : Prop :=
  exists t, m = member_text kv.1 t /\ safe_string kv.1 /\ reads_back inner f kv.2 t.

Lemma member_print inner f k v t b tail :
  blank b -> safe_string k -> reads_back inner f v t -> (String.length t < f)%nat ->
  ends_numeral tail ->
  Json.member (Json.value f) (b +:+ member_text k t +:+ tail) = Some (k, v, tail).
Proof.
  intros Hb Hk (_ & _ & Hv) Ht Htail. unfold member_text.
  rewrite !app_assoc_string.
  change (": " +:+ t +:+ tail) with (String ":" (" " +:+ t +:+ tail)).
  rewrite (member_key _ _ _ _ Hb Hk), value_blank by (now split).
  now rewrite (Hv Ht _ Htail).
Qed.

Lemma more_members_print inner indent f rest kvs ms :
  blank inner -> blank indent ->
  Forall2 (member_reads_back inner f) kvs ms ->
  Forall (fun m => (String.length m < f)%nat) ms ->
  forall n, (length kvs < n)%nat ->
  Json.more_members (Json.value f) n
    (after_first ("," +:+ JS.nl +:+ inner) ms +:+ JS.nl +:+ indent +:+ "}" +:+ rest)
  = Some (kvs, rest).
Proof.
  intros Hinner Hindent.
  induction 1 as [|[k v] m kvs ms (t & -> & Hk & Hv) _ IH];
    intros Hlen [|n] Hn; try (cbn in Hn; lia).
  - cbn [after_first]. change ("" +:+ ?x) with x.
    rewrite <- app_assoc_string, app_one.
    apply more_members_close, blank_app; [now split | assumption].
  - apply Forall_cons in Hlen as [Ht Hts]. cbn [fst snd] in *.
    cbn [after_first]. rewrite !app_assoc_string, app_one, more_members_comma.
    rewrite <- (app_assoc_string JS.nl inner).
    rewrite (member_print inner f k v t); try assumption.
    + rewrite IH; [reflexivity | assumption | cbn in Hn; lia].
    + apply blank_app; [now split | assumption].
    + unfold member_text in Ht. rewrite !length_app in Ht. lia.
    + apply ends_numeral_after_first.
Qed.

Lemma set_member_fresh k v props :
  k ∉ props.*1 -> Json.set_member k v props = props ++ [(k, v)].
Proof.
  induction props as [|[k' v'] props IH]; [reflexivity|]. intros Hk.
  cbn [Json.set_member]. rewrite fmap_cons, not_elem_of_cons in Hk.
  destruct Hk as [Hne Hk]. apply String.eqb_neq in Hne. cbn [fst] in Hne.
  now rewrite Hne, (IH Hk).
Qed.

(** An object without a repeated key is built as it is written. *)
Lemma object_of_NoDup props : NoDup props.*1 -> Json.object_of props = JS.Object props.
Proof.
  unfold Json.object_of. intros Hnd. f_equal.
  enough (forall acc, NoDup (acc.*1 ++ props.*1) ->
            fold_left (fun ps kv => Json.set_member kv.1 kv.2 ps) props acc = acc ++ props)
    as H by (now apply (H [])).
  clear Hnd. induction props as [|[k v] props IH]; intros acc Hnd.
  - now rewrite app_nil_r.
  - cbn [fold_left fst snd]. rewrite fmap_cons in Hnd. cbn [fst] in Hnd.
    rewrite set_member_fresh.
    + rewrite IH; [now rewrite <- app_assoc|].
      rewrite fmap_app, <- app_assoc. exact Hnd.
    + apply NoDup_app in Hnd as (_ & Hdisj & _). intros Hin.
      apply (Hdisj k Hin). now left.
Qed.

(** *** Values *)

Lemma length_after_first_elem sep ts t :
  t ∈ ts -> (String.length t <= String.length (after_first sep ts))%nat.
Proof.
  induction ts as [|t' ts IH]; intros Hin; [now apply elem_of_nil in Hin|].
  cbn [after_first]. rewrite !length_app.
  apply elem_of_cons in Hin as [->|Hin]; [lia|]. specialize (IH Hin). lia.
Qed.

Lemma print_Array indent l ts :
  Forall2 (fun v t => Json.print (indent +:+ "  ") v = Some t) l ts ->
  Json.print indent (JS.Array l) =
    Some (match ts with
          | [] => "[]"
          | t :: ts' =>
              "[" +:+ JS.nl +:+ (indent +:+ "  ") +:+
              (t +:+ after_first ("," +:+ JS.nl +:+ (indent +:+ "  ")) ts') +:+
              JS.nl +:+ indent +:+ "]"
          end).
Proof.
  intros H. cbn [Json.print].
  replace (List.map _ l) with ts.
  - destruct ts as [|t ts']; [reflexivity|]. now rewrite join_after_first.
  - induction H as [|v t l ts Hv _ IH]; [reflexivity|]. cbn [List.map].
    now rewrite Hv, <- IH.
Qed.

Lemma print_Object indent props ms :
  Forall2 (fun (kv : string * JS.value) m =>
             exists t, Json.print (indent +:+ "  ") kv.2 = Some t /\
                       m = member_text kv.1 t) props ms ->
  Json.print indent (JS.Object props) =
    Some (match ms with
          | [] => "{}"
          | m :: ms' =>
              "{" +:+ JS.nl +:+ (indent +:+ "  ") +:+
              (m +:+ after_first ("," +:+ JS.nl +:+ (indent +:+ "  ")) ms') +:+
              JS.nl +:+ indent +:+ "}"
          end).
Proof.
  intros H. cbn [Json.print].
  replace (omap id (List.map _ props)) with ms.
  - destruct ms as [|m ms']; [reflexivity|]. now rewrite join_after_first.
  - induction H as [|[k v] m props ms (t & Hv & ->) _ IH]; [reflexivity|].
    cbn [List.map omap list_omap fst snd] in *. rewrite Hv. cbn. now rewrite <- IH.
Qed.

Lemma value_string f s :
  Json.value (S f) (String JS.DQ s) =
    match Json.string_body s with
    | Some (body, rest) => Some (JS.Str body, rest)
    | None => None
    end.
Proof. reflexivity. Qed.

Lemma value_array f s1 :
  Json.value (S f) (String "[" s1) =
    match Json.strip "]" (Json.skip_ws s1) with
    | Some rest => Some (JS.Array [], rest)
    | None =>
        match Json.value f s1 with
        | Some (v, s2) =>
            match Json.more_elements (Json.value f) (String.length (String "[" s1)) s2 with
            | Some (vs, rest) => Some (JS.Array (v :: vs), rest)
            | None => None
            end
        | None => None
        end
    end.
Proof. reflexivity. Qed.

Lemma value_object f s1 :
  Json.value (S f) (String "{" s1) =
    match Json.strip "}" (Json.skip_ws s1) with
    | Some rest => Some (JS.Object [], rest)
    | None =>
        match Json.member (Json.value f) s1 with
        | Some (k, v, s2) =>
            match Json.more_members (Json.value f) (String.length (String "{" s1)) s2 with
            | Some (kvs, rest) => Some (Json.object_of ((k, v) :: kvs), rest)
            | None => None
            end
        | None => None
        end
    end.
Proof. reflexivity. Qed.

Lemma blank_inner indent : blank indent -> blank (indent +:+ "  ").
Proof. intros H. apply blank_app; [exact H | now repeat split]. Qed.

Lemma blank_nl_inner inner : blank inner -> blank (JS.nl +:+ inner).
Proof. intros H. apply blank_app; [now split | exact H]. Qed.

(** Every plain value has a text, which starts as a value does and which
    the parser reads back as the value, whatever follows. *)
Lemma print_reads_back v :
  plain v -> forall indent, blank indent -> exists t, forall f, reads_back indent f v t.
Proof.
  induction v as [| |b|x|s|l IH|props IH] using value_nested_ind;
    intros Hp indent Hindent.
  - contradiction.
  - exists "null". intros f. split; [reflexivity|]. split; [reflexivity|].
    intros Hf rest _. destruct f; [cbn in Hf; lia | reflexivity].
  - exists (if b then "true" else "false"). intros f.
    split; [reflexivity|]. split; [now destruct b|].
    intros Hf rest _. destruct f; [lia|]. now destruct b.
  - cbn [plain] in Hp. exists (Json.print_number x). intros f.
    destruct (numeral_starts _ _ _ Hp) as (c & t' & E & Hc).
    split; [reflexivity|]. split.
    + rewrite E. now apply numeral_head_value_head.
    + intros Hf rest Hrest. destruct f; [lia|].
      rewrite E, app_String, (value_numeral _ _ _ Hc), <- app_String, <- E.
      now rewrite (numeral_app _ _ _ Hrest Hp).
  - cbn [plain] in Hp. exists (Json.quote s). intros f.
    split; [reflexivity|]. split; [reflexivity|].
    intros Hf rest _. destruct f; [lia|].
    unfold Json.quote. rewrite !app_assoc_string.
    change (JS.dq +:+ ?x) with (String JS.DQ x) at 1.
    now rewrite value_string, string_body_escape.
  - apply plain_Array in Hp.
    pose proof (blank_inner _ Hindent) as Hinner.
    assert (exists ts, Forall2 (fun v t => forall f, reads_back (indent +:+ "  ") f v t) l ts)
      as [ts Hts].
    { apply Forall_exists_Forall2. rewrite Forall_forall in *. intros v Hv.
      apply IH; [exact Hv | now apply Hp | exact Hinner]. }
    eexists. intros f. split.
    { apply (print_Array _ _ ts). eapply Forall2_impl; [exact Hts|].
      intros v t Hvt. apply (Hvt O). }
    set (inner := indent +:+ "  ") in *. clearbody inner.
    destruct Hts as [|v1 t1 vs ts' H1 Hts].
    + split; [reflexivity|]. intros Hf rest _. destruct f; [lia | reflexivity].
    + split; [reflexivity|]. intros Hf rest Hrest. destruct f as [|f]; [lia|].
      rewrite !app_assoc_string, app_one, value_array.
      rewrite !length_app in Hf. cbn [String.length] in Hf.
      destruct (H1 f) as (_ & Hstart & Hread).
      rewrite <- (app_assoc_string JS.nl).
      rewrite skip_ws_blank by (now apply blank_nl_inner).
      destruct (starts_value_facts t1
                  (after_first ("," +:+ JS.nl +:+ inner) ts' +:+
                   JS.nl +:+ indent +:+ "]" +:+ rest) Hstart) as (-> & -> & _ & _).
      rewrite value_blank by (now apply blank_nl_inner).
      rewrite Hread; [|lia|apply ends_numeral_after_first].
      rewrite (more_elements_print inner indent f rest vs ts'); [reflexivity| | | | |].
      * exact Hinner.
      * exact Hindent.
      * eapply Forall2_impl; [exact Hts|]. intros v t Hvt. apply Hvt.
      * apply Forall_forall. intros t Ht.
        pose proof (length_after_first_elem ("," +:+ JS.nl +:+ inner) _ _ Ht). lia.
      * cbn [String.length]. rewrite !length_app.
        pose proof (length_after_first "," (JS.nl +:+ inner) ts') as Hlen.
        apply Forall2_length in Hts.
        change (String "," (JS.nl +:+ inner)) with ("," +:+ JS.nl +:+ inner) in Hlen. lia.
  - apply plain_Object in Hp as [Hp Hnd].
    pose proof (blank_inner _ Hindent) as Hinner.
    assert (exists ms,
              Forall2 (fun kv m => forall f, member_reads_back (indent +:+ "  ") f kv m)
                props ms) as [ms Hms].
    { apply Forall_exists_Forall2. rewrite Forall_forall in *. intros [k v] Hkv.
      destruct (Hp _ Hkv) as [Hk Hv]. cbn [fst snd] in *.
      destruct (IH _ Hkv Hv _ Hinner) as [t Ht].
      exists (member_text k t). intros f. exists t.
      split; [reflexivity|]. split; [exact Hk | exact (Ht f)]. }
    eexists. intros f. split.
    { apply (print_Object _ _ ms). eapply Forall2_impl; [exact Hms|].
      intros kv m Hm. destruct (Hm O) as (t & -> & _ & Ht & _). now exists t. }
    set (inner := indent +:+ "  ") in *. clearbody inner.
    destruct Hms as [|[k1 v1] m1 kvs ms' H1 Hms].
    + split; [reflexivity|]. intros Hf rest _. destruct f; [lia | reflexivity].
    + split; [reflexivity|]. intros Hf rest Hrest. destruct f as [|f]; [lia|].
      rewrite !app_assoc_string, app_one, value_object.
      rewrite !length_app in Hf. cbn [String.length] in Hf.
      destruct (H1 f) as (t1 & -> & Hk1 & Hv1). cbn [fst snd] in *.
      rewrite <- (app_assoc_string JS.nl).
      rewrite skip_ws_blank by (now apply blank_nl_inner).
      assert (starts_value (member_text k1 t1)) as Hstart by reflexivity.
      destruct (starts_value_facts (member_text k1 t1)
                  (after_first ("," +:+ JS.nl +:+ inner) ms' +:+
                   JS.nl +:+ indent +:+ "}" +:+ rest) Hstart) as (-> & _ & -> & _).
      rewrite (member_print inner f k1 v1 t1); try assumption.
      * rewrite (more_members_print inner indent f rest kvs ms').
        -- now rewrite object_of_NoDup.
        -- exact Hinner.
        -- exact Hindent.
        -- eapply Forall2_impl; [exact Hms|]. intros kv m Hm. apply Hm.
        -- apply Forall_forall. intros m Hm.
           pose proof (length_after_first_elem ("," +:+ JS.nl +:+ inner) _ _ Hm). lia.
        -- cbn [String.length]. rewrite !length_app.
           pose proof (length_after_first "," (JS.nl +:+ inner) ms') as Hlen.
           apply Forall2_length in Hms.
           change (String "," (JS.nl +:+ inner)) with ("," +:+ JS.nl +:+ inner) in Hlen. lia.
      * now apply blank_nl_inner.
      * unfold member_text in Hf. rewrite !length_app in Hf. lia.
      * apply ends_numeral_after_first.
Qed.

(** Parsing the text printed for a plain value gives the value back. *)
Lemma parse_stringify v : plain v -> Json.parse (Json.stringify v) = JS.Normal v.
Proof.
  intros Hp. destruct (print_reads_back v Hp "" I) as [t Ht].
  destruct (Ht (S (String.length t))) as (Hprint & _ & Hread).
  pose proof (Hread (Nat.lt_succ_diag_r _) "" I) as Hvalue.
  rewrite app_empty_r in Hvalue.
  unfold Json.stringify, Json.parse. rewrite Hprint.
  change (default "" (Some t)) with t. now rewrite Hvalue.
Qed.

End RoundTrip.

(** What the reader adds to a JSON parser. For any [JSON.parse], when it
    returns a value on the content of a file of format json, [readConfig]
    gives the content as read, that value as [parsed] and no [error]; so,
    with the parser and the printer of [Json], the text printed for a
    plain value is read back as that value. What [JSON.parse] itself
    returns on a well-formed text, a number being a double rounded from
    its numeral, is the runtime's matter and is not modelled beyond the
    fragment of [Json]. *)
Lemma readConfig_json_round_trip fs plist_parse yaml_load loc :
  ConfigLocation.type loc = TFile ->
  ConfigLocation.format loc = FJson ->
  (forall JSON_parse content v,
     Fs.sys_readFile fs (ConfigLocation.path loc) = inr content ->
     JSON_parse content = JS.Normal v ->
     readConfig fs JSON_parse plist_parse yaml_load loc =
       JS.Normal (ConfigContent.mk (ConfigLocation.path loc) content (Some v) "json" None)) /\
  (forall v,
     plain v ->
     Fs.sys_readFile fs (ConfigLocation.path loc) = inr (Json.stringify v) ->
     readConfig fs Json.parse plist_parse yaml_load loc =
       JS.Normal (ConfigContent.mk (ConfigLocation.path loc) (Json.stringify v)
                    (Some v) "json" None)).
Proof.
  intros Ht Hf. split.
  - intros JSON_parse content v Hr Hv. now apply readConfig_json_well_formed.
  - intros v Hp Hr. apply readConfig_json_well_formed; try assumption.
    now apply parse_stringify.
Qed.

(** ** The reader on concrete files *)

(** Parsers for the examples: [Json.parse] for JSON, and for YAML too
    (a JSON text is a YAML document); no property list is recognised. *)
Definition no_plist (content : string) : JS.Completion JS.value :=
  JS.Throw (JS.Error "Unexpected end of property list").

(** A settings object, and the text [Json.stringify] writes for it. *)
Definition settings : JS.value :=
  JS.Object [
    ("name", JS.Str "demo");
    ("theme", JS.Str "Dark");
    ("tabs", JS.Array [JS.Number 2; JS.Number 4]);
    ("wrap", JS.Bool true);
    ("extra", JS.Null)
  ].

Definition sixty_lines : string :=
  JS.join JS.nl ((fun n => "line " +:+ JS.nat_to_string n) <$> seq 1 60).

Fixpoint line_feeds (n : nat) : string :=
  match n with
  | O => EmptyString
  | S n' => String JS.LF (line_feeds n')
  end.

Definition config_tree : gmap string Fs.Node :=
  list_to_map [
    ("/cfg/settings.json", Fs.File (Json.stringify settings));
    ("/cfg/broken.json", Fs.File (JS.text "{'theme': "));
    ("/cfg/secret.json", Fs.Unreadable Fs.RegularFile);
    ("/cfg/zero.json", Fs.File (line_feeds 55 +:+ "0"));
    ("/cfg/notes.txt", Fs.File sixty_lines);
    ("/cfg/dir", Fs.Dir ["a.json"; ".hidden"; "b.txt"])
  ].

Definition config_fs : Fs.FileSystem := Fs.of_tree config_tree.

Definition json_file (p : string) : ConfigLocation.t :=
  ConfigLocation.mk p TFile "a JSON file" FJson.

Section OnConcreteFiles.

Local Abbreviation read := (readConfig config_fs Json.parse no_plist Json.parse).
Local Abbreviation search := (searchInConfig config_fs Json.parse no_plist Json.parse).
Local Abbreviation display := (formatConfigForDisplay Json.stringify).

Example settings_text :
  JS.split_lines (Json.stringify settings) =
    [ "{";
      JS.text "  'name': 'demo',";
      JS.text "  'theme': 'Dark',";
      JS.text "  'tabs': [";
      "    2,";
      "    4";
      "  ],";
      JS.text "  'wrap': true,";
      JS.text "  'extra': null";
      "}" ].
Proof. vm_compute. reflexivity. Qed.

Lemma readConfig_reports_failures_inline_witness :
  read (json_file "/cfg/broken.json") =
    JS.Normal (ConfigContent.mk "/cfg/broken.json" (JS.text "{'theme': ") None "json"
                 (Some "Parse error: Unexpected token in JSON")) /\
  read (json_file "/cfg/secret.json") =
    JS.Normal (ConfigContent.mk "/cfg/secret.json" "" None "json"
                 (Some "EACCES: permission denied, open '/cfg/secret.json'")).
Proof.
  split.
  - destruct (readConfig_reports_failures_inline config_fs Json.parse no_plist Json.parse
                (json_file "/cfg/broken.json") eq_refl) as (Hparse & _ & _).
    destruct (Hparse (JS.text "{'theme': ") Json.parse (JS.Error "Unexpected token in JSON"))
      as (m & Hread & -> & _); [vm_compute; reflexivity | reflexivity | vm_compute; reflexivity |].
    exact Hread.
  - destruct (readConfig_reports_failures_inline config_fs Json.parse no_plist Json.parse
                (json_file "/cfg/secret.json") eq_refl) as (_ & Hio & _).
    destruct (Hio Fs.EACCES) as (m & Hm & Hread); [vm_compute; reflexivity|].
    rewrite Hread. vm_compute in Hm. injection Hm as <-. reflexivity.
Defined.

Lemma readConfig_json_round_trip_witness :
  read (json_file "/cfg/settings.json") =
    JS.Normal (ConfigContent.mk "/cfg/settings.json" (Json.stringify settings)
                 (Some settings) "json" None).
Proof.
  destruct (readConfig_json_round_trip config_fs no_plist Json.parse
              (json_file "/cfg/settings.json") eq_refl eq_refl) as [_ Hround].
  apply (Hround settings).
  - cbn. repeat split; try (vm_compute; reflexivity).
    apply (bool_decide_unpack _). vm_compute. exact I.
  - vm_compute. reflexivity.
Defined.


Example directory_listing :
  listing ["a.json"; "b.txt"] =
    "Directory contents:" +:+ JS.nl +:+ "  a.json" +:+ JS.nl +:+ "  b.txt".
Proof. reflexivity. Qed.


Example search_broken : search (json_file "/cfg/broken.json") "theme" = JS.Normal [].
Proof. vm_compute. reflexivity. Qed.

(** C8 as stated fails: the file [zero.json] parses, without error, to
    the value 0, and its display is not the dump of that value but the
    first 50 of its 56 lines with the notice. *)
Lemma parsed_zero_not_dumped :
  exists cc,
    read (json_file "/cfg/zero.json") = JS.Normal cc /\
    ConfigContent.format cc = "json" /\
    ConfigContent.error cc = None /\
    ConfigContent.parsed cc = Some (JS.Number 0) /\
    display cc = header cc +:+ line_feeds 49 +:+ notice 56 /\
    Json.stringify (JS.Number 0) = "0" /\
    String.eqb (display cc) (header cc +:+ Json.stringify (JS.Number 0)) = false.
Proof.
  eexists. split; [vm_compute; reflexivity|].
  repeat split; vm_compute; reflexivity.
Qed.

Lemma formatConfigForDisplay_cases_witness :
  display (ConfigContent.mk "/cfg/notes.txt" sixty_lines None "text" None) =
    header (ConfigContent.mk "/cfg/notes.txt" sixty_lines None "text" None) +:+
    JS.join JS.nl (take 50 (JS.split_lines sixty_lines)) +:+ notice 60 /\
  JS.split_lines
    (display (ConfigContent.mk "/cfg/compact.json" (JS.text "{'tabs':[2,4]}")
                (Some (JS.Object [("tabs", JS.Array [JS.Number 2; JS.Number 4])]))
                "json" None)) =
    [page_icon +:+ " /cfg/compact.json"; "Format: json"; "";
     "{"; JS.text "  'tabs': ["; "    2,"; "    4"; "  ]"; "}"] /\
  display (ConfigContent.mk "/cfg/secret.json" "" None "json" (Some "EACCES")) =
    "Error reading /cfg/secret.json: EACCES" /\
  one_line (display (ConfigContent.mk "/cfg/secret.json" "" None "json" (Some "EACCES"))).
Proof.
  split; [|split; [|split]].
  - destruct (formatConfigForDisplay_cases Json.stringify
                (ConfigContent.mk "/cfg/notes.txt" sixty_lines None "text" None))
      as (_ & Hcases).
    destruct (Hcases (or_introl eq_refl)) as (_ & _ & Hraw & _ & Hcut).
    rewrite Hraw; [|discriminate | left; intros [E|E]; discriminate].
    destruct Hcut as (-> & _); [vm_compute; lia|]. reflexivity.
  - destruct (formatConfigForDisplay_cases Json.stringify
                (ConfigContent.mk "/cfg/compact.json" (JS.text "{'tabs':[2,4]}")
                   (Some (JS.Object [("tabs", JS.Array [JS.Number 2; JS.Number 4])]))
                   "json" None)) as (_ & Hcases).
    destruct (Hcases (or_introl eq_refl)) as (_ & Hdump & _).
    rewrite (Hdump (JS.Object [("tabs", JS.Array [JS.Number 2; JS.Number 4])]));
      [vm_compute; reflexivity | now left | reflexivity | reflexivity].
  - destruct (formatConfigForDisplay_cases Json.stringify
                (ConfigContent.mk "/cfg/secret.json" "" None "json" (Some "EACCES")))
      as (Herror & _).
    destruct (Herror "EACCES" eq_refl) as (-> & _); [discriminate | reflexivity].
  - destruct (formatConfigForDisplay_cases Json.stringify
                (ConfigContent.mk "/cfg/secret.json" "" None "json" (Some "EACCES")))
      as (Herror & _).
    destruct (Herror "EACCES" eq_refl) as (_ & Hline); [discriminate|].
    apply Hline; cbn; repeat split; discriminate.
Defined.

Example sixty_lines_cut :
  JS.split_lines
    (display (ConfigContent.mk "/cfg/notes.txt" sixty_lines None "text" None)) =
  [page_icon +:+ " /cfg/notes.txt"; "Format: text"; ""]
  ++ ((fun n => "line " +:+ JS.nat_to_string n) <$> seq 1 50)
  ++ [""; "... (showing first 50 lines of 60 total lines)"].
Proof. vm_compute. reflexivity. Qed.

Lemma falsy_parsed_value_displayed_raw_witness :
  exists cc,
    read (json_file "/cfg/zero.json") = JS.Normal cc /\
    ConfigContent.error cc = None /\
    ConfigContent.parsed cc = Some (JS.Number 0) /\
    display cc = header cc +:+ raw_text (line_feeds 55 +:+ "0").
Proof.
  apply (falsy_parsed_value_displayed_raw config_fs Json.parse no_plist Json.parse
           Json.stringify (json_file "/cfg/zero.json") (line_feeds 55 +:+ "0")
           Json.parse (JS.Number 0)).
  - reflexivity.
  - now left.
  - vm_compute. reflexivity.
  - reflexivity.
  - vm_compute. reflexivity.
  - vm_compute. reflexivity.
Defined.

End OnConcreteFiles.

(** * Further properties of the registry *)

(** The locations declared for an entry, and what a resolution of [key]
    finds in the state [st]: the declared locations that are present, with
    their paths expanded. *)
Definition declared_values (st : State) (app : AppConfig) : list ConfigLocation.t :=
  omap (fun r => objects st !! r) (configs app).

Definition resolution (fs : Fs.FileSystem) (homedir : string) (st : State) (key : string)
  : list ConfigLocation.t :=
  match APP_CONFIGS st !! JS.toLowerCase key with
  | Some app => resolved homedir <$> filter (present fs homedir) (declared_values st app)
  | None => []
  end.

Section Resolving.

Context (fs : Fs.FileSystem) (homedir : string).

Lemma deref_all_omap st l d :
  deref_all st l = Some d -> omap (fun r => objects st !! r) l = d.
Proof.
  unfold deref_all. revert d. induction l as [|r l IH]; intros d H.
  - now injection H as <-.
  - apply mapM_Some in H. apply Forall2_cons_inv_l in H as (c & d' & Hc & Hl & ->).
    cbn [omap list_omap]. rewrite Hc. f_equal. apply IH. now apply mapM_Some.
Qed.

Lemma deref_all_weaken st st' l d :
  objects st ⊆ objects st' -> deref_all st l = Some d -> deref_all st' l = Some d.
Proof.
  unfold deref_all. intros Hsub H. apply mapM_Some. apply mapM_Some in H.
  eapply Forall2_impl; [exact H|]. intros r c Hr. simpl in Hr.
  eapply lookup_weaken; eauto.
Qed.

Lemma deref_all_length st l d : deref_all st l = Some d -> length d = length l.
Proof. unfold deref_all. intros H. symmetry. now apply length_mapM in H. Qed.

Lemma deref_all_elem st l d r :
  deref_all st l = Some d -> r ∈ l -> is_Some (objects st !! r).
Proof.
  unfold deref_all. intros H Hin. apply mapM_Some in H.
  apply list_elem_of_lookup in Hin as [i Hi].
  destruct (Forall2_lookup_l _ _ _ _ _ H Hi) as (c & _ & Hc). now exists c.
Qed.

(** In a well-formed state a resolution returns, and returns new objects
    that hold what [resolution] says; the state it leaves is well formed,
    with the same table and every object it had. *)
Lemma findConfigsForApp_ok st key :
  well_formed st ->
  exists found st',
    findConfigsForApp fs homedir key st = (JS.Normal found, st') /\
    deref_all st' found = Some (resolution fs homedir st key) /\
    objects st ⊆ objects st' /\
    Forall (fun r => objects st !! r = None) found /\
    key_order st' = key_order st /\
    APP_CONFIGS st' = APP_CONFIGS st /\
    well_formed st'.
Proof.
  intros Hwf. rewrite findConfigsForApp_unfold. unfold resolution.
  destruct (APP_CONFIGS st !! JS.toLowerCase key) as [app|] eqn:Hk.
  - destruct (well_formed_deref _ _ _ Hwf Hk) as [declared Hd].
    destruct (for_each_config_spec fs homedir _ [] _ _ Hd)
      as (found & st' & Hrun & Hder & Hsub & Hnew & Hko & Ht).
    exists found, st'. unfold declared_values. rewrite (deref_all_omap _ _ _ Hd).
    repeat split; auto. now apply (well_formed_weaken st).
  - exists [], st. now repeat split.
Qed.

(** What a resolution finds depends on the table and on the objects the
    table refers to, not on the other objects. *)
Lemma resolution_stable st st' key :
  well_formed st -> objects st ⊆ objects st' -> APP_CONFIGS st' = APP_CONFIGS st ->
  resolution fs homedir st' key = resolution fs homedir st key.
Proof.
  intros Hwf Hsub Ht. unfold resolution. rewrite Ht.
  destruct (APP_CONFIGS st !! JS.toLowerCase key) as [app|] eqn:Hk; [|reflexivity].
  destruct (well_formed_deref _ _ _ Hwf Hk) as [declared Hd]. unfold declared_values.
  now rewrite (deref_all_omap _ _ _ Hd),
    (deref_all_omap _ _ _ (deref_all_weaken _ _ _ _ Hsub Hd)).
Qed.


(** The loop over the keys, in a well-formed state. *)
Lemma for_each_app_ok keys : forall result st,
  well_formed st ->
  exists entries st',
    for_each_app fs homedir keys result st = (JS.Normal (result ++ entries), st') /\
    entries.*1 = keys /\
    Forall (fun e => deref_all st' e.2 = Some (resolution fs homedir st e.1)) entries /\
    objects st ⊆ objects st' /\
    key_order st' = key_order st /\
    APP_CONFIGS st' = APP_CONFIGS st /\
    well_formed st'.
Proof.
  induction keys as [|k keys IH]; intros result st Hwf.
  - exists [], st. rewrite app_nil_r. now repeat split.
  - rewrite for_each_app_cons.
    destruct (findConfigsForApp_ok st k Hwf)
      as (found & st1 & -> & Hder & Hsub & _ & Hko & Ht & Hwf1).
    destruct (IH (result ++ [(k, found)]) st1 Hwf1)
      as (entries & st' & -> & Hkeys & Hall & Hsub' & Hko' & Ht' & Hwf').
    exists ((k, found) :: entries), st'. rewrite <- app_assoc.
    repeat split; auto.
    + cbn. now rewrite Hkeys.
    + constructor.
      * cbn. now apply (deref_all_weaken st1).
      * eapply Forall_impl; [exact Hall|]. intros e He. cbn in He.
        now rewrite <- (resolution_stable st st1).
    + etrans; eauto.
    + congruence.
    + congruence.
Qed.

Lemma reachable_key_order st :
  reachable fs homedir st -> key_order st = key_order initial.
Proof.
  induction 1 as [|op st Hr IH Hrefs | c st Hr IH]; [reflexivity| |exact IH].
  destruct (run_frame fs homedir op st) as (_ & -> & _). exact IH.
Qed.

(** X1. In every state the registry can be in, [getAllAvailableConfigs]
    ends normally with one entry for each of the five built-in keys, in
    the order of the table; the entry of a key holds what
    [findConfigsForApp] returns for that key: the declared locations that
    are present, with their paths expanded. The table is left as it was. *)
Theorem getAllAvailableConfigs_resolves_every_key st :
  reachable fs homedir st ->
  exists result st',
    getAllAvailableConfigs fs homedir st = (JS.Normal result, st') /\
    result.*1 = ["gemini"; "claude desktop"; "claude code"; "vscode"; "cursor"] /\
    Forall (fun e =>
              deref_all st' e.2 = Some (resolution fs homedir st e.1) /\
              exists found st1,
                findConfigsForApp fs homedir e.1 st = (JS.Normal found, st1) /\
                deref_all st1 found = deref_all st' e.2) result /\
    APP_CONFIGS st' = APP_CONFIGS st /\
    objects st ⊆ objects st'.
Proof.
  intros Hr. pose proof (reachable_key_order st Hr) as Hko.
  destruct (reachable_invariant fs homedir st Hr) as (Hwf & _).
  unfold getAllAvailableConfigs, mbind, M_bind, getAvailableApps.
  destruct (for_each_app_ok (key_order st) [] st Hwf)
    as (entries & st' & -> & Hkeys & Hall & Hsub & _ & Ht & _).
  exists entries, st'. cbn [app]. repeat split; auto.
  - now rewrite Hkeys, Hko.
  - eapply Forall_impl; [exact Hall|]. intros e He. cbn in He. split; [exact He|].
    destruct (findConfigsForApp_ok st e.1 Hwf) as (found & st1 & Hrun & Hder & _).
    exists found, st1. split; [exact Hrun | congruence].
Qed.

(** What a resolution finds after a location has been added. *)
Lemma resolution_add st k r c app k' :
  objects st !! r = Some c ->
  APP_CONFIGS st !! JS.toLowerCase k = Some app ->
  resolution fs homedir (run fs homedir (AddConfigLocation k r) st) k' =
    if decide (JS.toLowerCase k' = JS.toLowerCase k)
    then resolution fs homedir st k ++
           (if decide (present fs homedir c) then [resolved homedir c] else [])
    else resolution fs homedir st k'.
Proof.
  intros Hc Hk. unfold resolution. cbn [run]. unfold addConfigLocation. rewrite Hk.
  cbn [snd APP_CONFIGS]. rewrite lookup_insert.
  destruct (decide (JS.toLowerCase k' = JS.toLowerCase k)) as [E|E].
  - rewrite decide_True by congruence.
    unfold declared_values. cbn [configs objects].
    rewrite omap_app, filter_app, fmap_app. f_equal.
    cbn [omap list_omap]. rewrite Hc.
    destruct (decide (present fs homedir c)) as [Hp|Hn].
    + now rewrite filter_cons_True.
    + now rewrite filter_cons_False.
  - rewrite decide_False by congruence. reflexivity.
Qed.

(** X2. Adding is additive. When [addConfigLocation] is given a key in
    the ASCII range that the table has, in any letter case, and an object
    [c], a resolution of that key right after returns what a resolution
    right before returns, followed by [c] with its path expanded if [c]
    is present, and by nothing if it is not; and, in a state where every
    entry has an array of its own, resolutions of the other keys are not
    affected. *)
Theorem addConfigLocation_then_findConfigsForApp st k r c :
  well_formed st ->
  objects st !! r = Some c ->
  ascii_only k ->
  is_Some (APP_CONFIGS st !! JS.toLowerCase k) ->
  let st_added := run fs homedir (AddConfigLocation k r) st in
  (exists before st1 after st2 values,
     findConfigsForApp fs homedir k st = (JS.Normal before, st1) /\
     findConfigsForApp fs homedir k st_added = (JS.Normal after, st2) /\
     deref_all st1 before = Some values /\
     deref_all st2 after =
       Some (values ++ if decide (present fs homedir c) then [resolved homedir c] else [])) /\
  (grown fs homedir st ->
   forall k', own_lookup k' -> JS.toLowerCase k' <> JS.toLowerCase k ->
     exists before st1 after st2,
       findConfigsForApp fs homedir k' st = (JS.Normal before, st1) /\
       findConfigsForApp fs homedir k' st_added = (JS.Normal after, st2) /\
       deref_all st2 after = deref_all st1 before).
Proof.
  intros Hwf Hc _ [app Hk] st_added.
  assert (well_formed st_added) as Hwf'
    by (apply run_well_formed; [exact Hwf | now exists c]).
  split.
  - destruct (findConfigsForApp_ok st k Hwf) as (before & st1 & H1 & D1 & _).
    destruct (findConfigsForApp_ok st_added k Hwf') as (after & st2 & H2 & D2 & _).
    exists before, st1, after, st2, (resolution fs homedir st k).
    repeat split; auto. rewrite D2. unfold st_added.
    rewrite (resolution_add _ _ _ _ _ _ Hc Hk). now rewrite decide_True.
  - intros _ k' _ Hk'.
    destruct (findConfigsForApp_ok st k' Hwf) as (before & st1 & H1 & D1 & _).
    destruct (findConfigsForApp_ok st_added k' Hwf') as (after & st2 & H2 & D2 & _).
    exists before, st1, after, st2. repeat split; auto. rewrite D1, D2. unfold st_added.
    rewrite (resolution_add _ _ _ _ _ _ Hc Hk). now rewrite decide_False.
Qed.

(** X23. Replacing replaces. When [updateAppConfigs] is given a key that
    the table has, in any letter case, and references to objects, a
    resolution of that key right after returns the given objects that are
    present, with their paths expanded, in the given order, and nothing
    of what was declared before; with the empty array it returns
    nothing. *)
Theorem updateAppConfigs_then_findConfigsForApp st k l values :
  well_formed st ->
  deref_all st l = Some values ->
  is_Some (APP_CONFIGS st !! JS.toLowerCase k) ->
  exists found st',
    findConfigsForApp fs homedir k (run fs homedir (UpdateAppConfigs k l) st)
      = (JS.Normal found, st') /\
    deref_all st' found = Some (resolved homedir <$> filter (present fs homedir) values) /\
    (l = [] -> found = []).
Proof.
  intros Hwf Hl [app Hk].
  set (st_updated := run fs homedir (UpdateAppConfigs k l) st).
  assert (well_formed st_updated) as Hwf'.
  { apply run_well_formed; [exact Hwf|]. cbn.
    apply Forall_forall. intros r Hr. exact (deref_all_elem _ _ _ _ Hl Hr). }
  destruct (findConfigsForApp_ok st_updated k Hwf') as (found & st' & Hrun & Hder & _).
  assert (resolution fs homedir st_updated k
          = resolved homedir <$> filter (present fs homedir) values) as Hres.
  { unfold resolution, st_updated. cbn [run]. unfold updateAppConfigs. rewrite Hk.
    cbn [snd APP_CONFIGS]. rewrite lookup_insert_eq.
    unfold declared_values. cbn [configs objects]. now rewrite (deref_all_omap _ _ _ Hl). }
  exists found, st'. split; [exact Hrun|]. split; [now rewrite Hder, Hres|].
  intros ->. injection Hl as <-. rewrite Hres in Hder. cbn in Hder.
  apply deref_all_length in Hder. now destruct found.
Qed.

(** X3. Every operation that takes an application key takes it up to
    letter case: two keys that differ only in letter case give the same
    result and the same state, for a resolution and for both writes. *)
Theorem keyed_operations_ignore_letter_case st k1 k2 :
  differ_only_in_case k1 k2 ->
  findConfigsForApp fs homedir k1 st = findConfigsForApp fs homedir k2 st /\
  (forall r, addConfigLocation k1 r st = addConfigLocation k2 r st) /\
  (forall l, updateAppConfigs k1 l st = updateAppConfigs k2 l st).
Proof.
  intros Hd. apply toLowerCase_eq_iff in Hd.
  rewrite !findConfigsForApp_unfold. unfold addConfigLocation, updateAppConfigs.
  now rewrite Hd.
Qed.

(** X5. In every state the registry can be in, the applications are the
    five built-in ones: [getAvailableApps] lists them, and for a key on
    which the table is looked up among its own keys, [getAppConfig] finds
    an entry exactly when the key is one of their names in any letter
    case, and [findConfigsForApp] ends normally, in a state the registry
    can be in. *)
Theorem reachable_states_keep_the_built_in_keys st :
  reachable fs homedir st ->
  getAvailableApps st =
    (JS.Normal ["gemini"; "claude desktop"; "claude code"; "vscode"; "cursor"], st) /\
  (forall key, own_lookup key ->
     exists r,
       getAppConfig key st = (JS.Normal r, st) /\
       (is_Some r <->
        JS.toLowerCase key ∈ ["gemini"; "claude desktop"; "claude code"; "vscode"; "cursor"])) /\
  (forall key, own_lookup key ->
     exists found st',
       findConfigsForApp fs homedir key st = (JS.Normal found, st') /\
       reachable fs homedir st').
Proof.
  intros Hr. destruct (reachable_invariant fs homedir st Hr) as (Hwf & _ & Hdom).
  repeat split.
  - unfold getAvailableApps. now rewrite (reachable_key_order st Hr).
  - intros key _. eexists. split; [reflexivity|].
    rewrite <- elem_of_dom, Hdom. unfold initial. cbn [APP_CONFIGS].
    rewrite dom_list_to_map_L, elem_of_list_to_set. reflexivity.
  - intros key _.
    destruct (findConfigsForApp_ok st key Hwf) as (found & st' & Hrun & _).
    exists found, st'. split; [exact Hrun|].
    replace st' with (run fs homedir (FindConfigsForApp key) st)
      by (cbn [run]; now rewrite Hrun).
    now apply reachable_run.
Qed.

End Resolving.

Section ResolvingAgain.

Context (fs1 fs2 : Fs.FileSystem) (homedir : string).

(** X6. Nothing is cached. Of two resolutions of a key in a row, the
    second returns what the file system holds when it runs, whatever it
    held at the first: with the file system [fs1] at the first call and
    [fs2] at the second, the first result holds the declared locations
    present in [fs1] and the second those present in [fs2]; and no object
    of the second is an object of the first. The key is one on which the
    table is looked up among its own keys. *)
Theorem findConfigsForApp_twice st key :
  well_formed st ->
  own_lookup key ->
  exists first st1 second st2,
    findConfigsForApp fs1 homedir key st = (JS.Normal first, st1) /\
    findConfigsForApp fs2 homedir key st1 = (JS.Normal second, st2) /\
    deref_all st2 first = Some (resolution fs1 homedir st key) /\
    deref_all st2 second = Some (resolution fs2 homedir st key) /\
    Forall (fun r => r ∉ first) second.
Proof.
  intros Hwf _.
  destruct (findConfigsForApp_ok fs1 homedir st key Hwf)
    as (first & st1 & H1 & D1 & Hsub1 & _ & _ & Ht1 & Hwf1).
  destruct (findConfigsForApp_ok fs2 homedir st1 key Hwf1)
    as (second & st2 & H2 & D2 & Hsub2 & Hnew & _).
  exists first, st1, second, st2.
  repeat split; auto.
  - now apply (deref_all_weaken st1).
  - now rewrite <- (resolution_stable fs2 homedir st st1).
  - eapply Forall_impl; [exact Hnew|]. intros r Hr Hin. cbn in Hr.
    destruct (deref_all_elem _ _ _ _ D1 Hin) as [c Hc]. congruence.
Qed.

End ResolvingAgain.

(** ** The placeholder and the replacement text *)

Section Placeholder.

Lemma getSubstitution_app matched before after (h r : string) :
  dollar_free h ->
  JS.getSubstitution matched before after (h +:+ r) =
    h +:+ JS.getSubstitution matched before after r.
Proof.
  induction h as [|c h IH]; [reflexivity|]. intros [Hc Hh].
  rewrite !app_String. cbn [JS.getSubstitution].
  apply Ascii.eqb_neq in Hc. now rewrite Hc, (IH Hh).
Qed.

(** X4. The home directory is used as the replacement text of
    [String.prototype.replace], in which a dollar sign is special. In a
    home directory that holds, between stretches free of dollar signs,
    one of the four patterns, the expansion of a path "~rest" does not
    hold the home directory as it is: "$$" gives one dollar sign, "$&"
    the placeholder itself, "$`" nothing (the text before the match), and
    "$'" the rest of the path (the text after the match). *)
Theorem expandPath_dollar_patterns (h1 h2 rest : string) :
  dollar_free h1 -> dollar_free h2 ->
  expandPath (h1 +:+ "$$" +:+ h2) ("~" +:+ rest) = (h1 +:+ "$" +:+ h2) +:+ rest /\
  expandPath (h1 +:+ "$&" +:+ h2) ("~" +:+ rest) = (h1 +:+ "~" +:+ h2) +:+ rest /\
  expandPath (h1 +:+ "$`" +:+ h2) ("~" +:+ rest) = (h1 +:+ h2) +:+ rest /\
  expandPath (h1 +:+ "$'" +:+ h2) ("~" +:+ rest) = (h1 +:+ rest +:+ h2) +:+ rest.
Proof.
  intros H1 H2. change ("~" +:+ rest) with (String "~" rest).
  unfold expandPath. rewrite Ascii.eqb_refl.
  rewrite (getSubstitution_app _ _ _ h1 ("$$" +:+ h2)) by assumption.
  rewrite (getSubstitution_app _ _ _ h1 ("$&" +:+ h2)) by assumption.
  rewrite (getSubstitution_app _ _ _ h1 ("$`" +:+ h2)) by assumption.
  rewrite (getSubstitution_app _ _ _ h1 ("$'" +:+ h2)) by assumption.
  change ("$$" +:+ h2) with (String "$" (String "$" h2)).
  change ("$&" +:+ h2) with (String "$" (String "&" h2)).
  change ("$`" +:+ h2) with (String "$" (String "`" h2)).
  change ("$'" +:+ h2) with (String "$" (String "'" h2)).
  cbn [JS.getSubstitution Ascii.eqb Bool.eqb].
  rewrite !getSubstitution_dollar_free by assumption.
  repeat split; reflexivity.
Qed.

(** X14. Expanding is idempotent when the home directory is absolute and
    free of dollar signs: an expanded path expands to itself, so the path
    of a resolved location can be declared again as it is. *)
Theorem expandPath_idempotent homedir path :
  absolute homedir -> dollar_free homedir ->
  expandPath homedir (expandPath homedir path) = expandPath homedir path.
Proof.
  intros [h Hh] Hd. destruct (JS.startsWith path "~") eqn:E.
  - apply startsWith_iff in E as [rest ->].
    rewrite expandPath_placeholder by assumption.
    rewrite Hh. change ("/" +:+ h) with (String "/" h). rewrite app_String.
    reflexivity.
  - rewrite (expandPath_other _ _ E). exact (expandPath_other _ _ E).
Qed.

End Placeholder.

(** ** Further properties of the reader *)

Section Numerals.

Lemma pretty_N_char_not_LF x : pretty_N_char x <> JS.LF.
Proof. unfold pretty_N_char. repeat case_match; discriminate. Qed.

Lemma pretty_N_go_one_line x : forall s, one_line s -> one_line (pretty_N_go x s).
Proof.
  induction (N.lt_wf_0 x) as [x _ IH]. intros s Hs.
  destruct (decide (x = 0)%N) as [-> | Hx]; [exact Hs|].
  rewrite pretty_N_go_step by lia. apply IH.
  - apply N.div_lt; lia.
  - split; [apply pretty_N_char_not_LF | exact Hs].
Qed.

(** A number in decimal is on one line. *)
Lemma nat_to_string_one_line n : one_line (JS.nat_to_string n).
Proof.
  unfold JS.nat_to_string, pretty, pretty_nat, pretty, pretty_N.
  case_decide; [now cbn|]. now apply pretty_N_go_one_line.
Qed.

End Numerals.

Section MoreLines.

(** The lines of two texts joined by a line feed are the lines of the
    first, then the lines of the second. *)
Lemma split_lines_app (a b : string) :
  JS.split_lines (a +:+ JS.nl +:+ b) = JS.split_lines a ++ JS.split_lines b.
Proof.
  induction a as [|c a IH]; [reflexivity|].
  rewrite app_String. cbn [JS.split_lines]. rewrite IH.
  destruct (Ascii.eqb c JS.LF); [reflexivity|].
  pose proof (split_lines_not_nil a) as Hn.
  now destruct (JS.split_lines a).
Qed.

End MoreLines.

Section ReaderShape.

Context (fs : Fs.FileSystem).
Context (JSON_parse plist_parse yaml_load : string -> JS.Completion JS.value).
Context (JSON_stringify : JS.value -> string).

Local Abbreviation readConfig := (readConfig fs JSON_parse plist_parse yaml_load).
Local Abbreviation searchInConfig := (searchInConfig fs JSON_parse plist_parse yaml_load).
Local Abbreviation formatConfigForDisplay := (formatConfigForDisplay JSON_stringify).
Local Abbreviation parser_for := (parser_for JSON_parse plist_parse yaml_load).

Lemma readConfig_path loc cc :
  readConfig loc = JS.Normal cc -> ConfigContent.path cc = ConfigLocation.path loc.
Proof.
  destruct (ConfigLocation.type loc) eqn:Ht.
  - rewrite (readConfig_file _ _ _ _ _ Ht).
    destruct (Fs.sys_readFile fs (ConfigLocation.path loc)) as [e|content] eqn:Hr.
    + rewrite (readFile_unreadable _ _ _ _ _ _ Hr). cbn. now intros [= <-].
    + rewrite (readFile_read _ _ _ _ _ _ Hr). intros [= <-].
      destruct (parser_for (ConfigLocation.format loc)) as [parse|];
        [now destruct (parse content)|reflexivity].
  - rewrite (readConfig_directory _ _ _ _ _ Ht).
    now destruct (Fs.sys_readdir fs (ConfigLocation.path loc)); intros [= <-].
Qed.

(** X7. The shape of what [readConfig] returns, for every location and
    every file system: the path is the location's; the format is
    "directory" for a location of type directory, whatever format it
    declares, and the declared format for a file; a result never carries
    both an [error] and a [parsed] value; a [parsed] value is there only
    for a directory or for a format that has a parser; and an [error]
    comes with an empty content (nothing was read) or is a parse error. *)
Theorem readConfig_result_shape loc :
  exists cc,
    readConfig loc = JS.Normal cc /\
    ConfigContent.path cc = ConfigLocation.path loc /\
    ConfigContent.format cc =
      match ConfigLocation.type loc with
      | TDirectory => "directory"
      | TFile => format_string (ConfigLocation.format loc)
      end /\
    (ConfigContent.error cc = None \/ ConfigContent.parsed cc = None) /\
    (is_Some (ConfigContent.parsed cc) ->
     ConfigLocation.type loc = TDirectory \/
     is_Some (parser_for (ConfigLocation.format loc))) /\
    (forall m, ConfigContent.error cc = Some m ->
       ConfigContent.content cc = "" \/ exists e, m = "Parse error: " +:+ e).
Proof.
  destruct (ConfigLocation.type loc) eqn:Ht.
  - rewrite (readConfig_file _ _ _ _ _ Ht).
    destruct (Fs.sys_readFile fs (ConfigLocation.path loc)) as [e|content] eqn:Hr.
    + rewrite (readFile_unreadable _ _ _ _ _ _ Hr).
      eexists. split; [reflexivity|]. cbn. repeat split; auto.
      intros [v Hv]. discriminate.
    + rewrite (readFile_read _ _ _ _ _ _ Hr).
      eexists. split; [reflexivity|].
      destruct (parser_for (ConfigLocation.format loc)) as [parse|] eqn:Hp;
        [destruct (parse content) as [v|e]|]; cbn; repeat split; auto;
        try (intros [v' Hv']; discriminate); try discriminate.
      intros m E. injection E as <-. right. now eexists.
  - rewrite (readConfig_directory _ _ _ _ _ Ht).
    destruct (Fs.sys_readdir fs (ConfigLocation.path loc)) as [e|entries];
      eexists; (split; [reflexivity|]); cbn; repeat split; auto; discriminate.
Qed.

(** X8. Reading and then displaying. When the read fails in any way, the
    display is the message "Error reading path: error" with the path of
    the location. When a directory can be listed, the display is the
    header followed by the whole listing, however many entries it has:
    the cut after 50 lines does not apply to a listing. *)
Theorem display_of_failed_read_or_listing loc :
  exists cc,
    readConfig loc = JS.Normal cc /\
    (forall m, ConfigContent.error cc = Some m ->
       formatConfigForDisplay cc =
         "Error reading " +:+ ConfigLocation.path loc +:+ ": " +:+ m) /\
    (forall entries,
       ConfigLocation.type loc = TDirectory ->
       Fs.sys_readdir fs (ConfigLocation.path loc) = inr entries ->
       ConfigContent.format cc = "directory" /\
       formatConfigForDisplay cc = header cc +:+ listing (fileList_of entries)).
Proof.
  destruct (readConfig_total fs JSON_parse plist_parse yaml_load loc) as (cc & Hcc & Herr).
  pose proof (readConfig_path _ _ Hcc) as Hpath.
  exists cc. split; [exact Hcc|]. split.
  - intros m Hm. unfold ConfigReader.formatConfigForDisplay. rewrite Hm, Hpath. cbn.
    specialize (Herr m Hm). apply String.eqb_neq in Herr. now rewrite Herr.
  - intros entries Ht Hl. rewrite (readConfig_directory _ _ _ _ _ Ht), Hl in Hcc.
    injection Hcc as <-. split; reflexivity.
Qed.

(** X9. Files that are not dumped. For a location of type file whose
    content can be read: declared as text, the content is not parsed; as
    yaml, it is parsed, and the display is still the raw text under the
    header, cut after 50 lines; declared with the format directory, it is
    read as a file, not parsed, and displayed whole under the header,
    however long it is. *)
Theorem file_formats_displayed_raw loc content :
  ConfigLocation.type loc = TFile ->
  Fs.sys_readFile fs (ConfigLocation.path loc) = inr content ->
  (ConfigLocation.format loc = FText ->
     readConfig loc =
       JS.Normal (ConfigContent.mk (ConfigLocation.path loc) content None "text" None)) /\
  (forall v,
     ConfigLocation.format loc = FYaml -> yaml_load content = JS.Normal v ->
     exists cc,
       readConfig loc = JS.Normal cc /\
       ConfigContent.parsed cc = Some v /\
       formatConfigForDisplay cc = header cc +:+ raw_text content) /\
  (ConfigLocation.format loc = FDirectory ->
     exists cc,
       readConfig loc = JS.Normal cc /\
       cc = ConfigContent.mk (ConfigLocation.path loc) content None "directory" None /\
       formatConfigForDisplay cc = header cc +:+ content).
Proof.
  intros Ht Hr. rewrite (readConfig_file _ _ _ _ _ Ht), (readFile_read _ _ _ _ _ _ Hr).
  repeat split.
  - now intros ->.
  - intros v -> Hv. cbn. rewrite Hv. eexists. split; [reflexivity|]. split; [reflexivity|].
    apply formatConfigForDisplay_raw; cbn; auto; try discriminate.
    left. intros [H|H]; discriminate.
  - intros ->. cbn. eexists. split; [reflexivity|]. split; reflexivity.
Qed.

Lemma forEach_line_term term1 term2 lines :
  JS.toLowerCase term1 = JS.toLowerCase term2 ->
  forall index matchingLines,
    forEach_line term1 lines index matchingLines =
    forEach_line term2 lines index matchingLines.
Proof.
  intros Ht. induction lines as [|line rest IH]; intros index acc; [reflexivity|].
  cbn [forEach_line]. now rewrite Ht, IH.
Qed.

(** X10. The search is insensitive to the letter case of the term: two
    terms that differ only in letter case give the same result on every
    location. *)
Theorem searchInConfig_term_case loc term1 term2 :
  differ_only_in_case term1 term2 ->
  searchInConfig loc term1 = searchInConfig loc term2.
Proof.
  intros Hd. apply toLowerCase_eq_iff in Hd.
  unfold ConfigReader.searchInConfig.
  destruct (readConfig loc) as [cc|e]; [|reflexivity]. cbn.
  destruct (JS.truthy_opt_string (ConfigContent.error cc)); [reflexivity|].
  now rewrite (forEach_line_term _ _ _ Hd).
Qed.

Lemma contains_ignoring_case_empty line : contains_ignoring_case line "".
Proof.
  exists "", "", line. split; [reflexivity|]. now apply toLowerCase_eq_iff.
Qed.

Lemma filter_all {A} (P : A -> Prop) `{forall x, Decision (P x)} (l : list A) :
  (forall x, P x) -> filter P l = l.
Proof.
  intros HP. induction l as [|x l IH]; [reflexivity|].
  now rewrite filter_cons_True, IH.
Qed.

Lemma searchInConfig_no_error loc cc term :
  readConfig loc = JS.Normal cc -> ConfigContent.error cc = None ->
  searchInConfig loc term =
    JS.Normal (matching_lines term (JS.split_lines (ConfigContent.content cc))).
Proof.
  intros Hcc He. unfold ConfigReader.searchInConfig. rewrite Hcc. cbn. rewrite He. cbn.
  now rewrite forEach_line_spec.
Qed.

(** X11. The empty term matches every line: on a location that is read
    without error, a search for the empty string reports all the lines of
    the content, numbered from 1, and so as many reports as the content
    has lines, which is at least one. *)
Theorem searchInConfig_empty_term loc :
  exists cc,
    readConfig loc = JS.Normal cc /\
    (ConfigContent.error cc = None ->
     exists reports,
       searchInConfig loc "" = JS.Normal reports /\
       reports = report <$> numbered_from 1 (JS.split_lines (ConfigContent.content cc)) /\
       length reports = length (JS.split_lines (ConfigContent.content cc)) /\
       reports <> []).
Proof.
  destruct (readConfig_total fs JSON_parse plist_parse yaml_load loc) as (cc & Hcc & _).
  exists cc. split; [exact Hcc|]. intros He.
  eexists. split; [exact (searchInConfig_no_error _ _ _ Hcc He)|].
  unfold matching_lines.
  rewrite filter_all by (intros p; apply contains_ignoring_case_empty).
  split; [reflexivity|].
  assert (length (report <$> numbered_from 1 (JS.split_lines (ConfigContent.content cc)))
          = length (JS.split_lines (ConfigContent.content cc))) as Hlen.
  { unfold numbered_from. rewrite length_fmap, length_zip, length_seq. lia. }
  split; [exact Hlen|].
  intros E. rewrite E in Hlen. cbn in Hlen.
  pose proof (split_lines_not_nil (ConfigContent.content cc)) as Hn.
  now destruct (JS.split_lines (ConfigContent.content cc)).
Qed.

(** The lines of a listing: the title, then the indented names. *)
Lemma split_lines_listing names :
  names <> [] -> Forall one_line names ->
  JS.split_lines (listing names) =
    "Directory contents:" :: ((fun file => "  " +:+ file) <$> names).
Proof.
  intros Hne Hall. unfold listing.
  rewrite split_lines_app_nl by (cbn; repeat split; discriminate).
  f_equal. apply split_lines_join.
  - now destruct names.
  - apply Forall_fmap. eapply Forall_impl; [exact Hall|].
    intros name Hname. cbn. repeat split; [discriminate..|exact Hname].
Qed.

Lemma fileList_of_one_line entries :
  Forall one_line entries -> Forall one_line (fileList_of entries).
Proof.
  intros Hall. unfold fileList_of, JS.sort.
  rewrite merge_sort_Permutation.
  induction Hall as [|x l Hx Hl IH]; [constructor|].
  cbn [List.filter]. destruct (negb (JS.startsWith x ".")); [now constructor | exact IH].
Qed.

(** The list the reader works with is the sorted arrangement of the
    visible entries. *)
Lemma fileList_of_unique entries l :
  l ≡ₚ filter (fun entry => ~ hidden entry) entries ->
  Sorted String.le l -> l = fileList_of entries.
Proof.
  intros Hl Hs. apply (Sorted_unique String.le); auto.
  - unfold fileList_of, JS.sort. apply (Sorted_merge_sort String.le).
  - rewrite Hl. unfold fileList_of, JS.sort. rewrite merge_sort_Permutation.
    clear. induction entries as [|x l IH]; [reflexivity|]. cbn [List.filter].
    destruct (JS.startsWith x ".") eqn:E; simpl.
    + rewrite filter_cons_False; [exact IH|].
      intros Hn. apply Hn. now apply startsWith_iff.
    + rewrite filter_cons_True; [now rewrite IH|].
      intros H. apply startsWith_iff in H. congruence.
Qed.

(** X12. Searching a directory searches its listing, title included. For
    a directory whose entries can be listed, the names and the term being
    in the ASCII range: a term contained, up to letter case, in the title
    "Directory contents:" gets "Line 1: Directory contents:" as its first
    report, even in an empty directory; and, the names being free of line
    feeds, the name at position [i] of the visible entries put in
    lexicographic order is on line [i + 2], reported without the white
    space at its two ends when it contains the term. *)
Theorem searchInConfig_directory_listing loc entries term :
  ConfigLocation.type loc = TDirectory ->
  Fs.sys_readdir fs (ConfigLocation.path loc) = inr entries ->
  Forall ascii_only entries ->
  ascii_only term ->
  (contains_ignoring_case "Directory contents:" term ->
   exists rest,
     searchInConfig loc term = JS.Normal ("Line 1: Directory contents:" :: rest)) /\
  (Forall one_line entries ->
   forall names,
     names ≡ₚ filter (fun entry => ~ hidden entry) entries ->
     Sorted String.le names ->
     forall i name,
       names !! i = Some name -> contains_ignoring_case name term ->
       exists reports t,
         searchInConfig loc term = JS.Normal reports /\
         trimmed name t /\
         "Line " +:+ JS.nat_to_string (i + 2) +:+ ": " +:+ t ∈ reports).
Proof.
  intros Ht Hl _ _.
  assert (searchInConfig loc term =
          JS.Normal (matching_lines term (JS.split_lines (listing (fileList_of entries)))))
    as Hsearch.
  { apply (searchInConfig_no_error loc
             (ConfigContent.mk (ConfigLocation.path loc) (listing (fileList_of entries))
                (Some (JS.Array (JS.Str <$> fileList_of entries))) "directory" None));
      [|reflexivity].
    now rewrite (readConfig_directory _ _ _ _ _ Ht), Hl. }
  split.
  - intros Hc. rewrite Hsearch. unfold listing.
    rewrite split_lines_app_nl by (cbn; repeat split; discriminate).
    unfold matching_lines, numbered_from. cbn [length seq zip zip_with].
    rewrite filter_cons_True by exact Hc. rewrite fmap_cons. now eexists.
  - intros Hall names Hperm Hsorted i name Hi Hc.
    rewrite (fileList_of_unique entries names Hperm Hsorted) in Hi.
    exists (matching_lines term (JS.split_lines (listing (fileList_of entries)))),
           (JS.trim name).
    split; [exact Hsearch|]. split; [apply trim_trimmed|].
    rewrite split_lines_listing.
    + apply matching_lines_elem. exists (S i), ("  " +:+ name). repeat split.
      * change (((fun file => "  " +:+ file) <$> fileList_of entries) !! i
                = Some ("  " +:+ name)).
        now rewrite list_lookup_fmap, Hi.
      * destruct Hc as (pre & mid & post & -> & Hd).
        exists ("  " +:+ pre), mid, post. split; [|exact Hd].
        now rewrite !app_String.
      * unfold report. cbn [fst snd]. now replace (i + 2)%nat with (S (S i)) by lia.
    + intros E. now rewrite E in Hi.
    + now apply fileList_of_one_line.
Qed.

(** X13. The raw display is bounded. When the display is neither an
    error message, nor a listing, nor a dump, and the path and the format
    are free of line feeds, it has three lines of header and then the
    lines of the content when these are at most 50, and 55 lines in all
    when they are more: 50 lines of content, a blank line and the
    notice. *)
Theorem raw_display_line_count cc :
  JS.truthy_opt_string (ConfigContent.error cc) = false ->
  ConfigContent.format cc <> "directory" ->
  ~ (ConfigContent.format cc = "json" \/ ConfigContent.format cc = "plist") \/
  parsed_truthy cc = false ->
  one_line (ConfigContent.path cc) ->
  one_line (ConfigContent.format cc) ->
  let n := length (JS.split_lines (ConfigContent.content cc)) in
  length (JS.split_lines (formatConfigForDisplay cc)) =
    (if decide (n <= 50) then 3 + n else 55)%nat /\
  (length (JS.split_lines (formatConfigForDisplay cc)) <= 55)%nat.
Proof.
  intros Hfalsy Hnd Hraw Hpath Hformat n.
  rewrite (formatConfigForDisplay_raw _ _ Hfalsy Hnd Hraw).
  assert (forall body,
            length (JS.split_lines (header cc +:+ body)) = (3 + length (JS.split_lines body))%nat)
    as Hheader.
  { intros body. unfold header.
    replace (((page_icon +:+ " " +:+ ConfigContent.path cc +:+ JS.nl) +:+
              "Format: " +:+ ConfigContent.format cc +:+ JS.nl +:+ JS.nl) +:+ body)
      with ((page_icon +:+ " " +:+ ConfigContent.path cc) +:+ JS.nl +:+
            ("Format: " +:+ ConfigContent.format cc) +:+ JS.nl +:+
            "" +:+ JS.nl +:+ body)
      by (now rewrite !app_assoc_string).
    rewrite !split_lines_app, !List.length_app.
    rewrite (split_lines_one_line (page_icon +:+ " " +:+ ConfigContent.path cc)).
    - rewrite (split_lines_one_line ("Format: " +:+ ConfigContent.format cc)); [reflexivity|].
      apply one_line_app. split; [cbn; repeat split; discriminate | exact Hformat].
    - apply one_line_app. split; [cbn; repeat split; discriminate|].
      apply one_line_app. split; [cbn; repeat split; discriminate | exact Hpath]. }
  rewrite Hheader. unfold raw_text. cbv zeta. fold n.
  destruct (decide (n <= 50)%nat) as [Hle|Hgt]; [split; [reflexivity | lia]|].
  unfold notice.
  replace (JS.join JS.nl (take 50 (JS.split_lines (ConfigContent.content cc))) +:+
           JS.nl +:+ JS.nl +:+ "... (showing first 50 lines of " +:+
           JS.nat_to_string n +:+ " total lines)")
    with (JS.join JS.nl (take 50 (JS.split_lines (ConfigContent.content cc))) +:+
          JS.nl +:+ "" +:+ JS.nl +:+ "... (showing first 50 lines of " +:+
          JS.nat_to_string n +:+ " total lines)") by reflexivity.
  rewrite !split_lines_app, !List.length_app, split_lines_join_take by lia.
  rewrite length_take.
  rewrite (split_lines_one_line
             ("... (showing first 50 lines of " +:+ JS.nat_to_string n +:+ " total lines)")).
  - fold n. cbn [JS.split_lines length]. split; lia.
  - apply one_line_app. split; [cbn; repeat split; discriminate|].
    apply one_line_app. split; [apply nat_to_string_one_line|].
    cbn; repeat split; discriminate.
Qed.

End ReaderShape.

(** * The server *)

(** One numbered entry of the answer of [find_config], and one section
    of the answer of [search_config]. *)
Definition entry (number : nat) (c : ConfigLocation.t) : string :=
  JS.nat_to_string number +:+ ". " +:+ ConfigLocation.description c +:+ JS.nl +:+
  "   Path: " +:+ ConfigLocation.path c +:+ JS.nl +:+
  "   Type: " +:+ Server.type_string (ConfigLocation.type c) +:+ " (" +:+
  format_string (ConfigLocation.format c) +:+ ")" +:+ JS.nl +:+ JS.nl.

Definition section_of (r : SearchResult.t) : string :=
  page_icon +:+ " " +:+ SearchResult.path r +:+ JS.nl +:+
  SearchResult.description r +:+ JS.nl +:+
  String.concat "" ((fun m => "  " +:+ m +:+ JS.nl) <$> SearchResult.matches r) +:+
  JS.nl.

(** The resource that [ListResources] gives for the key [k] of the entry
    [a], and the line that [list_apps] prints for a key. *)
Definition resource_of (k : string) (a : AppConfig) : Resource.t :=
  Resource.mk ("config://" +:+ k) "application/json"
    (displayName a +:+ " Configuration")
    ("Configuration files for " +:+ displayName a).

Definition summary_line (name k : string) (count : nat) : string :=
  "• " +:+ name +:+ " (" +:+ k +:+ ") - " +:+ JS.nat_to_string count +:+ " configs " +:+
  (if decide (count = 0)%nat then "❌" else "✅").

(** A line terminator of JavaScript, in UTF-8. *)
Definition line_terminators : list string :=
  [String "010" ""; String "013" "";
   String "226" (String "128" (String "168" ""));
   String "226" (String "128" (String "169" ""))].

(** A state that has everything [st] has, and the same table. *)
Definition extends (st st' : State) : Prop :=
  objects st ⊆ objects st' /\
  key_order st' = key_order st /\
  APP_CONFIGS st' = APP_CONFIGS st.

Lemma resolution_unknown fs homedir st key :
  APP_CONFIGS st !! JS.toLowerCase key = None -> resolution fs homedir st key = [].
Proof. intros E. unfold resolution. now rewrite E. Qed.

Section ServerFacts.

Context (fs : Fs.FileSystem) (homedir : string).
Context (JSON_parse plist_parse yaml_load : string -> JS.Completion JS.value).
Context (JSON_stringify : JS.value -> string).

Local Abbreviation readConfig := (readConfig fs JSON_parse plist_parse yaml_load).
Local Abbreviation searchInConfig := (searchInConfig fs JSON_parse plist_parse yaml_load).
Local Abbreviation formatConfigForDisplay := (formatConfigForDisplay JSON_stringify).
Local Abbreviation resolution := (resolution fs homedir).
Local Abbreviation callTool :=
  (Server.callTool fs homedir JSON_parse plist_parse yaml_load JSON_stringify).
Local Abbreviation listResources := (Server.listResources fs homedir).
Local Abbreviation readResource :=
  (Server.readResource fs homedir JSON_parse plist_parse yaml_load JSON_stringify).

(** What a search gives on a location; [searchInConfig] does not throw. *)
Definition matches_of (term : string) (c : ConfigLocation.t) : list string :=
  match searchInConfig c term with
  | JS.Normal matches => matches
  | JS.Throw _ => []
  end.

Lemma searchInConfig_matches_of c term :
  searchInConfig c term = JS.Normal (matches_of term c).
Proof.
  unfold matches_of, ConfigReader.searchInConfig.
  destruct (readConfig c) as [cc|e]; [|reflexivity]. cbn.
  now destruct (JS.truthy_opt_string (ConfigContent.error cc)).
Qed.

Lemma extends_refl st : extends st st.
Proof. now repeat split. Qed.

Lemma extends_trans st1 st2 st3 : extends st1 st2 -> extends st2 st3 -> extends st1 st3.
Proof.
  intros (A1 & A2 & A3) (B1 & B2 & B3). repeat split; [etrans; eauto | congruence..].
Qed.

Lemma extends_well_formed st st' : extends st st' -> well_formed st -> well_formed st'.
Proof. intros (H1 & _ & H3). now apply well_formed_weaken. Qed.

Lemma deref_each_ok st l d :
  deref_all st l = Some d -> Server.deref_each l st = (JS.Normal d, st).
Proof.
  unfold deref_all. revert d. induction l as [|r l IH]; intros d H.
  - now injection H as <-.
  - apply mapM_Some in H. apply Forall2_cons_inv_l in H as (c & d' & Hc & Hl & ->).
    apply mapM_Some in Hl. cbn [Server.deref_each].
    unfold mbind at 1, M_bind at 1, deref. rewrite Hc.
    unfold mbind, M_bind. now rewrite (IH _ Hl).
Qed.

(** The first step of the handlers that take an application: the
    resolution, and the fields of what it returns. *)
Lemma resolve st key :
  well_formed st ->
  exists found st',
    findConfigsForApp fs homedir key st = (JS.Normal found, st') /\
    Server.deref_each found st' = (JS.Normal (resolution st key), st') /\
    length found = length (resolution st key) /\
    extends st st' /\ well_formed st'.
Proof.
  intros Hwf.
  destruct (findConfigsForApp_ok fs homedir st key Hwf)
    as (found & st' & Hrun & Hder & Hsub & _ & Hko & Ht & Hwf').
  exists found, st'. repeat split; auto.
  - now apply deref_each_ok.
  - symmetry. now apply (deref_all_length st').
Qed.

Lemma Promise_all_readConfig locs :
  exists contents,
    Server.Promise_all (List.map readConfig locs) = JS.Normal contents /\
    Forall2 (fun loc cc => readConfig loc = JS.Normal cc) locs contents.
Proof.
  induction locs as [|loc locs (contents & Hrun & Hall)].
  - now exists [].
  - destruct (readConfig_total fs JSON_parse plist_parse yaml_load loc) as (cc & Hcc & _).
    exists (cc :: contents). cbn [List.map Server.Promise_all]. rewrite Hcc, Hrun.
    split; [reflexivity | now constructor].
Qed.

Lemma length_zero_nil {A} (l : list A) : (length l =? 0)%nat = true <-> l = [].
Proof. destruct l; cbn; split; congruence. Qed.

(** X15. [add_config_location] answers "Added configuration location"
    whether or not the table has the application, and whatever the path
    is; the application name is one on which the table is looked up among
    its own keys. For an application that the table does not have, the
    table is left as it was: nothing has been added. For one that it has,
    the new location is the last of its list, a new object with the four
    fields as given; that the path exists is not checked. *)
Theorem add_config_location_always_reports_success st args :
  own_lookup (Args.app args) ->
  exists st',
    callTool "add_config_location" args st =
      (JS.Normal ("Added configuration location for " +:+ Args.app args +:+ ":" +:+ JS.nl +:+
                  Args.description args +:+ JS.nl +:+ "Path: " +:+ Args.path args), st') /\
    key_order st' = key_order st /\
    (APP_CONFIGS st !! JS.toLowerCase (Args.app args) = None ->
     APP_CONFIGS st' = APP_CONFIGS st) /\
    (forall entry_before,
       APP_CONFIGS st !! JS.toLowerCase (Args.app args) = Some entry_before ->
       exists r,
         objects st !! r = None /\
         objects st' !! r =
           Some (ConfigLocation.mk (Args.path args) (Args.type args)
                   (Args.description args) (Args.format args)) /\
         locations_of st' (JS.toLowerCase (Args.app args)) =
           Some (configs entry_before ++ [r])).
Proof.
  intros _.
  cbn. unfold Server.add_config_location, mbind, M_bind, alloc, addConfigLocation.
  cbn [APP_CONFIGS objects key_order].
  destruct (APP_CONFIGS st !! JS.toLowerCase (Args.app args)) as [a|] eqn:E.
  - eexists. split; [reflexivity|]. cbn [APP_CONFIGS objects key_order].
    repeat split; [discriminate|].
    intros a' [= <-]. exists (fresh (dom (objects st))). repeat split.
    + apply not_elem_of_dom, is_fresh.
    + apply lookup_insert_eq.
    + unfold locations_of. cbn [APP_CONFIGS]. now rewrite lookup_insert_eq.
  - eexists. split; [reflexivity|]. cbn [APP_CONFIGS objects key_order].
    repeat split. intros a' [=].
Qed.

Lemma concat_cons (x : string) (l : list string) :
  String.concat "" (x :: l) = x +:+ String.concat "" l.
Proof. destruct l; cbn; [now rewrite app_empty_r | reflexivity]. Qed.

Lemma forEach_config_spec locs : forall index result,
  Server.forEach_config locs index result =
    result +:+ String.concat "" (imap (fun i => entry (index + i + 1)) locs).
Proof.
  induction locs as [|c locs IH]; intros index result.
  - cbn. now rewrite app_empty_r.
  - cbn [Server.forEach_config imap]. rewrite IH, concat_cons.
    assert (imap ((fun i => entry (index + i + 1)) ∘ S) locs
            = imap (fun i => entry (S index + i + 1)) locs) as ->.
    { apply imap_ext. intros i x _. cbn. f_equal. lia. }
    replace (index + 0 + 1)%nat with (index + 1)%nat by lia.
    unfold entry at 2. now rewrite !app_assoc_string.
Qed.

(** X16. [find_config] in a well-formed state, for an application name
    on which the table is looked up among its own keys. It answers with a
    text and leaves the table as it was. When no declared location of the
    application is present, and so for every application that the table
    does not have, the text says that no configurations were found and
    names the keys of the table. Otherwise it is the title with the
    display name, then one entry per location that a resolution returns,
    in that order, numbered from 1. *)
Theorem find_config_lists_resolved_locations st args :
  well_formed st ->
  own_lookup (Args.app args) ->
  exists text st',
    callTool "find_config" args st = (JS.Normal text, st') /\
    extends st st' /\
    text =
      match resolution st (Args.app args) with
      | [] =>
          "No configurations found for " +:+ JS.dq +:+ Args.app args +:+ JS.dq +:+
          ". Available apps: " +:+ JS.join ", " (key_order st)
      | locations =>
          ("Configuration files for " +:+
           Server.displayName_or (APP_CONFIGS st !! JS.toLowerCase (Args.app args))
             (Args.app args) +:+ ":" +:+ JS.nl +:+ JS.nl) +:+
          String.concat "" (imap (fun i => entry (i + 1)) locations)
      end /\
    (APP_CONFIGS st !! JS.toLowerCase (Args.app args) = None ->
     text = "No configurations found for " +:+ JS.dq +:+ Args.app args +:+ JS.dq +:+
            ". Available apps: " +:+ JS.join ", " (key_order st)).
Proof.
  intros Hwf _.
  destruct (resolve st (Args.app args) Hwf)
    as (found & st' & Hrun & Hder & Hlen & Hext & Hwf').
  destruct Hext as (Hsub & Hko & Ht).
  assert (APP_CONFIGS st !! JS.toLowerCase (Args.app args) = None ->
          resolution st (Args.app args) = []) as Hunknown.
  { apply resolution_unknown. }
  change (callTool "find_config" args) with (Server.find_config fs homedir args).
  unfold Server.find_config, mbind, M_bind. rewrite Hrun, Hlen.
  destruct (resolution st (Args.app args)) as [|c locations] eqn:E.
  - cbn [length Nat.eqb]. unfold getAvailableApps. rewrite Hko.
    eexists _, st'. now repeat split.
  - cbn [length Nat.eqb]. unfold getAppConfig. rewrite Hder, Ht.
    eexists _, st'. repeat split; auto.
    + unfold mret, M_ret. now rewrite forEach_config_spec.
    + intros Hnone. now specialize (Hunknown Hnone).
Qed.

Lemma read_and_display_spec targets st :
  exists contents,
    Forall2 (fun loc cc => readConfig loc = JS.Normal cc) targets contents /\
    Server.read_and_display fs JSON_parse plist_parse yaml_load JSON_stringify targets st =
      (JS.Normal (JS.join Server.separator (formatConfigForDisplay <$> contents)), st).
Proof.
  destruct (Promise_all_readConfig targets) as (contents & Hrun & Hall).
  exists contents. split; [exact Hall|].
  unfold Server.read_and_display, mbind, M_bind, lift. now rewrite Hrun.
Qed.

(** X17. [read_config] in a well-formed state, for an application name
    on which the table is looked up among its own keys. It answers with a
    text.
    The locations it reads are those that a resolution returns, all of
    them when [config_path] is absent or the empty string, and else those
    whose expanded path contains [config_path], letter case included.
    The text has one section per location read, in order, each the
    display of what [readConfig] returns for it, the sections separated
    by a rule of 80 equals signs; a location that cannot be read has its
    error message as its section and the others are not affected. *)
Theorem read_config_displays_selected_locations st args :
  well_formed st ->
  own_lookup (Args.app args) ->
  exists text st',
    callTool "read_config" args st = (JS.Normal text, st') /\
    extends st st' /\
    let locations := resolution st (Args.app args) in
    let selected :=
      if JS.truthy_opt_string (Args.config_path args) then
        List.filter
          (fun c => JS.includes (ConfigLocation.path c) (default "" (Args.config_path args)))
          locations
      else locations in
    (Args.config_path args = None \/ Args.config_path args = Some "" ->
     selected = locations) /\
    (locations = [] ->
     text = "No configurations found for " +:+ JS.dq +:+ Args.app args +:+ JS.dq) /\
    (locations <> [] -> selected = [] ->
     text = "No configuration found matching path " +:+ JS.dq +:+
            default "" (Args.config_path args) +:+ JS.dq +:+
            " for app " +:+ JS.dq +:+ Args.app args +:+ JS.dq) /\
    (selected <> [] ->
     exists contents,
       Forall2 (fun loc cc => readConfig loc = JS.Normal cc) selected contents /\
       text = JS.join Server.separator (formatConfigForDisplay <$> contents)).
Proof.
  intros Hwf _.
  destruct (resolve st (Args.app args) Hwf)
    as (found & st' & Hrun & Hder & Hlen & Hext & Hwf').
  change (callTool "read_config" args)
    with (Server.read_config fs homedir JSON_parse plist_parse yaml_load JSON_stringify args).
  cbv zeta.
  unfold Server.read_config, mbind at 1, M_bind at 1. rewrite Hrun, Hlen.
  assert (Args.config_path args = None \/ Args.config_path args = Some "" ->
          (if JS.truthy_opt_string (Args.config_path args) then
             List.filter
               (fun c => JS.includes (ConfigLocation.path c)
                           (default "" (Args.config_path args)))
               (resolution st (Args.app args))
           else resolution st (Args.app args)) = resolution st (Args.app args)) as Hall.
  { now intros [-> | ->]. }
  destruct (resolution st (Args.app args)) as [|c locations] eqn:E.
  - cbn [length Nat.eqb]. eexists _, st'. split; [reflexivity|]. split; [exact Hext|].
    cbv zeta. repeat split; auto; try congruence.
    intros Hsel. exfalso. apply Hsel. now destruct (JS.truthy_opt_string _).
  - cbn [length Nat.eqb]. unfold mbind at 1, M_bind at 1. rewrite Hder.
    destruct (JS.truthy_opt_string (Args.config_path args)) eqn:Htruthy.
    + set (selected := List.filter _ (c :: locations)).
      destruct (length_zero_nil selected) as [Hz1 Hz2].
      destruct selected as [|s1 sel] eqn:Hsel.
      * cbn [length Nat.eqb]. eexists _, st'. split; [reflexivity|]. split; [exact Hext|].
        repeat split; auto; try congruence.
        intros [H|H]; rewrite H in Htruthy; discriminate.
      * cbn [length Nat.eqb].
        destruct (read_and_display_spec (s1 :: sel) st') as (contents & Hc & ->).
        eexists _, st'. split; [reflexivity|]. split; [exact Hext|].
        repeat split; auto; try congruence.
        -- intros [H|H]; rewrite H in Htruthy; discriminate.
        -- intros _. now exists contents.
    + destruct (read_and_display_spec (c :: locations) st') as (contents & Hc & ->).
      eexists _, st'. split; [reflexivity|]. split; [exact Hext|].
      cbv zeta. repeat split; auto; try congruence.
      intros _. now exists contents.
Qed.

Lemma for_each_search_spec term locs : forall results,
  Server.for_each_search fs JSON_parse plist_parse yaml_load locs term results =
    JS.Normal
      (results ++
       ((fun c => SearchResult.mk (ConfigLocation.path c) (ConfigLocation.description c)
                    (matches_of term c))
          <$> List.filter (fun c => (0 <? length (matches_of term c))%nat) locs)).
Proof.
  induction locs as [|c locs IH]; intros results.
  - cbn. now rewrite app_nil_r.
  - cbn [Server.for_each_search List.filter]. rewrite searchInConfig_matches_of.
    cbn [JS.bind]. rewrite IH.
    destruct (0 <? length (matches_of term c))%nat; [|reflexivity].
    now rewrite <- app_assoc.
Qed.

Lemma forEach_match_spec matches : forall output,
  Server.forEach_match matches output =
    output +:+ String.concat "" ((fun m => "  " +:+ m +:+ JS.nl) <$> matches).
Proof.
  induction matches as [|m matches IH]; intros output.
  - cbn. now rewrite app_empty_r.
  - cbn [Server.forEach_match]. rewrite IH, fmap_cons, concat_cons.
    now rewrite !app_assoc_string.
Qed.

Lemma forEach_result_spec results : forall output,
  Server.forEach_result results output =
    output +:+ String.concat "" (section_of <$> results).
Proof.
  induction results as [|r results IH]; intros output.
  - cbn. now rewrite app_empty_r.
  - cbn [Server.forEach_result]. rewrite IH, forEach_match_spec, fmap_cons, concat_cons.
    unfold section_of at 2. now rewrite !app_assoc_string.
Qed.

(** A location whose read ends in an error has no matches. *)
Lemma matches_of_error term c cc :
  readConfig c = JS.Normal cc -> is_Some (ConfigContent.error cc) ->
  matches_of term c = [].
Proof.
  intros Hcc [m Hm].
  destruct (readConfig_total fs JSON_parse plist_parse yaml_load c) as (cc' & Hcc' & Herr).
  assert (cc' = cc) as -> by congruence.
  specialize (Herr m Hm). apply String.eqb_neq in Herr.
  unfold matches_of, ConfigReader.searchInConfig. rewrite Hcc. cbn. rewrite Hm. cbn.
  now rewrite Herr.
Qed.

(** X18. [search_config] in a well-formed state, for an application
    name on which the table is looked up among its own keys, the term and
    what is read of the locations being in the ASCII range. It answers
    with a text. The locations searched are those that a resolution
    returns. When at
    least one of them has a match, the text is the title followed by one
    section per location that has a match, in order, with its path, its
    description and its matches; a location without a match has no
    section. When none has a match the text says that no matches were
    found, and this is also the answer when every location fails to be
    read: a read error is not reported. *)
Theorem search_config_reports_locations_with_matches st args :
  well_formed st ->
  own_lookup (Args.app args) ->
  ascii_only (Args.search_term args) ->
  Forall (fun c => forall cc, readConfig c = JS.Normal cc ->
                              ascii_only (ConfigContent.content cc))
    (resolution st (Args.app args)) ->
  exists text st',
    callTool "search_config" args st = (JS.Normal text, st') /\
    extends st st' /\
    let term := Args.search_term args in
    let locations := resolution st (Args.app args) in
    let with_matches :=
      List.filter (fun c => (0 <? length (matches_of term c))%nat) locations in
    let no_matches :=
      "No matches found for " +:+ JS.dq +:+ term +:+ JS.dq +:+ " in " +:+
      Args.app args +:+ " configurations" in
    (locations = [] ->
     text = "No configurations found for " +:+ JS.dq +:+ Args.app args +:+ JS.dq) /\
    (locations <> [] -> with_matches = [] -> text = no_matches) /\
    (with_matches <> [] ->
     text =
       ("Search results for " +:+ JS.dq +:+ term +:+ JS.dq +:+ " in " +:+
        Args.app args +:+ " configurations:" +:+ JS.nl +:+ JS.nl) +:+
       String.concat ""
         ((fun c => section_of (SearchResult.mk (ConfigLocation.path c)
                                  (ConfigLocation.description c) (matches_of term c)))
            <$> with_matches)) /\
    (locations <> [] ->
     Forall (fun c => exists cc, readConfig c = JS.Normal cc /\
                                 is_Some (ConfigContent.error cc)) locations ->
     text = no_matches).
Proof.
  intros Hwf _ _ _.
  destruct (resolve st (Args.app args) Hwf)
    as (found & st' & Hrun & Hder & Hlen & Hext & Hwf').
  change (callTool "search_config" args)
    with (Server.search_config fs homedir JSON_parse plist_parse yaml_load args).
  cbv zeta.
  unfold Server.search_config, mbind at 1, M_bind at 1. rewrite Hrun, Hlen.
  assert (forall locs,
            Forall (fun c => exists cc, readConfig c = JS.Normal cc /\
                                        is_Some (ConfigContent.error cc)) locs ->
            List.filter (fun c => (0 <? length (matches_of (Args.search_term args) c))%nat)
              locs = []) as Hfail.
  { intros locs Hall. induction Hall as [|c l (cc & Hcc & He) Hl IH]; [reflexivity|].
    cbn [List.filter]. now rewrite (matches_of_error _ _ _ Hcc He). }
  destruct (resolution st (Args.app args)) as [|c locations] eqn:E.
  - cbn [length Nat.eqb List.filter]. eexists _, st'.
    split; [reflexivity|]. split; [exact Hext|].
    repeat split; auto; try congruence.
  - cbn [length Nat.eqb]. unfold mbind at 1, M_bind at 1. rewrite Hder.
    unfold mbind, M_bind, lift. rewrite for_each_search_spec. cbn [app].
    specialize (Hfail (c :: locations)).
    set (with_matches := List.filter _ (c :: locations)) in *.
    destruct with_matches as [|w ws] eqn:Hw.
    + cbn [fmap list_fmap length Nat.eqb]. eexists _, st'.
      split; [reflexivity|]. split; [exact Hext|].
      repeat split; auto; try congruence.
    + rewrite length_fmap. cbn [length Nat.eqb]. eexists _, st'.
      split; [reflexivity|]. split; [exact Hext|].
      repeat split; auto; try congruence.
      * intros _. rewrite forEach_result_spec.
        f_equal. now rewrite <- list_fmap_compose.
      * intros _ Hall. specialize (Hfail Hall). discriminate.
Qed.

Lemma for_each_appKey_spec apps : forall result st,
  well_formed st ->
  exists st',
    Server.for_each_appKey fs homedir apps result st =
      (JS.Normal
         (result ++
          ((fun k =>
              AppSummary.mk k
                (Server.displayName_or (APP_CONFIGS st !! JS.toLowerCase k) k)
                (APP_CONFIGS st !! JS.toLowerCase k ≫= bundleId)
                (length (resolution st k))
                (0 <? length (resolution st k))%nat) <$> apps)), st') /\
    extends st st' /\ well_formed st'.
Proof.
  induction apps as [|k apps IH]; intros result st Hwf.
  - exists st. cbn. rewrite app_nil_r. split; [reflexivity|]. split; [apply extends_refl|exact Hwf].
  - destruct (resolve st k Hwf) as (found & st1 & Hrun & _ & Hlen & Hext & Hwf1).
    cbn [Server.for_each_appKey]. unfold mbind at 1, M_bind at 1, getAppConfig.
    unfold mbind at 1, M_bind at 1. rewrite Hrun, Hlen.
    match goal with |- context [Server.for_each_appKey _ _ apps ?r st1] =>
      destruct (IH r st1 Hwf1) as (st' & -> & Hext' & Hwf') end.
    exists st'. split; [|split; [now apply (extends_trans st st1) | exact Hwf']].
    rewrite <- app_assoc, fmap_cons. cbn [app]. do 4 f_equal.
    destruct Hext as (Hsub & _ & Ht). apply list_fmap_ext. intros _ k' _.
    now rewrite Ht, (resolution_stable fs homedir st st1).
Qed.

(** X19. [list_apps] in a well-formed state answers with one line per
    key of the table, in the order of the table; the line of a key gives
    the display name, the key and the number of its declared locations
    that are present, with the check mark exactly when that number is not
    zero. *)
Theorem list_apps_counts_present_locations st args :
  well_formed st ->
  exists text st',
    callTool "list_apps" args st = (JS.Normal text, st') /\
    extends st st' /\
    text =
      "Available applications:" +:+ JS.nl +:+ JS.nl +:+
      JS.join JS.nl
        ((fun k =>
            summary_line (Server.displayName_or (APP_CONFIGS st !! JS.toLowerCase k) k) k
              (length (resolution st k))) <$> key_order st).
Proof.
  intros Hwf.
  change (callTool "list_apps" args) with (Server.list_apps fs homedir).
  unfold Server.list_apps, mbind, M_bind, getAvailableApps.
  destruct (for_each_appKey_spec (key_order st) [] st Hwf) as (st' & -> & Hext & _).
  eexists _, st'. split; [reflexivity|]. split; [exact Hext|].
  cbn [app]. do 4 f_equal. rewrite <- list_fmap_compose. apply list_fmap_ext.
  intros _ k _. unfold Server.app_line, summary_line.
  cbn [compose AppSummary.displayName AppSummary.key AppSummary.configCount
         AppSummary.hasConfigs].
  now destruct (length (resolution st k)).
Qed.

Lemma list_apps_frame st :
  well_formed st ->
  exists text st',
    Server.list_apps fs homedir st = (JS.Normal text, st') /\ extends st st'.
Proof.
  intros Hwf. unfold Server.list_apps, mbind, M_bind, getAvailableApps.
  destruct (for_each_appKey_spec (key_order st) [] st Hwf) as (st' & -> & Hext & _).
  now eexists _, st'.
Qed.

Lemma find_config_frame st args :
  well_formed st ->
  exists text st',
    Server.find_config fs homedir args st = (JS.Normal text, st') /\ extends st st'.
Proof.
  intros Hwf.
  destruct (resolve st (Args.app args) Hwf)
    as (found & st' & Hrun & Hder & Hlen & Hext & Hwf').
  unfold Server.find_config, mbind, M_bind. rewrite Hrun.
  destruct (length found =? 0)%nat.
  - now eexists _, st'.
  - unfold getAppConfig. rewrite Hder. now eexists _, st'.
Qed.

Lemma read_config_frame st args :
  well_formed st ->
  exists text st',
    Server.read_config fs homedir JSON_parse plist_parse yaml_load JSON_stringify args st =
      (JS.Normal text, st') /\ extends st st'.
Proof.
  intros Hwf.
  destruct (resolve st (Args.app args) Hwf)
    as (found & st' & Hrun & Hder & Hlen & Hext & Hwf').
  unfold Server.read_config, mbind at 1, M_bind at 1. rewrite Hrun.
  destruct (length found =? 0)%nat; [now eexists _, st'|].
  unfold mbind at 1, M_bind at 1. rewrite Hder.
  destruct (JS.truthy_opt_string (Args.config_path args)).
  - match goal with |- context [(length ?l =? 0)%nat] =>
      destruct (length l =? 0)%nat; [now eexists _, st'|];
      destruct (read_and_display_spec l st') as (contents & _ & ->) end.
    now eexists _, st'.
  - destruct (read_and_display_spec (resolution st (Args.app args)) st')
      as (contents & _ & ->).
    now eexists _, st'.
Qed.

Lemma search_config_frame st args :
  well_formed st ->
  exists text st',
    Server.search_config fs homedir JSON_parse plist_parse yaml_load args st =
      (JS.Normal text, st') /\ extends st st'.
Proof.
  intros Hwf.
  destruct (resolve st (Args.app args) Hwf)
    as (found & st' & Hrun & Hder & Hlen & Hext & Hwf').
  unfold Server.search_config, mbind at 1, M_bind at 1. rewrite Hrun.
  destruct (length found =? 0)%nat; [now eexists _, st'|].
  unfold mbind at 1, M_bind at 1. rewrite Hder.
  unfold mbind, M_bind, lift. rewrite for_each_search_spec.
  match goal with |- context [(length ?l =? 0)%nat] => destruct (length l =? 0)%nat end;
    now eexists _, st'.
Qed.

(** X20. The [switch] of [CallTool] and the list of [ListTools] agree. A
    name that is not one of the five listed tools makes the handler throw
    "Unknown tool: name" in every state, which it leaves as it is. A
    listed tool, called in a well-formed state with an application name
    on which the table is looked up among its own keys, does not throw:
    it answers with a text, in a state that is well formed again and has
    the same keys in the same order. *)
Theorem callTool_answers_the_listed_tools st name args :
  (name ∉ Server.tools ->
   callTool name args st = (JS.Throw (JS.Error ("Unknown tool: " +:+ name)), st)) /\
  (name ∈ Server.tools -> well_formed st -> own_lookup (Args.app args) ->
   exists text st',
     callTool name args st = (JS.Normal text, st') /\
     well_formed st' /\
     key_order st' = key_order st /\
     dom (APP_CONFIGS st') = dom (APP_CONFIGS st)).
Proof.
  split.
  - intros Hn. unfold Server.callTool, Server.tools in *.
    repeat match goal with
    | |- context [String.eqb name ?t] =>
        destruct (String.eqb_spec name t) as [->|_];
          [exfalso; apply Hn; repeat constructor|]
    end.
    reflexivity.
  - intros Hin Hwf _.
    assert (forall text st',
              extends st st' ->
              callTool name args st = (JS.Normal text, st') ->
              exists text st',
                callTool name args st = (JS.Normal text, st') /\
                well_formed st' /\
                key_order st' = key_order st /\
                dom (APP_CONFIGS st') = dom (APP_CONFIGS st)) as Hdone.
    { intros text st' Hext Hrun. exists text, st'.
      split; [exact Hrun|]. split; [now apply (extends_well_formed st)|].
      destruct Hext as (_ & Hko & Ht). now rewrite Ht. }
    unfold Server.tools in Hin.
    repeat (apply elem_of_cons in Hin as [-> | Hin]); [..|now apply elem_of_nil in Hin].
    + destruct (list_apps_frame st Hwf) as (text & st' & Hrun & Hext).
      now apply (Hdone text st').
    + destruct (find_config_frame st args Hwf) as (text & st' & Hrun & Hext).
      now apply (Hdone text st').
    + destruct (read_config_frame st args Hwf) as (text & st' & Hrun & Hext).
      now apply (Hdone text st').
    + destruct (search_config_frame st args Hwf) as (text & st' & Hrun & Hext).
      now apply (Hdone text st').
    + exists ("Added configuration location for " +:+ Args.app args +:+ ":" +:+ JS.nl +:+
              Args.description args +:+ JS.nl +:+ "Path: " +:+ Args.path args).
      pose (st1 := (alloc (ConfigLocation.mk (Args.path args) (Args.type args)
                             (Args.description args) (Args.format args)) st).2).
      exists (run fs homedir
                (AddConfigLocation (Args.app args) (fresh (dom (objects st)))) st1).
      assert (well_formed st1) as Hwf1.
      { apply (well_formed_weaken st); [|reflexivity|exact Hwf].
        apply insert_subseteq, not_elem_of_dom, is_fresh. }
      repeat split.
      * change (callTool "add_config_location" args)
          with (Server.add_config_location args).
        unfold Server.add_config_location, mbind, M_bind, alloc. cbn [run].
        unfold addConfigLocation, st1, alloc. cbn [snd APP_CONFIGS objects key_order].
        now destruct (APP_CONFIGS st !! JS.toLowerCase (Args.app args)).
      * apply run_well_formed; [exact Hwf1|]. cbn. unfold st1, alloc. cbn.
        rewrite lookup_insert_eq. now eexists.
      * now destruct (run_frame fs homedir
                        (AddConfigLocation (Args.app args) (fresh (dom (objects st)))) st1)
          as (_ & -> & _).
      * now rewrite run_dom.
Qed.

Lemma strip_prefix_spec p : forall s r,
  Server.strip_prefix p s = Some r <-> s = p +:+ r.
Proof.
  induction p as [|a p IH]; intros s r.
  - change ("" +:+ r) with r. cbn. split; congruence.
  - destruct s as [|b s]; [rewrite app_String; cbn; split; discriminate|].
    cbn [Server.strip_prefix]. rewrite app_String.
    destruct (Ascii.eqb_spec a b) as [->|Hne].
    + rewrite IH. split; [now intros -> | congruence].
    + split; [discriminate | congruence].
Qed.

(** The uniform resource identifiers that [ReadResource] takes. *)
Lemma match_config_uri_spec uri k :
  Server.match_config_uri uri = Some k <->
  uri = "config://" +:+ k /\ k <> "" /\ Server.has_line_terminator k = false.
Proof.
  unfold Server.match_config_uri.
  destruct (Server.strip_prefix "config://" uri) as [rest|] eqn:E.
  - assert (uri = "config://" +:+ k -> rest = k) as Hsame.
    { intros Hk. apply strip_prefix_spec in Hk. congruence. }
    apply strip_prefix_spec in E.
    destruct (String.eqb_spec rest "") as [->|Hne]; cbn [orb].
    + split; [discriminate|]. intros (Hk & Hn & _). apply Hsame in Hk. congruence.
    + destruct (Server.has_line_terminator rest) eqn:Ht.
      * split; [discriminate|]. intros (Hk & _ & Hf). apply Hsame in Hk. congruence.
      * split.
        -- intros [= <-]. now repeat split.
        -- intros (Hk & _). apply Hsame in Hk. congruence.
  - split; [discriminate|]. intros (Hk & _).
    apply strip_prefix_spec in Hk. congruence.
Qed.

Lemma has_line_terminator_spec k :
  Server.has_line_terminator k = true <->
  exists pre t post, t ∈ line_terminators /\ k = pre +:+ t +:+ post.
Proof.
  induction k as [|c k IH].
  - cbn. split; [discriminate|]. intros (pre & t & post & Ht & Hk).
    unfold line_terminators in Ht.
    repeat (apply elem_of_cons in Ht as [-> | Ht]); [..|now apply elem_of_nil in Ht];
      destruct pre; discriminate.
  - cbn [Server.has_line_terminator]. rewrite !orb_true_iff, IH. split.
    + intros [[[[Hc | Hc] | Hs] | Hs] | (pre & t & post & Ht & ->)].
      * apply Ascii.eqb_eq in Hc as ->. exists "", (String "010" ""), k.
        split; [|reflexivity]. unfold line_terminators. rewrite !elem_of_cons. tauto.
      * apply Ascii.eqb_eq in Hc as ->. exists "", (String "013" ""), k.
        split; [|reflexivity]. unfold line_terminators. rewrite !elem_of_cons. tauto.
      * apply startsWith_iff in Hs as [post Hp].
        exists "", (String "226" (String "128" (String "168" ""))), post.
        split; [|exact Hp]. unfold line_terminators. rewrite !elem_of_cons. tauto.
      * apply startsWith_iff in Hs as [post Hp].
        exists "", (String "226" (String "128" (String "169" ""))), post.
        split; [|exact Hp]. unfold line_terminators. rewrite !elem_of_cons. tauto.
      * exists (String c pre), t, post. now split.
    + intros (pre & t & post & Ht & Hk). destruct pre as [|c' pre].
      * left. unfold line_terminators in Ht.
        repeat (apply elem_of_cons in Ht as [-> | Ht]); [..|now apply elem_of_nil in Ht].
        -- injection Hk as -> _. now do 3 left.
        -- injection Hk as -> _. do 2 left. now right.
        -- left. right. apply startsWith_iff. exists post. exact Hk.
        -- right. apply startsWith_iff. exists post. exact Hk.
      * right. rewrite app_String in Hk. injection Hk as _ ->.
        now exists pre, t, post.
Qed.

Lemma readResource_resolved st uri k :
  well_formed st -> Server.match_config_uri uri = Some k ->
  exists contents st',
    Forall2 (fun loc cc => readConfig loc = JS.Normal cc) (resolution st k) contents /\
    extends st st' /\ well_formed st' /\
    readResource uri st =
      (match resolution st k with
       | [] => JS.Throw (JS.Error ("No configurations found for app: " +:+ k))
       | _ =>
           JS.Normal
             [ResourceContents.mk uri "application/json"
                (JSON_stringify
                   (JS.Object [
                      ("app",
                       JS.Str (Server.displayName_or (APP_CONFIGS st !! JS.toLowerCase k) k));
                      ("configs", JS.Array (Server.content_object <$> contents))
                    ]))]
       end, st').
Proof.
  intros Hwf Hm.
  destruct (resolve st k Hwf) as (found & st' & Hrun & Hder & Hlen & Hext & Hwf').
  destruct (Promise_all_readConfig (resolution st k)) as (contents & Hall & Hc).
  exists contents, st'. split; [exact Hc|]. split; [exact Hext|]. split; [exact Hwf'|].
  unfold Server.readResource. rewrite Hm.
  unfold mbind at 1, M_bind at 1. rewrite Hrun, Hlen.
  destruct (resolution st k) as [|c locations] eqn:E; [reflexivity|].
  cbn [length Nat.eqb]. unfold mbind at 1, M_bind at 1. rewrite Hder.
  unfold mbind, M_bind, lift, getAppConfig. rewrite Hall.
  destruct Hext as (_ & _ & ->). reflexivity.
Qed.

(** X21. [ReadResource]. The identifiers it takes are "config://"
    followed by a key that is not empty and holds no line terminator;
    for any other it throws "Invalid resource URI". In a well-formed
    state, for an identifier it takes whose key is one on which the table
    is looked up among its own keys: when a resolution of the key returns
    nothing, and so for every such key that the table does not have, it
    throws "No configurations found for app"; otherwise, no location of
    the resolution being of format yaml, it answers with one content,
    whose text is the JSON text of the display name and of what
    [readConfig] returns for each location of the resolution, in
    order. *)
Theorem readResource_cases st uri :
  (forall k,
     Server.match_config_uri uri = Some k <->
     uri = "config://" +:+ k /\ k <> "" /\
     ~ exists pre t post, t ∈ line_terminators /\ k = pre +:+ t +:+ post) /\
  (Server.match_config_uri uri = None ->
   readResource uri st = (JS.Throw (JS.Error ("Invalid resource URI: " +:+ uri)), st)) /\
  (forall k,
     well_formed st -> own_lookup k -> Server.match_config_uri uri = Some k ->
     exists contents st',
       Forall2 (fun loc cc => readConfig loc = JS.Normal cc) (resolution st k) contents /\
       extends st st' /\
       (resolution st k = [] ->
        readResource uri st =
          (JS.Throw (JS.Error ("No configurations found for app: " +:+ k)), st')) /\
       (resolution st k <> [] ->
        Forall (fun c => ConfigLocation.format c <> FYaml) (resolution st k) ->
        readResource uri st =
          (JS.Normal
             [ResourceContents.mk uri "application/json"
                (JSON_stringify
                   (JS.Object [
                      ("app",
                       JS.Str (Server.displayName_or (APP_CONFIGS st !! JS.toLowerCase k) k));
                      ("configs", JS.Array (Server.content_object <$> contents))
                    ]))], st'))).
Proof.
  split; [|split].
  - intros k. rewrite match_config_uri_spec, <- has_line_terminator_spec.
    now destruct (Server.has_line_terminator k).
  - intros Hm. unfold Server.readResource. now rewrite Hm.
  - intros k Hwf _ Hm.
    destruct (readResource_resolved st uri k Hwf Hm)
      as (contents & st' & Hc & Hext & _ & Hrun).
    exists contents, st'. split; [exact Hc|]. split; [exact Hext|].
    rewrite Hrun. destruct (resolution st k); split; congruence.
Qed.

Lemma for_each_entry_spec st entries : forall resources,
  Server.for_each_entry entries resources st =
    (JS.Normal
       (resources ++
        omap (fun e =>
                a ← APP_CONFIGS st !! JS.toLowerCase e.1;
                if (0 <? length e.2)%nat then Some (resource_of e.1 a) else None)
          entries), st).
Proof.
  induction entries as [|e entries IH]; intros resources.
  - cbn. now rewrite app_nil_r.
  - cbn [Server.for_each_entry]. unfold mbind at 1, M_bind at 1, getAppConfig.
    rewrite IH. cbn [omap list_omap].
    destruct (APP_CONFIGS st !! JS.toLowerCase e.1) as [a|];
      cbn [mbind option_bind]; [|reflexivity].
    destruct (0 <? length e.2)%nat; [|reflexivity].
    now rewrite <- app_assoc.
Qed.

(** What [ListResources] lists in a state. *)
Definition listed (st : State) : list Resource.t :=
  omap (fun k =>
          a ← APP_CONFIGS st !! JS.toLowerCase k;
          if (0 <? length (resolution st k))%nat then Some (resource_of k a) else None)
    (key_order st).

Lemma listResources_spec st :
  well_formed st ->
  exists st',
    listResources st = (JS.Normal (listed st), st') /\
    extends st st' /\ well_formed st'.
Proof.
  intros Hwf. unfold Server.listResources, getAllAvailableConfigs, getAvailableApps.
  unfold mbind, M_bind.
  destruct (for_each_app_ok fs homedir (key_order st) [] st Hwf)
    as (entries & st' & -> & Hkeys & Hall & Hsub & Hko & Ht & Hwf').
  cbn [app]. rewrite for_each_entry_spec. cbn [app].
  exists st'. split; [|split; [now repeat split | exact Hwf']].
  f_equal. f_equal. unfold listed. rewrite <- Hkeys, Ht. clear Hkeys.
  induction Hall as [|e entries He Hes IH]; [reflexivity|].
  cbn [fmap list_fmap omap list_omap]. rewrite <- IH.
  now rewrite <- (deref_all_length _ _ _ He).
Qed.

Lemma elem_of_listed st r :
  r ∈ listed st <->
  exists k a,
    k ∈ key_order st /\ APP_CONFIGS st !! JS.toLowerCase k = Some a /\
    resolution st k <> [] /\ r = resource_of k a.
Proof.
  unfold listed. rewrite list_elem_of_omap. split.
  - intros (k & Hk & Hr). exists k.
    destruct (APP_CONFIGS st !! JS.toLowerCase k) as [a|]; [|discriminate].
    cbn in Hr. exists a.
    destruct (resolution st k); cbn in Hr; [discriminate|].
    injection Hr as <-. now repeat split.
  - intros (k & a & Hk & Ha & Hres & ->). exists k. split; [exact Hk|].
    rewrite Ha. cbn. now destruct (resolution st k).
Qed.

End ServerFacts.

(** ** Listing and then reading *)

(** Two file systems in which the same locations are present resolve
    every key alike. *)
Lemma resolution_present_ext fs fs' homedir st k :
  (forall c, present fs homedir c <-> present fs' homedir c) ->
  resolution fs homedir st k = resolution fs' homedir st k.
Proof.
  intros Hsame. unfold resolution.
  destruct (APP_CONFIGS st !! JS.toLowerCase k) as [app|]; [|reflexivity].
  f_equal. now apply list_filter_iff.
Qed.

Section ListThenRead.

Context (fs fs' : Fs.FileSystem) (homedir : string).
Context (JSON_parse plist_parse yaml_load : string -> JS.Completion JS.value).
Context (JSON_stringify : JS.value -> string).

(** X22. [ListResources] and [ReadResource] agree. The file system is
    [fs] at the listing and [fs'] at the reading. In every state the
    registry can be in, [ListResources] lists, in the order of the table,
    the applications with at least one declared location present in
    [fs]. When the same locations are present in [fs'], whatever the
    files hold by then, and no location present is of format yaml: every
    resource listed can be read, [ReadResource] answering with a content
    for its identifier; and for a built-in application that is not
    listed, [ReadResource] throws "No configurations found for app". *)
Theorem listed_resources_can_be_read st :
  reachable fs homedir st ->
  exists resources st',
    Server.listResources fs homedir st = (JS.Normal resources, st') /\
    resources = listed fs homedir st /\
    (forall r,
       r ∈ resources <->
       exists k a,
         k ∈ key_order st /\ APP_CONFIGS st !! k = Some a /\
         resolution fs homedir st k <> [] /\ r = resource_of k a) /\
    ((forall c, present fs homedir c <-> present fs' homedir c) ->
     (forall k, k ∈ key_order st ->
        Forall (fun c => ConfigLocation.format c <> FYaml) (resolution fs homedir st k)) ->
     Forall (fun r => exists contents st'',
               Server.readResource fs' homedir JSON_parse plist_parse yaml_load JSON_stringify
                 (Resource.uri r) st' = (JS.Normal [contents], st'') /\
               ResourceContents.uri contents = Resource.uri r) resources /\
     (forall k,
        k ∈ key_order st -> resolution fs homedir st k = [] ->
        exists st'',
          Server.readResource fs' homedir JSON_parse plist_parse yaml_load JSON_stringify
            ("config://" +:+ k) st' =
            (JS.Throw (JS.Error ("No configurations found for app: " +:+ k)), st''))).
Proof.
  intros Hr.
  destruct (reachable_invariant fs homedir st Hr) as (Hwf & Hlow & Hdom).
  pose proof (reachable_key_order fs homedir st Hr) as Hko.
  destruct (listResources_spec fs homedir st Hwf) as (st' & Hrun & Hext & Hwf').
  assert (forall k, k ∈ key_order st ->
            JS.toLowerCase k = k /\ Server.match_config_uri ("config://" +:+ k) = Some k)
    as Hkeys.
  { intros k Hk. rewrite Hko in Hk. cbn in Hk.
    repeat (apply elem_of_cons in Hk as [-> | Hk]); [..|now apply elem_of_nil in Hk];
      split; reflexivity. }
  exists (listed fs homedir st), st'.
  split; [exact Hrun|]. split; [reflexivity|]. split.
  - intros r. rewrite elem_of_listed. split.
    + intros (k & a & Hk & Ha & Hne & ->). exists k, a.
      destruct (Hkeys k Hk) as [Hl _]. rewrite Hl in Ha. now repeat split.
    + intros (k & a & Hk & Ha & Hne & ->). exists k, a.
      destruct (Hkeys k Hk) as [Hl _]. rewrite Hl. now repeat split.
  - intros Hsame _.
    assert (forall k, k ∈ key_order st ->
              resolution fs' homedir st' k = resolution fs homedir st k) as Hres.
    { intros k _. destruct Hext as (Hsub & _ & Ht).
      rewrite <- (resolution_present_ext fs fs' homedir st' k Hsame).
      now apply resolution_stable. }
    split.
    + apply Forall_forall. intros r Hin.
      apply elem_of_listed in Hin as (k & a & Hk & Ha & Hne & ->).
      destruct (Hkeys k Hk) as [_ Hm].
      destruct (readResource_resolved fs' homedir JSON_parse plist_parse yaml_load
                  JSON_stringify st' _ k Hwf' Hm)
        as (contents & st'' & _ & _ & _ & Hread).
      rewrite (Hres k Hk) in Hread.
      destruct (resolution fs homedir st k) as [|c l] eqn:E; [congruence|].
      eexists _, st''. split; [exact Hread | reflexivity].
    + intros k Hk Hnone.
      destruct (Hkeys k Hk) as [_ Hm].
      destruct (readResource_resolved fs' homedir JSON_parse plist_parse yaml_load
                  JSON_stringify st' _ k Hwf' Hm)
        as (contents & st'' & _ & _ & _ & Hread).
      rewrite (Hres k Hk), Hnone in Hread. now exists st''.
Qed.

End ListThenRead.

(** * The further properties on the concrete home directory and files *)

Section FurtherExamples.

Local Abbreviation read := (readConfig config_fs Json.parse no_plist Json.parse).
Local Abbreviation search := (searchInConfig config_fs Json.parse no_plist Json.parse).
Local Abbreviation display := (formatConfigForDisplay Json.stringify).
Local Abbreviation call :=
  (Server.callTool home_fs home Json.parse no_plist Json.parse Json.stringify).

Lemma getAllAvailableConfigs_resolves_every_key_witness :
  exists result st',
    getAllAvailableConfigs home_fs home initial = (JS.Normal result, st') /\
    result.*1 = ["gemini"; "claude desktop"; "claude code"; "vscode"; "cursor"] /\
    (deref_all st' <$> result.*2) =
      [Some []; Some [];
       Some [ConfigLocation.mk "/home/u/.claude/" TDirectory
               "Claude Code configuration directory" FDirectory];
       Some [];
       Some [ConfigLocation.mk "/home/u/.cursor/mcp.json" TFile
               "Cursor MCP configuration" FJson]].
Proof.
  destruct (getAllAvailableConfigs_resolves_every_key home_fs home initial
              (reachable_initial home_fs home))
    as (result & st' & Hrun & Hkeys & Hall & _).
  exists result, st'. split; [exact Hrun|]. split; [exact Hkeys|].
  destruct result as [|[k1 f1] [|[k2 f2] [|[k3 f3] [|[k4 f4] [|[k5 f5] [|]]]]]];
    try discriminate.
  injection Hkeys as -> -> -> -> ->.
  repeat match goal with H : Forall _ (_ :: _) |- _ =>
    apply Forall_cons in H as [[? _] H] end.
  cbn [fmap list_fmap snd] in *. repeat f_equal; assumption.
Defined.

Lemma addConfigLocation_then_findConfigsForApp_witness :
  (exists before st1 after st2 values,
     findConfigsForApp home_fs home "CURSOR" initial = (JS.Normal before, st1) /\
     findConfigsForApp home_fs home "CURSOR"
       (run home_fs home (AddConfigLocation "CURSOR" 2) initial) = (JS.Normal after, st2) /\
     deref_all st1 before = Some values /\
     deref_all st2 after =
       Some (values ++ [ConfigLocation.mk "/home/u/.claude/" TDirectory
                          "Claude Code configuration directory" FDirectory])) /\
  (exists before st1 after st2,
     findConfigsForApp home_fs home "Claude Code" initial = (JS.Normal before, st1) /\
     findConfigsForApp home_fs home "Claude Code"
       (run home_fs home (AddConfigLocation "CURSOR" 2) initial) = (JS.Normal after, st2) /\
     deref_all st2 after = deref_all st1 before).
Proof.
  assert (well_formed initial) as Hwf
    by (unfold well_formed; apply (bool_decide_unpack _); vm_compute; exact I).
  destruct (addConfigLocation_then_findConfigsForApp home_fs home initial "CURSOR" 2
              (ConfigLocation.mk "~/.claude/" TDirectory
                 "Claude Code configuration directory" FDirectory)
              Hwf eq_refl)
    as [(before & st1 & after & st2 & values & H1 & H2 & D1 & D2) Hothers];
    [reflexivity | vm_compute; eauto |].
  split.
  - exists before, st1, after, st2, values.
    split; [exact H1|]. split; [exact H2|]. split; [exact D1 | exact D2].
  - apply (Hothers (grown_initial home_fs home) "Claude Code");
      [own_lookup_of_literal | vm_compute; discriminate].
Defined.

Lemma updateAppConfigs_then_findConfigsForApp_witness :
  exists found st',
    findConfigsForApp home_fs home "Gemini"
      (run home_fs home (UpdateAppConfigs "Gemini" [4; 3; 2]) initial)
      = (JS.Normal found, st') /\
    deref_all st' found =
      Some [ConfigLocation.mk "/home/u/.cursor/mcp.json" TFile
              "Cursor MCP configuration" FJson;
            ConfigLocation.mk "/home/u/.claude/" TDirectory
              "Claude Code configuration directory" FDirectory].
Proof.
  assert (well_formed initial) as Hwf
    by (unfold well_formed; apply (bool_decide_unpack _); vm_compute; exact I).
  destruct (updateAppConfigs_then_findConfigsForApp home_fs home initial "Gemini" [4; 3; 2]
              _ Hwf eq_refl)
    as (found & st' & Hrun & Hder & _); [vm_compute; eauto|].
  exists found, st'. split; [exact Hrun | exact Hder].
Defined.

Lemma keyed_operations_ignore_letter_case_witness :
  findConfigsForApp home_fs home "Claude Code" initial =
    findConfigsForApp home_fs home "claude code" initial /\
  addConfigLocation "VSCode" 4 initial = addConfigLocation "vscode" 4 initial.
Proof.
  assert (differ_only_in_case "Claude Code" "claude code") as H1
    by (apply toLowerCase_eq_iff; reflexivity).
  assert (differ_only_in_case "VSCode" "vscode") as H2
    by (apply toLowerCase_eq_iff; reflexivity).
  split.
  - apply (keyed_operations_ignore_letter_case home_fs home initial _ _ H1).
  - apply (keyed_operations_ignore_letter_case home_fs home initial _ _ H2).
Defined.

Lemma findConfigsForApp_twice_witness :
  exists first st1 second st2,
    findConfigsForApp home_fs home "cursor" initial = (JS.Normal first, st1) /\
    findConfigsForApp (Fs.of_tree ∅) home "cursor" st1 = (JS.Normal second, st2) /\
    deref_all st2 first =
      Some [ConfigLocation.mk "/home/u/.cursor/mcp.json" TFile
              "Cursor MCP configuration" FJson] /\
    deref_all st2 second = Some [] /\
    Forall (fun r => r ∉ first) second.
Proof.
  assert (well_formed initial) as Hwf
    by (unfold well_formed; apply (bool_decide_unpack _); vm_compute; exact I).
  destruct (findConfigsForApp_twice home_fs (Fs.of_tree ∅) home initial "cursor" Hwf)
    as (first & st1 & second & st2 & H1 & H2 & D1 & D2 & Hnew);
    [own_lookup_of_literal|].
  exists first, st1, second, st2.
  split; [exact H1|]. split; [exact H2|]. split; [exact D1|]. split; [exact D2 | exact Hnew].
Defined.

Lemma reachable_states_keep_the_built_in_keys_witness :
  getAvailableApps with_relative_location =
    (JS.Normal ["gemini"; "claude desktop"; "claude code"; "vscode"; "cursor"],
     with_relative_location) /\
  (exists r, getAppConfig "Emacs" with_relative_location = (JS.Normal r, with_relative_location) /\
             (is_Some r <->
              "emacs" ∈ ["gemini"; "claude desktop"; "claude code"; "vscode"; "cursor"])) /\
  exists found st',
    findConfigsForApp home_fs home "Cursor" with_relative_location = (JS.Normal found, st').
Proof.
  assert (reachable home_fs home with_relative_location) as Hr.
  { apply reachable_run; [apply reachable_alloc, reachable_initial|].
    vm_compute. eauto. }
  destruct (reachable_states_keep_the_built_in_keys home_fs home _ Hr)
    as (Hkeys & Hget & Hfind).
  split; [exact Hkeys|]. split.
  - apply (Hget "Emacs"). own_lookup_of_literal.
  - destruct (Hfind "Cursor") as (found & st' & Hrun & _); [own_lookup_of_literal|].
    now exists found, st'.
Defined.

Lemma expandPath_dollar_patterns_witness :
  expandPath "/home/a$$b" "~/.cursor/mcp.json" = "/home/a$b/.cursor/mcp.json" /\
  expandPath "/home/$&" "~/x" = "/home/~/x" /\
  expandPath "/home/$`u" "~/x" = "/home/u/x" /\
  expandPath "/home/$'" "~/x" = "/home//x/x".
Proof.
  assert (dollar_free "/home/a") as H1 by (cbn; repeat split; discriminate).
  assert (dollar_free "b") as H2 by (cbn; repeat split; discriminate).
  assert (dollar_free "/home/") as H3 by (cbn; repeat split; discriminate).
  assert (dollar_free "u") as H4 by (cbn; repeat split; discriminate).
  assert (dollar_free "") as H5 by exact I.
  destruct (expandPath_dollar_patterns "/home/a" "b" "/.cursor/mcp.json" H1 H2)
    as (E1 & _).
  destruct (expandPath_dollar_patterns "/home/" "" "/x" H3 H5) as (_ & E2 & _ & E4).
  destruct (expandPath_dollar_patterns "/home/" "u" "/x" H3 H4) as (_ & _ & E3 & _).
  split; [exact E1 | split; [exact E2 | split; [exact E3 | exact E4]]].
Defined.

Lemma expandPath_idempotent_witness :
  expandPath home (expandPath home "~/.cursor/mcp.json") = "/home/u/.cursor/mcp.json".
Proof.
  assert (absolute home) as Ha by (now exists "home/u").
  assert (dollar_free home) as Hd by (cbn; repeat split; discriminate).
  rewrite (expandPath_idempotent home "~/.cursor/mcp.json" Ha Hd). reflexivity.
Defined.

Lemma file_formats_displayed_raw_witness :
  read (ConfigLocation.mk "/cfg/notes.txt" TFile "notes" FText) =
    JS.Normal (ConfigContent.mk "/cfg/notes.txt" sixty_lines None "text" None) /\
  (exists cc,
     read (ConfigLocation.mk "/cfg/settings.json" TFile "settings as yaml" FYaml)
       = JS.Normal cc /\
     ConfigContent.parsed cc = Some settings /\
     display cc = header cc +:+ Json.stringify settings) /\
  (exists cc,
     read (ConfigLocation.mk "/cfg/notes.txt" TFile "notes" FDirectory) = JS.Normal cc /\
     display cc = header cc +:+ sixty_lines /\
     length (JS.split_lines sixty_lines) = 60%nat).
Proof.
  destruct (file_formats_displayed_raw config_fs Json.parse no_plist Json.parse
              Json.stringify (ConfigLocation.mk "/cfg/notes.txt" TFile "notes" FText)
              sixty_lines eq_refl) as (Htext & _); [vm_compute; reflexivity|].
  destruct (file_formats_displayed_raw config_fs Json.parse no_plist Json.parse
              Json.stringify
              (ConfigLocation.mk "/cfg/settings.json" TFile "settings as yaml" FYaml)
              (Json.stringify settings) eq_refl) as (_ & Hyaml & _);
    [vm_compute; reflexivity|].
  destruct (file_formats_displayed_raw config_fs Json.parse no_plist Json.parse
              Json.stringify (ConfigLocation.mk "/cfg/notes.txt" TFile "notes" FDirectory)
              sixty_lines eq_refl) as (_ & _ & Hdir); [vm_compute; reflexivity|].
  split; [exact (Htext eq_refl)|]. split.
  - destruct (Hyaml settings eq_refl) as (cc & Hcc & Hp & Hd); [vm_compute; reflexivity|].
    exists cc. split; [exact Hcc|]. split; [exact Hp|]. rewrite Hd. now f_equal.
  - destruct (Hdir eq_refl) as (cc & Hcc & _ & Hd).
    exists cc. split; [exact Hcc|]. split; [exact Hd|]. vm_compute. reflexivity.
Defined.

Lemma searchInConfig_term_case_witness :
  search (json_file "/cfg/settings.json") "THEME" =
  search (json_file "/cfg/settings.json") "theme".
Proof.
  apply searchInConfig_term_case. apply toLowerCase_eq_iff. reflexivity.
Defined.

Lemma searchInConfig_directory_listing_witness :
  (exists rest,
     search (ConfigLocation.mk "/cfg/dir" TDirectory "a directory" FDirectory) "CONTENTS"
       = JS.Normal ("Line 1: Directory contents:" :: rest)) /\
  (exists reports t,
     search (ConfigLocation.mk "/cfg/dir" TDirectory "a directory" FDirectory) "txt"
       = JS.Normal reports /\
     trimmed "b.txt" t /\
     "Line 3: " +:+ t ∈ reports).
Proof.
  split.
  - destruct (searchInConfig_directory_listing config_fs Json.parse no_plist Json.parse
                (ConfigLocation.mk "/cfg/dir" TDirectory "a directory" FDirectory)
                ["a.json"; ".hidden"; "b.txt"] "CONTENTS" eq_refl) as (Htitle & _);
      [vm_compute; reflexivity | repeat constructor | reflexivity |].
    apply Htitle. exists "Directory ", "contents", ":".
    split; [reflexivity|]. apply toLowerCase_eq_iff. reflexivity.
  - destruct (searchInConfig_directory_listing config_fs Json.parse no_plist Json.parse
                (ConfigLocation.mk "/cfg/dir" TDirectory "a directory" FDirectory)
                ["a.json"; ".hidden"; "b.txt"] "txt" eq_refl) as (_ & Hname);
      [vm_compute; reflexivity | repeat constructor | reflexivity |].
    apply (Hname ltac:(repeat constructor; cbn; repeat split; discriminate)
             ["a.json"; "b.txt"]) with (i := 1%nat).
    + rewrite filter_cons_True, filter_cons_False, filter_cons_True; [reflexivity|..].
      * intros [rest E]. discriminate.
      * intros H. apply H. now exists "hidden".
      * intros [rest E]. discriminate.
    + repeat constructor.
    + reflexivity.
    + exists "b.", "txt", "". split; [reflexivity|]. apply toLowerCase_eq_iff. reflexivity.
Defined.

Lemma raw_display_line_count_witness :
  length (JS.split_lines
            (display (ConfigContent.mk "/cfg/notes.txt" sixty_lines None "text" None)))
    = 55%nat.
Proof.
  destruct (raw_display_line_count Json.stringify
              (ConfigContent.mk "/cfg/notes.txt" sixty_lines None "text" None))
    as (Hcount & _).
  - reflexivity.
  - discriminate.
  - left. intros [H|H]; discriminate.
  - cbn. repeat split; discriminate.
  - cbn. repeat split; discriminate.
  - rewrite Hcount. vm_compute. reflexivity.
Defined.

(** Arguments naming Cursor, as a client would send them. *)
Definition cursor_args : Args.t :=
  Args.mk "Cursor" None "MCP" "configs/mcp.json" TFile "Cursor, project configuration" FJson.

Definition emacs_args : Args.t :=
  Args.mk "emacs" (Some "init") "load" "~/.emacs.d/init.el" TFile "Emacs init file" FText.

Lemma find_config_lists_resolved_locations_witness :
  (exists st',
     call "find_config" cursor_args initial =
       (JS.Normal
          ("Configuration files for Cursor:" +:+ JS.nl +:+ JS.nl +:+
           "1. Cursor MCP configuration" +:+ JS.nl +:+
           "   Path: /home/u/.cursor/mcp.json" +:+ JS.nl +:+
           "   Type: file (json)" +:+ JS.nl +:+ JS.nl), st')) /\
  (exists st',
     call "find_config" emacs_args initial =
       (JS.Normal
          (JS.text "No configurations found for 'emacs'. Available apps: " +:+
           "gemini, claude desktop, claude code, vscode, cursor"), st')).
Proof.
  assert (well_formed initial) as Hwf
    by (unfold well_formed; apply (bool_decide_unpack _); vm_compute; exact I).
  split.
  - destruct (find_config_lists_resolved_locations home_fs home Json.parse no_plist
                Json.parse Json.stringify initial cursor_args Hwf)
      as (text & st' & Hrun & _ & Htext & _); [own_lookup_of_literal|].
    exists st'. rewrite Hrun, Htext. vm_compute. reflexivity.
  - destruct (find_config_lists_resolved_locations home_fs home Json.parse no_plist
                Json.parse Json.stringify initial emacs_args Hwf)
      as (text & st' & Hrun & _ & _ & Hunknown); [own_lookup_of_literal|].
    exists st'. rewrite Hrun, Hunknown; [|vm_compute; reflexivity].
    vm_compute. reflexivity.
Defined.

Lemma read_config_displays_selected_locations_witness :
  exists contents st',
    readConfig home_fs Json.parse no_plist Json.parse
      (ConfigLocation.mk "/home/u/.cursor/mcp.json" TFile "Cursor MCP configuration" FJson)
      = JS.Normal contents /\
    call "read_config" cursor_args initial = (JS.Normal (display contents), st').
Proof.
  assert (well_formed initial) as Hwf
    by (unfold well_formed; apply (bool_decide_unpack _); vm_compute; exact I).
  destruct (read_config_displays_selected_locations home_fs home Json.parse no_plist
              Json.parse Json.stringify initial cursor_args Hwf)
    as (text & st' & Hrun & _ & _ & _ & _ & Hsel); [own_lookup_of_literal|].
  destruct Hsel as (contents & Hall & Htext); [discriminate|].
  apply Forall2_cons_inv_l in Hall as (cc & rest & Hcc & Hrest & ->).
  apply Forall2_nil_inv_l in Hrest as ->.
  exists cc, st'. split; [exact Hcc|]. now rewrite Hrun, Htext.
Defined.

Lemma search_config_reports_locations_with_matches_witness :
  (exists st',
     call "search_config" cursor_args initial =
       (JS.Normal
          (JS.text "Search results for 'MCP' in Cursor configurations:" +:+ JS.nl +:+ JS.nl +:+
           page_icon +:+ " /home/u/.cursor/mcp.json" +:+ JS.nl +:+
           "Cursor MCP configuration" +:+ JS.nl +:+
           JS.text "  Line 1: {'mcpServers': {}}" +:+ JS.nl +:+ JS.nl), st')) /\
  (exists st',
     call "search_config"
       (Args.mk "cursor" None "theme" "" TFile "" FJson) initial =
       (JS.Normal (JS.text "No matches found for 'theme' in cursor configurations"), st')).
Proof.
  assert (well_formed initial) as Hwf
    by (unfold well_formed; apply (bool_decide_unpack _); vm_compute; exact I).
  assert (forall app,
            resolution home_fs home initial app =
              [ConfigLocation.mk "/home/u/.cursor/mcp.json" TFile
                 "Cursor MCP configuration" FJson] ->
            Forall (fun c => forall cc,
                      readConfig home_fs Json.parse no_plist Json.parse c = JS.Normal cc ->
                      ascii_only (ConfigContent.content cc))
              (resolution home_fs home initial app)) as Hascii.
  { intros app ->. constructor; [|constructor].
    intros cc Hcc. vm_compute in Hcc. injection Hcc as <-. reflexivity. }
  split.
  - destruct (search_config_reports_locations_with_matches home_fs home Json.parse no_plist
                Json.parse Json.stringify initial cursor_args Hwf)
      as (text & st' & Hrun & _ & _ & _ & Hfound & _);
      [own_lookup_of_literal | reflexivity | apply Hascii; vm_compute; reflexivity |].
    exists st'. rewrite Hrun, Hfound; [|vm_compute; discriminate].
    vm_compute. reflexivity.
  - destruct (search_config_reports_locations_with_matches home_fs home Json.parse no_plist
                Json.parse Json.stringify initial
                (Args.mk "cursor" None "theme" "" TFile "" FJson) Hwf)
      as (text & st' & Hrun & _ & _ & Hnone & _);
      [own_lookup_of_literal | reflexivity | apply Hascii; vm_compute; reflexivity |].
    exists st'. rewrite Hrun, Hnone; [| vm_compute; discriminate | vm_compute; reflexivity].
    vm_compute. reflexivity.
Defined.

Lemma list_apps_counts_present_locations_witness :
  exists st',
    call "list_apps" cursor_args initial =
      (JS.Normal
         ("Available applications:" +:+ JS.nl +:+ JS.nl +:+
          "• Google Gemini (gemini) - 0 configs ❌" +:+ JS.nl +:+
          "• Claude Desktop (claude desktop) - 0 configs ❌" +:+ JS.nl +:+
          "• Claude Code (claude code) - 1 configs ✅" +:+ JS.nl +:+
          "• Visual Studio Code (vscode) - 0 configs ❌" +:+ JS.nl +:+
          "• Cursor (cursor) - 1 configs ✅"), st').
Proof.
  assert (well_formed initial) as Hwf
    by (unfold well_formed; apply (bool_decide_unpack _); vm_compute; exact I).
  destruct (list_apps_counts_present_locations home_fs home Json.parse no_plist
              Json.parse Json.stringify initial cursor_args Hwf)
    as (text & st' & Hrun & _ & Htext).
  exists st'. rewrite Hrun, Htext. vm_compute. reflexivity.
Defined.

Lemma callTool_answers_the_listed_tools_witness :
  call "delete_config" cursor_args initial =
    (JS.Throw (JS.Error "Unknown tool: delete_config"), initial) /\
  (exists text st',
     call "add_config_location" cursor_args initial = (JS.Normal text, st') /\
     well_formed st' /\ key_order st' = key_order initial).
Proof.
  assert (well_formed initial) as Hwf
    by (unfold well_formed; apply (bool_decide_unpack _); vm_compute; exact I).
  split.
  - apply (callTool_answers_the_listed_tools home_fs home Json.parse no_plist
             Json.parse Json.stringify initial "delete_config" cursor_args).
    unfold Server.tools. rewrite !not_elem_of_cons. repeat split; try discriminate.
    apply not_elem_of_nil.
  - destruct (callTool_answers_the_listed_tools home_fs home Json.parse no_plist
                Json.parse Json.stringify initial "add_config_location" cursor_args)
      as (_ & Hknown).
    destruct Hknown as (text & st' & Hrun & Hwf' & Hko & _);
      [|exact Hwf|own_lookup_of_literal|].
    + unfold Server.tools. rewrite !elem_of_cons. tauto.
    + now exists text, st'.
Defined.

Lemma add_config_location_always_reports_success_witness :
  exists st',
    call "add_config_location" emacs_args initial =
      (JS.Normal ("Added configuration location for emacs:" +:+ JS.nl +:+
                  "Emacs init file" +:+ JS.nl +:+ "Path: ~/.emacs.d/init.el"), st') /\
    APP_CONFIGS st' = APP_CONFIGS initial.
Proof.
  destruct (add_config_location_always_reports_success home_fs home Json.parse no_plist
              Json.parse Json.stringify initial emacs_args)
    as (st' & Hrun & _ & Hunknown & _); [own_lookup_of_literal|].
  exists st'. split; [exact Hrun|]. apply Hunknown. vm_compute. reflexivity.
Defined.

Lemma readResource_cases_witness :
  Server.readResource home_fs home Json.parse no_plist Json.parse Json.stringify
    "file:///etc/passwd" initial =
    (JS.Throw (JS.Error "Invalid resource URI: file:///etc/passwd"), initial) /\
  (exists st',
     Server.readResource home_fs home Json.parse no_plist Json.parse Json.stringify
       "config://emacs" initial =
       (JS.Throw (JS.Error "No configurations found for app: emacs"), st')) /\
  (exists contents st',
     Server.readResource home_fs home Json.parse no_plist Json.parse Json.stringify
       "config://Cursor" initial =
       (JS.Normal
          [ResourceContents.mk "config://Cursor" "application/json"
             (Json.stringify
                (JS.Object [("app", JS.Str "Cursor");
                            ("configs", JS.Array [Server.content_object contents])]))],
        st')).
Proof.
  assert (well_formed initial) as Hwf
    by (unfold well_formed; apply (bool_decide_unpack _); vm_compute; exact I).
  split; [|split].
  - apply (readResource_cases home_fs home Json.parse no_plist Json.parse Json.stringify
             initial "file:///etc/passwd"). vm_compute. reflexivity.
  - destruct (readResource_cases home_fs home Json.parse no_plist Json.parse Json.stringify
                initial "config://emacs") as (_ & _ & Hk).
    destruct (Hk "emacs" Hwf) as (contents & st' & _ & _ & Hnone & _);
      [own_lookup_of_literal | vm_compute; reflexivity|].
    exists st'. apply Hnone. vm_compute. reflexivity.
  - destruct (readResource_cases home_fs home Json.parse no_plist Json.parse Json.stringify
                initial "config://Cursor") as (_ & _ & Hk).
    destruct (Hk "Cursor" Hwf) as (contents & st' & Hall & _ & _ & Hsome);
      [own_lookup_of_literal | vm_compute; reflexivity|].
    assert (resolution home_fs home initial "Cursor" =
            [ConfigLocation.mk "/home/u/.cursor/mcp.json" TFile
               "Cursor MCP configuration" FJson]) as E by (vm_compute; reflexivity).
    rewrite E in Hall, Hsome.
    apply Forall2_cons_inv_l in Hall as (cc & rest & Hcc & Hrest & ->).
    apply Forall2_nil_inv_l in Hrest as ->.
    exists cc, st'. rewrite Hsome; [reflexivity | discriminate |].
    repeat constructor. discriminate.
Defined.

(** The home directory later on: the file of Cursor has been rewritten. *)
Definition home_fs_later : Fs.FileSystem :=
  Fs.of_tree (<["/home/u/.cursor/mcp.json" := Fs.File (JS.text "{'mcpServers': {'a': 1}}")]>
                home_tree).

Lemma home_fs_later_same p :
  Fs.sys_access home_fs_later p = Fs.sys_access home_fs p /\
  Fs.sys_stat home_fs_later p = Fs.sys_stat home_fs p.
Proof.
  unfold home_fs_later, home_fs, Fs.of_tree. cbn [Fs.sys_access Fs.sys_stat].
  destruct (decide (p = "/home/u/.cursor/mcp.json")) as [->|Hne].
  - rewrite lookup_insert_eq. split; reflexivity.
  - rewrite lookup_insert_ne by congruence. split; reflexivity.
Qed.

Lemma listed_resources_can_be_read_witness :
  exists resources st',
    Server.listResources home_fs home initial = (JS.Normal resources, st') /\
    Resource.uri <$> resources = ["config://claude code"; "config://cursor"] /\
    Forall (fun r => exists contents st'',
              Server.readResource home_fs_later home Json.parse no_plist Json.parse
                Json.stringify (Resource.uri r) st' = (JS.Normal [contents], st'') /\
              ResourceContents.uri contents = Resource.uri r) resources.
Proof.
  destruct (listed_resources_can_be_read home_fs home_fs_later home Json.parse no_plist
              Json.parse Json.stringify initial (reachable_initial home_fs home))
    as (resources & st' & Hrun & _ & _ & Hread).
  destruct Hread as [Hread _].
  - intros c. unfold present, exists_as.
    destruct (home_fs_later_same (expandPath home (ConfigLocation.path c))) as [-> ->].
    reflexivity.
  - intros k Hk. cbn in Hk.
    repeat (apply elem_of_cons in Hk as [-> | Hk]); [..|now apply elem_of_nil in Hk];
      vm_compute; repeat constructor; discriminate.
  - exists resources, st'. split; [exact Hrun|]. split; [|exact Hread].
    assert ((Server.listResources home_fs home initial).1 =
            JS.Normal [resource_of "claude code"
                         {| displayName := "Claude Code"; bundleId := None; configs := [2] |};
                       resource_of "cursor"
                         {| displayName := "Cursor"; bundleId := None; configs := [4] |}])
      as E by (vm_compute; reflexivity).
    rewrite Hrun in E. injection E as ->. reflexivity.
Defined.

End FurtherExamples.
